(** * shdl2ethsnarks: a shallow embedding of the SHDL reader

    The development follows [src/shdl2ethsnarks.py]: the two regular
    expressions [RE_VAR_LINE] and [RE_GATE_LINE], the classes [Variable] and
    [Gate], the readers [parse_gates] and [parse_variables], and [main].

    Python strings are lists of 8-bit characters; the functions of the
    Python 3 library the script calls ([str.strip], [str.split], [int],
    [re.match], [print], [sys.exit]) are modelled next to their callers.

    The script stops after parsing.  The Passthru Resolver that the
    specification describes on top of it is modelled from the specification,
    in a section of its own, and is marked as such. *)

From Stdlib Require Import ZArith List Ascii String Lia Bool DecimalString.
From stdpp Require Import gmap strings list.

Local Open Scope Z_scope.

(** ** Python strings *)

Abbreviation str := (list ascii).

Definition chars (s : string) : str := list_ascii_of_string s.

Definition code (a : ascii) : N := N_of_ascii a.

(** [str.isspace] on one character (Python 3, code points below 256). *)
Definition py_isspace (a : ascii) : bool :=
  let n := code a in
  ((9 <=? n) && (n <=? 13) || (28 <=? n) && (n <=? 32)
   || (n =? 133) || (n =? 160))%N.

Definition is_digit (a : ascii) : bool :=
  let n := code a in ((48 <=? n) && (n <=? 57))%N.

Definition is_bit (a : ascii) : bool :=
  let n := code a in ((n =? 48) || (n =? 49))%N.

Fixpoint lstrip (s : str) : str :=
  match s with
  | a :: s' => if py_isspace a then lstrip s' else s
  | [] => []
  end.

Definition rstrip (s : str) : str := rev (lstrip (rev s)).

(** [s.strip()] *)
Definition strip (s : str) : str := rstrip (lstrip s).

(** [s.split()]: the maximal runs of non-space characters. *)
Fixpoint split_aux (cur : str) (s : str) : list str :=
  match s with
  | [] => match cur with [] => [] | _ => [rev cur] end
  | a :: s' =>
      if py_isspace a
      then match cur with [] => split_aux [] s' | _ => rev cur :: split_aux [] s' end
      else split_aux (a :: cur) s'
  end.

Definition split (s : str) : list str := split_aux [] s.

Definition digit_val (a : ascii) : Z := Z.of_N (code a) - 48.

(** [sys.int_max_str_digits] as CPython 3.11 and later set it: [int] of a
    numeral with more digits is a [ValueError], leading zeros counted. *)
Definition int_max_str_digits : Z := 4300.

(** [int(s)] on a token.  Only plain decimal numerals are read; every other
    token is a [ValueError] here, and so is a numeral of more than
    [int_max_str_digits] digits.  The two grammars let nothing but decimal
    numerals through to [int]. *)
Definition py_int (s : str) : option Z :=
  match s with
  | [] => None
  | _ => if forallb is_digit s && (Z.of_nat (length s) <=? int_max_str_digits)
         then Some (fold_left (fun acc a => 10 * acc + digit_val a) s 0)
         else None
  end.

(** ["%d" % n] *)
Definition str_of_Z (n : Z) : str := chars (NilZero.string_of_int (Z.to_int n)).

(** ** Regular expressions ([re]) *)

Inductive regex : Type :=
| Chr (p : ascii -> bool)      (* a character class *)
| Lit (l : str)                (* literal text *)
| Seq (r1 r2 : regex)
| Alt (r1 r2 : regex)          (* r1|r2, r1 tried first *)
| Star (r : regex)             (* r*, greedy *)
| Group (g : string) (r : regex)  (* (?P<g>r), or (r) under its number *)
| Bol                          (* ^ *)
| Eol.                         (* $ *)

Definition Plus (r : regex) : regex := Seq r (Star r).
Definition Opt (r : regex) : regex := Alt r (Lit []).

Definition is_char (c : ascii) (a : ascii) : bool := (code a =? code c)%N.
Definition not_char (c : ascii) (a : ascii) : bool := negb (is_char c a).

Definition newline : ascii := ascii_of_nat 10.

(** [.] without DOTALL *)
Definition dot : regex := Chr (not_char newline).
Definition ws : regex := Chr py_isspace.    (* \s *)
Definition digits : regex := Plus (Chr is_digit).  (* [0-9]+ *)

Fixpoint strip_prefix (l s : str) : option str :=
  match l, s with
  | [], _ => Some s
  | a :: l', b :: s' => if (code a =? code b)%N then strip_prefix l' s' else None
  | _ :: _, [] => None
  end.

Abbreviation caps := (gmap string str).

(** One repetition [r*]: [step] matches the body once.  A round that
    consumes nothing is not repeated; [fuel] bounds the rounds by the length
    of the subject. *)
Fixpoint star_loop (step : str -> caps -> (str -> caps -> option caps) -> option caps)
    (k : str -> caps -> option caps) (fuel : nat) (s : str) (c : caps)
    {struct fuel} : option caps :=
  match fuel with
  | O => k s c
  | S fuel' =>
      match step s c
              (fun s1 c1 =>
                 if (length s1 <? length s)%nat
                 then star_loop step k fuel' s1 c1 else None) with
      | Some res => Some res
      | None => k s c
      end
  end.

Section Matcher.

(** Length of the whole subject, to recognise position 0. *)
Variable n0 : nat.

(** A backtracking matcher in continuation-passing style: [rmatch r s c k]
    matches [r] at the front of [s] with the groups [c] captured so far and
    hands the rest of the subject to [k]; when [k] fails the next
    alternative is tried, the longest repetition first. *)
Fixpoint rmatch (r : regex) (s : str) (c : caps)
    (k : str -> caps -> option caps) {struct r} : option caps :=
  match r with
  | Chr p =>
      match s with
      | a :: s' => if p a then k s' c else None
      | [] => None
      end
  | Lit l =>
      match strip_prefix l s with
      | Some s' => k s' c
      | None => None
      end
  | Seq r1 r2 => rmatch r1 s c (fun s1 c1 => rmatch r2 s1 c1 k)
  | Alt r1 r2 =>
      match rmatch r1 s c k with
      | Some res => Some res
      | None => rmatch r2 s c k
      end
  | Star r1 => star_loop (rmatch r1) k (length s) s c
  | Group g r1 =>
      rmatch r1 s c
        (fun s1 c1 => k s1 (<[g := take (length s - length s1) s]> c1))
  | Bol => if (length s =? n0)%nat then k s c else None
  | Eol =>
      match s with
      | [] => k s c
      | [a] => if is_char newline a then k s c else None
      | _ => None
      end
  end.

End Matcher.

(** [r.match(s)]: anchored at position 0, not at the end. *)
Definition re_match (r : regex) (s : str) : option caps :=
  rmatch (length s) r s ∅ (fun _ c => Some c).

(** ** Python results and printing *)

Inductive exn : Type := AttributeError | TypeError | ValueError | IOError.

Inductive result (A : Type) : Type :=
| Return (a : A)
| Raise (e : exn).
Arguments Return {A} a.
Arguments Raise {A} e.

(** _GateStruct *)
Inductive pyval : Type :=
| PyNone
| PyStr (s : str)
| PyInts (l : list Z).

Record GateStruct : Type := mkGate {
  is_input : bool;
  is_output : bool;
  wire : Z;
  arity : option Z;
  table : pyval;
  inputs : pyval;
  comment : option str
}.

(** _VariableStruct.  The first three fields hold what [m.group] returns,
    a string or [None]. *)
Record VariableStruct : Type := mkVariable {
  party : option str;
  type : option str;
  name : option str;
  wires : list Z
}.

(** What a call of [print] writes: its arguments, in order. *)
Inductive obj : Type :=
| OStr (s : str)
| OInt (n : Z)
| OGates (w : list (Z * GateStruct))
| OVars (v : list (option str * VariableStruct)).

Abbreviation stdout := (list (list obj)).

(** Computations that print and may raise. *)
Definition py (A : Type) : Type := stdout * result A.

Definition ret {A} (a : A) : py A := ([], Return a).
Definition raise {A} (e : exn) : py A := ([], Raise e).
Definition print (args : list obj) : py unit := ([args], Return tt).
Definition bind {A B} (m : py A) (f : A -> py B) : py B :=
  match m with
  | (o, Return a) => let '(o', r) := f a in (o ++ o', r)
  | (o, Raise e) => (o, Raise e)
  end.

Notation "'let!' x ':=' m 'in' f" := (bind m (fun x => f))
  (at level 10, x name, m at level 100, f at level 200).
Notation "'do!' m 'in' f" := (bind m (fun _ => f))
  (at level 10, m at level 100, f at level 200).

Definition lift {A} (e : exn) (o : option A) : py A :=
  match o with Some a => ret a | None => raise e end.

(** [[int(_) for _ in toks]] *)
Fixpoint ints (toks : list str) : option (list Z) :=
  match toks with
  | [] => Some []
  | t :: toks' =>
      match py_int t, ints toks' with
      | Some n, Some l => Some (n :: l)
      | _, _ => None
      end
  end.

(** [int(o)] of a group: [None] is a [TypeError], a non-numeral a
    [ValueError]. *)
Definition int_of_group (o : option str) : py Z :=
  match o with
  | None => raise TypeError
  | Some s => lift ValueError (py_int s)
  end.

(** [len(v)] *)
Definition py_len (v : pyval) : py Z :=
  match v with
  | PyNone => raise TypeError
  | PyStr s => ret (Z.of_nat (length s))
  | PyInts l => ret (Z.of_nat (length l))
  end.

(** [v == l] for a list of ints [l]. *)
Definition pyval_eq_list (v : pyval) (l : list Z) : bool :=
  match v with
  | PyInts l' => bool_decide (l' = l)
  | _ => false
  end.

(** [o == s] for a group [o] and a string [s]. *)
Definition group_eq (o : option str) (s : string) : bool :=
  bool_decide (o = Some (chars s)).

(** ** The two line grammars *)

Definition dquote : ascii := ascii_of_nat 34.

Definition lit (s : string) : regex := Lit (chars s).

Notation "r1 ~> r2" := (Seq r1 r2) (at level 60, right associativity).

(** RE_VAR_LINE, writing Q for the double-quote character:
      (?P<party>Alice|Bob) (input|output) (?P<type>integer)
      Q(?P<name>[^Q]+)Q \[\s*(?P<inputs>([0-9]+\s)+)\]
    The unnamed groups are stored under their numbers, 2 and 6. *)
Definition RE_VAR_LINE : regex :=
  Group "party" (Alt (lit "Alice") (lit "Bob")) ~> lit " " ~>
  Group "2" (Alt (lit "input") (lit "output")) ~> lit " " ~>
  Group "type" (lit "integer") ~> lit " " ~> Lit [dquote] ~>
  Group "name" (Plus (Chr (not_char dquote))) ~> Lit [dquote] ~> lit " [" ~>
  Star ws ~>
  Group "inputs" (Plus (Group "6" (digits ~> ws))) ~>
  lit "]".

(** RE_GATE_LINE.  The pattern is one line in the source; it is cut here
    into its parts, and nothing stands between two parts:
      ^(?P<wire>[0-9]+) (
      (?P<is_output>output )?gate arity (?P<arity>[0-9]+)
       table \[\s(?P<table>([01]\s?)+)\]
       inputs \[\s(?P<inputs>[0-9]+\s)+\]
      |(?P<is_input>input)
      )(?P<comment>\s*//.*
      )?$
    (the second to fourth lines are one part, with single spaces).  The
    unnamed groups are stored under their numbers, 2 and 6. *)
Definition RE_GATE_LINE : regex :=
  Bol ~> Group "wire" digits ~> lit " " ~>
  Group "2"
    (Alt (Opt (Group "is_output" (lit "output ")) ~> lit "gate arity " ~>
          Group "arity" digits ~> lit " table [" ~> ws ~>
          Group "table" (Plus (Group "6" (Chr is_bit ~> Opt ws))) ~>
          lit "] inputs [" ~> ws ~>
          Plus (Group "inputs" (digits ~> ws)) ~> lit "]")
         (Group "is_input" (lit "input"))) ~>
  Opt (Group "comment" (Star ws ~> lit "//" ~> Star dot)) ~>
  Eol.

(** ** class Variable *)

Module Var.

Definition from_line (line : str) (lineno : Z) : py VariableStruct :=
  match re_match RE_VAR_LINE line with
  | None => raise AttributeError          (* m.group on None *)
  | Some m =>
      let! inputs := lift AttributeError (m !! "inputs") in  (* None.strip() *)
      let! wires := lift ValueError (ints (split (strip inputs))) in
      ret (mkVariable (m !! "party") (m !! "type") (m !! "name") wires)
  end.

End Var.

(** ** class Gate *)

Module Gate.

Definition is_constant (self : GateStruct) : bool :=
  match arity self with
  | Some a => a =? 0
  | None => false
  end.

Definition is_passthru (self : GateStruct) : bool :=
  match arity self with
  | Some a => (a =? 1) && pyval_eq_list (table self) [0; 1]
  | None => false
  end.

Definition is_not (self : GateStruct) : bool :=
  match arity self with
  | Some a => (a =? 1) && pyval_eq_list (table self) [1; 0]
  | None => false
  end.

Definition error_on_line (lineno : Z) (line : str) : py unit :=
  do! print [OStr (chars "Error on line "); OInt lineno] in
  print [OStr (chars "Line: "); OStr line].

(** The tests [if comment:], [if table:] and [if inputs:] hold of a string
    that is not empty; [arity] is tested against [None]. *)
Definition from_line (line : str) (lineno : Z) : py (option GateStruct) :=
  let line := strip line in
  match re_match RE_GATE_LINE line with
  | None =>
      do! error_on_line lineno line in
      ret None
  | Some m =>
      let comment :=
        match m !! "comment" with
        | Some ((_ :: _) as c) => Some (drop 2 (strip c))   (* comment.strip()[2:] *)
        | other => other
        end in
      let! wire := int_of_group (m !! "wire") in
      let is_input := group_eq (m !! "is_input") "input" in
      let! arity :=
        match m !! "arity" with
        | None => ret None
        | Some a => let! n := lift ValueError (py_int a) in ret (Some n)
        end in
      if match arity with Some n => (n <? 0) || (n >? 3) | None => false end
      then
        do! error_on_line lineno line in
        do! print [OStr (chars "Gate arity " ++ str_of_Z (default 0 arity)
                         ++ chars " not supported!")] in
        ret None
      else
        let! table :=
          match m !! "table" with
          | Some ((_ :: _) as t) =>
              let! l := lift ValueError (ints (split t)) in ret (PyInts l)
          | Some [] => ret (PyStr [])
          | None => ret PyNone
          end in
        let! inputs :=
          match m !! "inputs" with
          | Some ((_ :: _) as t) =>
              let! l := lift ValueError (ints (split t)) in ret (PyInts l)
          | Some [] => ret (PyStr [])
          | None => ret PyNone
          end in
        let is_output := group_eq (m !! "is_output") "output " in
        let gate := mkGate is_input is_output wire arity table inputs comment in
        if negb is_input
        then
          let! n := py_len table in
          let! a := lift TypeError arity in
          if negb (n =? Z.shiftl 1 a)
          then
            do! error_on_line lineno line in
            do! print [OStr (chars "Expected table of %d bits for arity %d, got table of %d bits instead!");
                       OInt (Z.shiftl 1 a); OInt a; OInt n] in
            ret None
          else ret (Some gate)
        else ret (Some gate)
  end.

End Gate.

(** ** OrderedDict *)

Section OrderedDict.
Context {K V : Type} `{EqDecision K}.

Definition od_mem (k : K) (d : list (K * V)) : bool :=
  bool_decide (k ∈ d.*1).

(** [d[k] = v]: a present key keeps its place, a new one goes last. *)
Fixpoint od_set (k : K) (v : V) (d : list (K * V)) : list (K * V) :=
  match d with
  | [] => [(k, v)]
  | (k', v') :: d' =>
      if decide (k' = k) then (k, v) :: d' else (k', v') :: od_set k v d'
  end.

Fixpoint od_get (k : K) (d : list (K * V)) : option V :=
  match d with
  | [] => None
  | (k', v') :: d' => if decide (k' = k) then Some v' else od_get k d'
  end.

End OrderedDict.

(** ** The readers *)

(** The loop [for lineno, line in enumerate(file_handle)] of parse_gates,
    from line [lineno] on, with the dictionary [wires] built so far.  The
    result is the integer 2 or 3, or the dictionary. *)
Fixpoint parse_gates_from (lineno : Z) (wires : list (Z * GateStruct))
    (file_handle : list str) : py obj :=
  match file_handle with
  | [] => ret (OGates wires)
  | line :: rest =>
      let line := strip line in
      match line with
      | [] => parse_gates_from (lineno + 1) wires rest
      | _ =>
          let! parsed := Gate.from_line line lineno in
          match parsed with
          | None => ret (OInt 2)
          | Some parsed =>
              if od_mem (wire parsed) wires
              then
                do! Gate.error_on_line lineno line in
                do! print [OStr (chars "Duplicate wire: "); OInt (wire parsed)] in
                ret (OInt 3)
              else
                parse_gates_from (lineno + 1)
                  (od_set (wire parsed) parsed wires) rest
          end
      end
  end.

Definition parse_gates (file_handle : list str) : py obj :=
  parse_gates_from 0 [] file_handle.

Fixpoint parse_variables_from (lineno : Z)
    (variables : list (option str * VariableStruct)) (file_handle : list str)
    : py obj :=
  match file_handle with
  | [] => ret (OVars variables)
  | line :: rest =>
      let line := strip line in
      match line with
      | [] => parse_variables_from (lineno + 1) variables rest
      | _ =>
          let! parsed := Var.from_line line lineno in
          parse_variables_from (lineno + 1)
            (od_set (name parsed) parsed variables) rest
      end
  end.

Definition parse_variables (file_handle : list str) : py obj :=
  parse_variables_from 0 [] file_handle.

(** ** main *)

(** [open(path, 'r')] over the files [files] of the run: the lines of the
    file, or an [IOError]. *)
Definition open (files : str -> option (list str)) (path : str)
    : py (list str) :=
  lift IOError (files path).

Definition main (files : str -> option (list str)) (args : list str)
    : py (option Z) :=
  match args with
  | arg0 :: arg1 :: _ =>
      let! handle := open files arg0 in
      let! wires := parse_gates handle in
      let! handle := open files arg1 in
      let! variables := parse_variables handle in
      do! print [wires] in
      do! print [variables] in
      ret None
  | _ =>                                   (* len(args) < 2 *)
      do! print [OStr (chars "Usage: shdl2ethsnarks.py <file.circuit> <file.fmt>")] in
      ret (Some 1)
  end.

(** [sys.exit(main(sys.argv[1:]))]: what is printed and the exit status of
    the process.  [None] exits with 0, an integer with itself, and an
    exception that nobody catches with 1. *)
Definition run (files : str -> option (list str)) (args : list str)
    : stdout * Z :=
  let '(out, r) := main files args in
  (out, match r with
        | Return None => 0
        | Return (Some n) => n
        | Raise _ => 1
        end).

(** ** What a match consumes and captures *)

(** [matches n0 r s c s' c']: [r] can match at the front of [s], leaving
    [s'], and turn the captures [c] into [c']. *)
Inductive matches (n0 : nat) : regex -> str -> caps -> str -> caps -> Prop :=
| M_chr p a s c :
    p a = true -> matches n0 (Chr p) (a :: s) c s c
| M_lit l s c :
    matches n0 (Lit l) (l ++ s) c s c
| M_seq r1 r2 s c s1 c1 s2 c2 :
    matches n0 r1 s c s1 c1 -> matches n0 r2 s1 c1 s2 c2 ->
    matches n0 (Seq r1 r2) s c s2 c2
| M_alt_l r1 r2 s c s' c' :
    matches n0 r1 s c s' c' -> matches n0 (Alt r1 r2) s c s' c'
| M_alt_r r1 r2 s c s' c' :
    matches n0 r2 s c s' c' -> matches n0 (Alt r1 r2) s c s' c'
| M_star_0 r s c :
    matches n0 (Star r) s c s c
| M_star_S r s c s1 c1 s2 c2 :
    matches n0 r s c s1 c1 -> (length s1 < length s)%nat ->
    matches n0 (Star r) s1 c1 s2 c2 ->
    matches n0 (Star r) s c s2 c2
| M_group g r s c s1 c1 :
    matches n0 r s c s1 c1 ->
    matches n0 (Group g r) s c s1 (<[g := take (length s - length s1) s]> c1)
| M_bol s c :
    length s = n0 -> matches n0 Bol s c s c
| M_eol s c :
    s = [] \/ s = [newline] -> matches n0 Eol s c s c.

(** The characters [r] can consume. *)
Fixpoint charset (r : regex) (a : ascii) : Prop :=
  match r with
  | Chr p => p a = true
  | Lit l => a ∈ l
  | Seq r1 r2 | Alt r1 r2 => charset r1 a \/ charset r2 a
  | Star r1 | Group _ r1 => charset r1 a
  | Bol | Eol => False
  end.

(** Can [r] match without consuming anything? *)
Fixpoint nullable (r : regex) : bool :=
  match r with
  | Chr _ => false
  | Lit l => match l with [] => true | _ => false end
  | Seq r1 r2 => nullable r1 && nullable r2
  | Alt r1 r2 => nullable r1 || nullable r2
  | Star _ | Bol | Eol => true
  | Group _ r1 => nullable r1
  end.

(** The groups of [r], each with its body. *)
Fixpoint groups (r : regex) : list (string * regex) :=
  match r with
  | Chr _ | Lit _ | Bol | Eol => []
  | Seq r1 r2 | Alt r1 r2 => groups r1 ++ groups r2
  | Star r1 => groups r1
  | Group g r1 => (g, r1) :: groups r1
  end.

(** ** Tokens and reports *)

(** A numeral: one or more decimal digits. *)
Definition numeral (t : str) : Prop :=
  t <> [] /\ Forall (fun a => is_digit a = true) t.

Definition num_text (t : str) : Prop :=
  Forall (fun a => is_digit a = true \/ py_isspace a = true) t.

(** A text that [int] is not too long for. *)
Definition short (t : str) : Prop :=
  Z.of_nat (length t) <= int_max_str_digits.

(** [t] stands somewhere in [s]. *)
Definition within (t s : str) : Prop := exists pre post, s = pre ++ t ++ post.

(** A line none of whose runs of digits is too long for [int]. *)
Definition no_long_numeral (s : str) : Prop :=
  forall t, within t s -> Forall (fun a => is_digit a = true) t -> short t.

(** The three reports of Gate.from_line. *)
Definition malformed_report (lineno : Z) (line : str) : stdout :=
  [[OStr (chars "Error on line "); OInt lineno];
   [OStr (chars "Line: "); OStr line]].

Definition arity_report (lineno : Z) (line : str) (a : Z) : stdout :=
  malformed_report lineno line ++
  [[OStr (chars "Gate arity " ++ str_of_Z a ++ chars " not supported!")]].

Definition table_report (lineno : Z) (line : str) (a n : Z) : stdout :=
  malformed_report lineno line ++
  [[OStr (chars "Expected table of %d bits for arity %d, got table of %d bits instead!");
    OInt (Z.shiftl 1 a); OInt a; OInt n]].

Definition comment_of (m : caps) : option str :=
  match m !! "comment" with
  | Some ((_ :: _) as c) => Some (drop 2 (strip c))
  | other => other
  end.

Definition duplicate_report (lineno : Z) (line : str) (w : Z) : stdout :=
  malformed_report lineno line ++
  [[OStr (chars "Duplicate wire: "); OInt w]].

(** [line] parses as a gate line and defines wire [w]. *)
Definition defines (line : str) (w : Z) : Prop :=
  exists out g, Gate.from_line line 0 = (out, Return (Some g)) /\ wire g = w.

Definition blank (line : str) : Prop := strip line = [].

(** Does [r] use the anchor [^]? *)
Fixpoint uses_bol (r : regex) : bool :=
  match r with
  | Chr _ | Lit _ | Eol => false
  | Bol => true
  | Seq r1 r2 | Alt r1 r2 => uses_bol r1 || uses_bol r2
  | Star r1 | Group _ r1 => uses_bol r1
  end.

(** Two capture maps that agree on every group but [g]. *)
Definition agree_off (g : string) (c c' : caps) : Prop :=
  forall h, h <> g -> c !! h = c' !! h.

Definition agree_off_opt (g : string) (o o' : option caps) : Prop :=
  match o, o' with
  | Some c, Some c' => agree_off g c c'
  | None, None => True
  | _, _ => False
  end.

(** A variable line with the given tokens; [rest] is what follows the type
    token and its space. *)
Definition var_line (p d ty rest : str) : str :=
  p ++ chars " " ++ d ++ chars " " ++ ty ++ chars " " ++ rest.

Definition spaceless (t : str) : Prop := Forall (fun a => a <> " "%char) t.

(** ** Sample inputs *)

Definition quoted (nm : str) : str := dquote :: nm ++ [dquote].

(** The text of a wire list: each token followed by one space. *)
Definition spaced (toks : list str) : str :=
  concat ((fun t => t ++ chars " ") <$> toks).

(** What follows the type token and its space in a well-formed variable
    line: the quoted name, the open bracket, spaces, the wires, the close
    bracket, and anything after it. *)
Definition var_line_rest (nm sp : str) (toks : list str) (junk : str) : str :=
  quoted nm ++ chars " [" ++ sp ++ spaced toks ++ chars "]" ++ junk.

(** Alice <d> <ty> "x" [ 1 2 ] *)
Definition sample_var_line (d ty : string) : str :=
  var_line (chars "Alice") (chars d) (chars ty)
    (quoted (chars "x") ++ chars " [ 1 2 ]").

(** The three gate lines of the end-to-end scenario. *)
Definition scenario_lines : list str :=
  [chars "0 gate arity 0 table [ 0 ] inputs [ ]";
   chars "1 gate arity 0 table [ 1 ] inputs [ ]";
   chars "2 gate arity 1 table [ 1 0 ] inputs [ 1 ]"].

(** A run directory with a gate file [a.circuit] and a variable file
    [a.fmt]. *)
Definition sample_files (gates vars : list str) (path : str)
    : option (list str) :=
  if bool_decide (path = chars "a.circuit") then Some gates
  else if bool_decide (path = chars "a.fmt") then Some vars
  else None.

Definition sample_args : list str := [chars "a.circuit"; chars "a.fmt"].

(** ** The Passthru Resolver *)

(** Modelled from the spec: the error of the Passthru Resolver (section 4.5,
    failure modes).  The source has no resolver: main stops after
    parsing. *)
Inductive resolve_error : Type :=
| DanglingInputError (wire missing_input : Z).

(** Modelled from the spec: what a run of the Passthru Resolver comes to, a
    result, a failure, or no end when following the canonical map never
    reaches a wire outside it. *)
Inductive outcome (A : Type) : Type :=
| Done (a : A)
| Failed (e : resolve_error)
| Diverges.
Arguments Done {A} a.
Arguments Failed {A} e.
Arguments Diverges {A}.

(** Modelled from the spec: the output of the Passthru Resolver (section
    4.5), the canonical map and the pruned gate list, with the wires that
    have become primary outputs by step 2b. *)
Record resolved : Type := mkResolved {
  canonical : gmap Z Z;
  pruned : list GateStruct;
  promoted : gset Z
}.

(** Modelled from the spec: step 2a of the Passthru Resolver, replace a
    wire by its mapped value until the value is absent from the map.  A
    chain without a cycle has at most [size canonical] steps; [None] stands
    for a walk that does not end. *)
Fixpoint follow (fuel : nat) (canonical : gmap Z Z) (w : Z) : option Z :=
  match canonical !! w with
  | None => Some w
  | Some w' =>
      match fuel with
      | O => None
      | S fuel' => follow fuel' canonical w'
      end
  end.

(** Modelled from the spec: the canonical wire of [w] (step 2a of the
    Passthru Resolver). *)
Definition canonical_wire (canonical : gmap Z Z) (w : Z) : option Z :=
  follow (size canonical) canonical w.

(** Modelled from the spec: step 2a of the Passthru Resolver on every
    element of a gate's inputs. *)
Fixpoint canonical_wires (canonical : gmap Z Z) (l : list Z)
    : option (list Z) :=
  match l with
  | [] => Some []
  | w :: l' =>
      match canonical_wire canonical w, canonical_wires canonical l' with
      | Some w', Some l'' => Some (w' :: l'')
      | _, _ => None
      end
  end.

(** Modelled from the spec: the rewritten inputs of a gate (step 2a of the
    Passthru Resolver); a primary input has none. *)
Definition rewrite_inputs (canonical : gmap Z Z) (v : pyval) : option pyval :=
  match v with
  | PyInts l => PyInts <$> canonical_wires canonical l
  | other => Some other
  end.

(** Modelled from the spec: a gate with its inputs rewritten (step 2 of the
    Passthru Resolver). *)
Definition set_inputs (g : GateStruct) (ins : pyval) : GateStruct :=
  mkGate (is_input g) (is_output g) (wire g) (arity g) (table g) ins
    (comment g).

(** Modelled from the spec: step 2 of the Passthru Resolver on one gate [g]
    of the circuit.  2a rewrites the inputs.  2b: a passthru gate with a
    single input wire is kept when it is an output and the gate that defines
    its canonical input [src] is an output too; otherwise canonical[g.wire]
    = src is recorded, the gate is dropped, and [src] becomes a primary
    output when [g] was one.  A passthru gate whose input wire is not in the
    circuit is a DanglingInputError.  2c: every other gate is kept with its
    rewritten inputs. *)
Definition resolve_gate (circuit : list (Z * GateStruct)) (st : resolved)
    (g : GateStruct) : outcome resolved :=
  match rewrite_inputs (canonical st) (inputs g) with
  | None => Diverges
  | Some ins =>
      let keep :=
        Done (mkResolved (canonical st) (pruned st ++ [set_inputs g ins])
                (promoted st)) in
      if Gate.is_passthru g then
        match inputs g, ins with
        | PyInts [w], PyInts [src] =>
            match od_get w circuit with
            | None => Failed (DanglingInputError (wire g) w)
            | Some _ =>
                let src_is_output :=
                  match od_get src circuit with
                  | Some gs => is_output gs
                  | None => false
                  end in
                if is_output g && src_is_output then keep
                else Done (mkResolved (<[wire g := src]> (canonical st))
                             (pruned st)
                             (if is_output g then {[src]} ∪ promoted st
                              else promoted st))
            end
        | _, _ => keep
        end
      else keep
  end.

(** Modelled from the spec: the single pass of the Passthru Resolver over
    the gates in file order (section 4.5, step 2). *)
Fixpoint resolve_from (circuit : list (Z * GateStruct)) (st : resolved)
    (gates : list GateStruct) : outcome resolved :=
  match gates with
  | [] => Done st
  | g :: rest =>
      match resolve_gate circuit st g with
      | Done st' => resolve_from circuit st' rest
      | Failed e => Failed e
      | Diverges => Diverges
      end
  end.

(** Modelled from the spec: the Passthru Resolver (section 4.5), from the
    empty canonical map (step 1). *)
Definition resolve (circuit : list (Z * GateStruct)) : outcome resolved :=
  resolve_from circuit (mkResolved ∅ [] ∅) circuit.*2.

(** Modelled from the spec: a general gate is one that matches none of the
    classes of section 4.4 and is not a primary input. *)
Definition is_general (g : GateStruct) : bool :=
  negb (is_input g || Gate.is_constant g || Gate.is_passthru g || Gate.is_not g).

(** A circuit that parse_gates assembles from some file. *)
Definition assembled (circuit : list (Z * GateStruct)) : Prop :=
  exists lines out, parse_gates lines = (out, Return (OGates circuit)).

(** Every gate reads wires that earlier lines define: the order the spec
    takes for granted (section 4.5, section 5).  [seen] holds the wires of
    the lines read so far. *)
Fixpoint in_file_order_from (seen : list Z) (circuit : list (Z * GateStruct))
    : bool :=
  match circuit with
  | [] => true
  | (w, g) :: rest =>
      match inputs g with
      | PyInts l => forallb (fun i => bool_decide (i ∈ seen)) l
      | _ => true
      end && in_file_order_from (seen ++ [w]) rest
  end.

Definition in_file_order (circuit : list (Z * GateStruct)) : bool :=
  in_file_order_from [] circuit.

(** The same, gate by gate. *)
Definition reads_earlier_wires (circuit : list (Z * GateStruct)) : Prop :=
  forall pre w g post l i,
    circuit = pre ++ (w, g) :: post ->
    inputs g = PyInts l -> i ∈ l -> i ∈ pre.*1.

(** An AND gate that is an output, an output passthru of it, and a passthru
    of that one. *)
Definition output_chain_lines : list str :=
  [chars "1 input";
   chars "2 input";
   chars "3 output gate arity 2 table [ 0 0 0 1 ] inputs [ 1 2 ]";
   chars "4 output gate arity 1 table [ 0 1 ] inputs [ 3 ]";
   chars "5 gate arity 1 table [ 0 1 ] inputs [ 4 ]"].

(** The same chain with no output among the three gates. *)
Definition chain_lines : list str :=
  [chars "1 input";
   chars "2 input";
   chars "3 gate arity 2 table [ 0 0 0 1 ] inputs [ 1 2 ]";
   chars "4 gate arity 1 table [ 0 1 ] inputs [ 3 ]";
   chars "5 output gate arity 1 table [ 0 1 ] inputs [ 4 ]"].

(** The chain again, with A's line ahead of B's and C's. *)
Definition forward_chain_lines : list str :=
  [chars "1 input";
   chars "2 input";
   chars "5 gate arity 1 table [ 0 1 ] inputs [ 4 ]";
   chars "4 gate arity 1 table [ 0 1 ] inputs [ 3 ]";
   chars "3 gate arity 2 table [ 0 0 0 1 ] inputs [ 1 2 ]"].

(** What parse_gates returns when it returns a circuit. *)
Definition circuit_of (lines : list str) : list (Z * GateStruct) :=
  match parse_gates lines with
  | (_, Return (OGates w)) => w
  | _ => []
  end.

(** The Circuit invariant: no two gates share a wire, and each gate sits
    under its own wire. *)
Definition wf_circuit (circuit : list (Z * GateStruct)) : Prop :=
  NoDup circuit.*1 /\ forall w g, (w, g) ∈ circuit -> wire g = w.

(** What holds of the resolver's state once the gates of [pre], a prefix of
    the circuit, are done: a wire in the canonical map is the wire of a
    passthru gate of [pre], its value is a wire of [pre] outside the map,
    and no retained gate has its wire in the map. *)
Definition resolver_inv (circuit pre : list (Z * GateStruct))
    (st : resolved) : Prop :=
  (forall k v, canonical st !! k = Some v ->
     k ∈ pre.*1 /\ v ∈ pre.*1 /\ canonical st !! v = None /\
     exists g, od_get k circuit = Some g /\ Gate.is_passthru g = true) /\
  (forall g, g ∈ pruned st ->
     wire g ∈ pre.*1 /\ canonical st !! wire g = None).

(** ** What the readers build *)

(** The gates of the lines that are not blank, in file order, when each of
    them parses. *)
Fixpoint line_gates (lines : list str) : option (list GateStruct) :=
  match lines with
  | [] => Some []
  | l :: rest =>
      match strip l with
      | [] => line_gates rest
      | _ =>
          match Gate.from_line l 0 with
          | (_, Return (Some g)) => cons g <$> line_gates rest
          | _ => None
          end
      end
  end.

(** A gate under its wire, as parse_gates stores it. *)
Definition keyed (g : GateStruct) : Z * GateStruct := (wire g, g).

(** The variables of the lines of a file that are not blank, in file
    order; [None] when Variable.from_line raises on one of them. *)
Fixpoint line_vars (lines : list str) : option (list VariableStruct) :=
  match lines with
  | [] => Some []
  | l :: rest =>
      match strip l with
      | [] => line_vars rest
      | s =>
          match Var.from_line s 0 with
          | (_, Return v) => cons v <$> line_vars rest
          | _ => None
          end
      end
  end.

(** [variables[v.name] = v] for each variable of a list, in order. *)
Definition stored (vs : list VariableStruct)
    (variables : list (option str * VariableStruct))
    : list (option str * VariableStruct) :=
  foldl (fun d v => od_set (name v) v d) variables vs.

(** The last variable of a list that has a given name. *)
Definition last_named (k : option str) (vs : list VariableStruct)
    : option VariableStruct :=
  last (filter (fun v => name v = k) vs).

(** A list without its repetitions: each element stays where it stands
    first. *)
Fixpoint first_occurrences {K} `{EqDecision K} (l : list K) : list K :=
  match l with
  | [] => []
  | k :: l' => k :: filter (fun x => x <> k) (first_occurrences l')
  end.

(** The dictionary parse_variables returns, empty when it raises. *)
Definition variables_of (lines : list str)
    : list (option str * VariableStruct) :=
  match parse_variables lines with
  | (_, Return (OVars d)) => d
  | _ => []
  end.

(** A variable file that defines [a], then [b], then [a] again. *)
Definition redefining_lines : list str :=
  [var_line (chars "Alice") (chars "input") (chars "integer")
     (var_line_rest (chars "a") [] [chars "1"; chars "2"] []);
   var_line (chars "Bob") (chars "input") (chars "integer")
     (var_line_rest (chars "b") [] [chars "3"] []);
   [];
   var_line (chars "Bob") (chars "output") (chars "integer")
     (var_line_rest (chars "a") [] [chars "4"] [])].

(** ** Well-formed gate lines *)

(** What may follow a gate on its line: nothing, or white space, two
    slashes and a text. *)
Definition trailer (cm : option (str * str)) : str :=
  match cm with
  | None => []
  | Some (sp, text) => sp ++ chars "//" ++ text
  end.

Definition trailer_ok (cm : option (str * str)) : Prop :=
  match cm with
  | None => True
  | Some (sp, text) =>
      Forall (fun a => py_isspace a = true) sp /\
      Forall (fun a => a <> newline) text
  end.

(** The text of a trailer without the white space at its end. *)
Definition kept_comment (cm : option (str * str)) : option str :=
  (fun c => rstrip (snd c)) <$> cm.

Definition bit_token (t : str) : Prop := t = chars "0" \/ t = chars "1".

(** <w> input<trailer> *)
Definition input_line (w : str) (cm : option (str * str)) : str :=
  (w ++ chars " input") ++ trailer cm.

(** <w> <o>gate arity <a> table [ <bits> ] inputs [ <wires> ]<trailer>,
    where [o] is empty or the word output and a space. *)
Definition gate_line (w o a : str) (bts ins : list str)
    (cm : option (str * str)) : str :=
  (w ++ chars " " ++ o ++ chars "gate arity " ++ a ++ chars " table [ " ++
   spaced bts ++ chars "] inputs [ " ++ spaced ins ++ chars "]") ++ trailer cm.

(** One wire of a list and the white space after it. *)
Definition round (t : str) : Prop :=
  exists d a, t = d ++ [a] /\ numeral d /\ py_isspace a = true.

(** The two parts of RE_GATE_LINE that have a structure of their own. *)
Definition re_gate_body : regex :=
  Opt (Group "is_output" (lit "output ")) ~> lit "gate arity " ~>
  Group "arity" digits ~> lit " table [" ~> ws ~>
  Group "table" (Plus (Group "6" (Chr is_bit ~> Opt ws))) ~>
  lit "] inputs [" ~> ws ~>
  Plus (Group "inputs" (digits ~> ws)) ~> lit "]".

Definition re_comment : regex :=
  Opt (Group "comment" (Star ws ~> lit "//" ~> Star dot)).

(** [accepts n r t]: [r] can match the text [t] wherever it stands, and
    [accepts_end n r t] at the end of the subject. *)
Definition accepts (n : nat) (r : regex) (t : str) : Prop :=
  forall s c, exists c', matches n r (t ++ s) c s c'.

Definition accepts_end (n : nat) (r : regex) (t : str) : Prop :=
  forall c, exists c', matches n r t c [] c'.

(** * Properties *)

(** ** The matcher *)

Lemma code_inj a b : code a = code b -> a = b.
Proof.
  unfold code. intros H.
  rewrite <- (ascii_N_embedding a), <- (ascii_N_embedding b). by rewrite H.
Qed.

Lemma strip_prefix_Some l : forall s s', strip_prefix l s = Some s' -> s = l ++ s'.
Proof.
  induction l as [|a l IH]; intros s s' H; simpl in *.
  - congruence.
  - destruct s as [|b s]; [done|].
    destruct (N.eqb_spec (code a) (code b)) as [E|]; [|done].
    apply code_inj in E. subst b. f_equal. by apply IH.
Qed.

Lemma strip_prefix_app l s : strip_prefix l (l ++ s) = Some s.
Proof.
  induction l as [|a l IH]; simpl; [done|]. by rewrite N.eqb_refl.
Qed.

Lemma take_consumed (t s : str) :
  take (length (t ++ s) - length s) (t ++ s) = t.
Proof.
  rewrite length_app.
  replace (length t + length s - length s)%nat with (length t) by lia.
  by rewrite take_app_length.
Qed.

Section MatcherFacts.
Variable n0 : nat.

Lemma star_loop_sound r step k :
  (forall s c k' res, step s c k' = Some res ->
     exists s' c', matches n0 r s c s' c' /\ k' s' c' = Some res) ->
  forall fuel s c res, star_loop step k fuel s c = Some res ->
    exists s' c', matches n0 (Star r) s c s' c' /\ k s' c' = Some res.
Proof.
  intros Hstep fuel.
  induction fuel as [|fuel IH]; intros s c res H; simpl in H.
  - exists s, c. split; [constructor | done].
  - destruct (step s c _) as [res'|] eqn:E.
    + injection H as ->.
      apply Hstep in E as (s1 & c1 & Hm & Hk).
      destruct (Nat.ltb_spec (length s1) (length s)); [|done].
      apply IH in Hk as (s2 & c2 & Hm' & Hk').
      exists s2, c2. split; [|done]. by eapply M_star_S.
    + exists s, c. split; [constructor | done].
Qed.

(** Whatever the matcher returns went through the continuation after a
    match of [r]. *)
Lemma rmatch_sound r :
  forall s c k res, rmatch n0 r s c k = Some res ->
    exists s' c', matches n0 r s c s' c' /\ k s' c' = Some res.
Proof.
  induction r as [p|l|r1 IH1 r2 IH2|r1 IH1 r2 IH2|r1 IH1|g r1 IH1| |];
    intros s c k res H; simpl in H.
  - destruct s as [|a s]; [done|]. destruct (p a) eqn:E; [|done].
    exists s, c. split; [by constructor | done].
  - destruct (strip_prefix l s) as [s'|] eqn:E; [|done].
    apply strip_prefix_Some in E. subst s.
    exists s', c. split; [constructor | done].
  - apply IH1 in H as (s1 & c1 & Hm1 & H). apply IH2 in H as (s2 & c2 & Hm2 & H).
    exists s2, c2. split; [by econstructor | done].
  - destruct (rmatch n0 r1 s c k) as [res'|] eqn:E.
    + injection H as ->. apply IH1 in E as (s' & c' & Hm & Hk).
      exists s', c'. split; [by apply M_alt_l | done].
    + apply IH2 in H as (s' & c' & Hm & Hk).
      exists s', c'. split; [by apply M_alt_r | done].
  - eapply star_loop_sound; [|exact H]. exact IH1.
  - apply IH1 in H as (s1 & c1 & Hm & Hk).
    eexists _, _. split; [by constructor | exact Hk].
  - destruct (Nat.eqb_spec (length s) n0); [|done].
    exists s, c. split; [by constructor | done].
  - destruct s as [|a [|b s]]; [| |done].
    + exists [], c. split; [constructor; by left | done].
    + destruct (is_char newline a) eqn:E; [|done].
      unfold is_char in E. apply N.eqb_eq, code_inj in E. subst a.
      exists [newline], c. split; [constructor; by right | done].
Qed.

(** A match consumes a prefix of the subject, made of characters of [r]. *)
Lemma matches_split r s c s' c' :
  matches n0 r s c s' c' -> exists t, s = t ++ s' /\ Forall (charset r) t.
Proof.
  induction 1 as [p a s c Hp|l s c|r1 r2 s c s1 c1 s2 c2 _ IH1 _ IH2
    |r1 r2 s c s' c' _ IH|r1 r2 s c s' c' _ IH|r s c
    |r s c s1 c1 s2 c2 _ IH1 _ _ IH2|g r s c s1 c1 _ IH|s c|s c].
  - exists [a]. split; [done|]. by constructor.
  - exists l. split; [done|]. by apply Forall_forall.
  - destruct IH1 as (t1 & -> & F1), IH2 as (t2 & -> & F2).
    exists (t1 ++ t2). split; [by rewrite <- app_assoc|].
    apply Forall_app. split; (eapply Forall_impl; [eassumption|]); simpl; tauto.
  - destruct IH as (t & -> & F). exists t. split; [done|].
    eapply Forall_impl; [eassumption|]; simpl; tauto.
  - destruct IH as (t & -> & F). exists t. split; [done|].
    eapply Forall_impl; [eassumption|]; simpl; tauto.
  - by exists [].
  - destruct IH1 as (t1 & -> & F1), IH2 as (t2 & -> & F2).
    exists (t1 ++ t2). split; [by rewrite <- app_assoc|].
    apply Forall_app. split; done.
  - exact IH.
  - by exists [].
  - by exists [].
Qed.

Lemma matches_length r s c s' c' :
  matches n0 r s c s' c' -> (length s' <= length s)%nat.
Proof.
  intros (t & -> & _)%matches_split. rewrite length_app. lia.
Qed.

(** A match of a regex that is not nullable consumes something. *)
Lemma matches_progress r s c s' c' :
  matches n0 r s c s' c' -> nullable r = false -> (length s' < length s)%nat.
Proof.
  induction 1 as [p a s c Hp|l s c|r1 r2 s c s1 c1 s2 c2 H1 IH1 H2 IH2
    |r1 r2 s c s' c' _ IH|r1 r2 s c s' c' _ IH|r s c
    |r s c s1 c1 s2 c2 _ IH1 _ _ IH2|g r s c s1 c1 _ IH|s c|s c];
    simpl; intros N; try done.
  - lia.
  - destruct l; [done|]. rewrite length_app. simpl. lia.
  - apply matches_length in H1 as L1. apply matches_length in H2 as L2.
    apply andb_false_iff in N as [N|N]; [apply IH1 in N | apply IH2 in N]; lia.
  - apply orb_false_iff in N as [N _]. by apply IH.
  - apply orb_false_iff in N as [_ N]. by apply IH.
  - by apply IH.
Qed.

(** A group either keeps what it held, or holds text its body can match. *)
Lemma matches_caps r s c s' c' :
  matches n0 r s c s' c' ->
  forall g, c' !! g = c !! g \/
    exists t rg, c' !! g = Some t /\ (g, rg) ∈ groups r /\
      Forall (charset rg) t /\ (nullable rg = false -> t <> []).
Proof.
  induction 1 as [p a s c Hp|l s c|r1 r2 s c s1 c1 s2 c2 _ IH1 _ IH2
    |r1 r2 s c s' c' _ IH|r1 r2 s c s' c' _ IH|r s c
    |r s c s1 c1 s2 c2 _ IH1 _ _ IH2|g0 r s c s1 c1 Hm IH|s c|s c];
    intros g; try (by left).
  - destruct (IH2 g) as [E2|(t & rg & E & I & F)].
    + destruct (IH1 g) as [E1|(t & rg & E & I & F)].
      * left. congruence.
      * right. exists t, rg. rewrite E2. split; [done|]. split; [|done].
        simpl. apply elem_of_app. by left.
    + right. exists t, rg. split; [done|]. split; [|done].
      simpl. apply elem_of_app. by right.
  - destruct (IH g) as [E|(t & rg & E & I & F)]; [by left|].
    right. exists t, rg. split; [done|]. split; [|done].
    simpl. apply elem_of_app. by left.
  - destruct (IH g) as [E|(t & rg & E & I & F)]; [by left|].
    right. exists t, rg. split; [done|]. split; [|done].
    simpl. apply elem_of_app. by right.
  - destruct (IH2 g) as [E2|(t & rg & E & I & F)].
    + destruct (IH1 g) as [E1|(t & rg & E & I & F)].
      * left. congruence.
      * right. exists t, rg. by rewrite E2.
    + right. by exists t, rg.
  - destruct (decide (g0 = g)) as [->|Hne].
    + right. rewrite lookup_insert_eq.
      pose proof Hm as (t & -> & F)%matches_split.
      exists t, r. split.
      { f_equal. rewrite length_app.
        replace (length t + length s1 - length s1)%nat with (length t) by lia.
        by rewrite take_app_length. }
      split; [simpl; by left|]. split; [done|].
      intros N. apply (matches_progress _ _ _ _ _ Hm) in N.
      rewrite length_app in N. destruct t; simpl in N; [lia | done].
    + rewrite lookup_insert_ne by done.
      destruct (IH g) as [E|(t & rg & E & I & F)]; [by left|].
      right. exists t, rg. split; [done|]. split; [|done]. simpl. by right.
Qed.

(** Groups that do not occur in [r] are left alone. *)
Lemma matches_frame r s c s' c' g :
  matches n0 r s c s' c' -> g ∉ (groups r).*1 -> c' !! g = c !! g.
Proof.
  intros H N. destruct (matches_caps _ _ _ _ _ H g) as [E|(t & rg & _ & I & _)];
    [done|].
  exfalso. apply N. apply list_elem_of_fmap. by exists (g, rg).
Qed.

(** What a group holds after a match was there before, or stands in the
    subject. *)
Lemma matches_caps_within r s c s' c' :
  matches n0 r s c s' c' ->
  forall g t, c' !! g = Some t -> c !! g = Some t \/ within t s.
Proof.
  induction 1 as [p a s c Hp|l s c|r1 r2 s c s1 c1 s2 c2 H1 IH1 H2 IH2
    |r1 r2 s c s' c' _ IH|r1 r2 s c s' c' _ IH|r s c
    |r s c s1 c1 s2 c2 H1 IH1 _ H2 IH2|g0 r s c s1 c1 Hm IH|s c|s c];
    intros g t E; try (by left); try (by apply IH).
  - destruct (IH2 g t E) as [E1|(pre & post & ->)]; [by apply IH1|].
    right. apply matches_split in H1 as (t1 & -> & _).
    exists (t1 ++ pre), post. by rewrite <- app_assoc.
  - destruct (IH2 g t E) as [E1|(pre & post & ->)]; [by apply IH1|].
    right. apply matches_split in H1 as (t1 & -> & _).
    exists (t1 ++ pre), post. by rewrite <- app_assoc.
  - destruct (decide (g0 = g)) as [->|Hne].
    + rewrite lookup_insert_eq in E. injection E as <-.
      right. apply matches_split in Hm as (t1 & -> & _).
      exists [], s1. by rewrite take_consumed.
    + rewrite lookup_insert_ne in E by done. by apply IH.
Qed.

(** Where a match exists after which the continuation succeeds, the
    matcher succeeds too (on that match or on one it tries before). *)
Lemma rmatch_complete_aux r s c s' c' :
  matches n0 r s c s' c' ->
  (forall k, is_Some (k s' c') -> is_Some (rmatch n0 r s c k)) /\
  (forall r1, r = Star r1 -> forall k fuel, (length s <= fuel)%nat ->
     is_Some (k s' c') -> is_Some (star_loop (rmatch n0 r1) k fuel s c)).
Proof.
  induction 1 as [p a s c Hp|l s c|r1 r2 s c s1 c1 s2 c2 _ [IH1 _] _ [IH2 _]
    |r1 r2 s c s' c' _ [IH _]|r1 r2 s c s' c' _ [IH _]|r s c
    |r s c s1 c1 s2 c2 _ [IH1 _] Hlt _ [_ IH2]|g r s c s1 c1 _ [IH _]|s c Hs|s c Hs].
  - split; [|done]. intros k Hk. simpl. by rewrite Hp.
  - split; [|done]. intros k Hk. simpl. by rewrite strip_prefix_app.
  - split; [|done]. intros k Hk. simpl. by apply IH1, IH2.
  - split; [|done]. intros k Hk. simpl.
    destruct (IH k Hk) as [res ->]. by eexists.
  - split; [|done]. intros k Hk. simpl.
    destruct (rmatch n0 r1 s c k); [by eexists | by apply IH].
  - assert (forall k fuel, is_Some (k s c) ->
              is_Some (star_loop (rmatch n0 r) k fuel s c)) as Hstar.
    { intros k fuel Hk. destruct fuel as [|fuel]; simpl; [done|].
      by destruct (rmatch n0 r s c _); [eexists|]. }
    split; [intros k Hk; by apply Hstar|].
    intros r1 [= <-] k fuel _ Hk. by apply Hstar.
  - assert (forall k fuel, (length s <= fuel)%nat -> is_Some (k s2 c2) ->
              is_Some (star_loop (rmatch n0 r) k fuel s c)) as Hstar.
    { intros k fuel Hf Hk. destruct fuel as [|fuel]; [lia|]. simpl.
      match goal with
      | |- is_Some (match rmatch n0 r s c ?k1 with _ => _ end) =>
          destruct (IH1 k1) as [res ->]; [|by eexists]
      end.
      destruct (Nat.ltb_spec (length s1) (length s)); [|lia].
      apply (IH2 r eq_refl); [lia | done]. }
    split; [intros k Hk; by apply Hstar|].
    intros r1 [= <-] k fuel Hf Hk. by apply Hstar.
  - split; [|done]. intros k Hk. simpl. by apply IH.
  - split; [|done]. intros k Hk. simpl. by rewrite Hs, Nat.eqb_refl.
  - split; [|done]. intros k Hk. simpl.
    by destruct Hs as [-> | ->].
Qed.

Lemma rmatch_complete r s c s' c' k :
  matches n0 r s c s' c' -> is_Some (k s' c') -> is_Some (rmatch n0 r s c k).
Proof. intros H. by apply (rmatch_complete_aux _ _ _ _ _ H). Qed.

End MatcherFacts.

(** ** Tokens *)

Lemma digit_not_space a : is_digit a = true -> py_isspace a = false.
Proof.
  unfold is_digit, py_isspace. generalize (code a). intros n H.
  apply andb_true_iff in H as [H1 H2].
  apply N.leb_le in H1. apply N.leb_le in H2.
  repeat match goal with
  | |- context [(?x <=? ?y)%N] => destruct (N.leb_spec x y); try lia
  | |- context [(?x =? ?y)%N] => destruct (N.eqb_spec x y); try lia
  end; done.
Qed.

Lemma bit_digit a : is_bit a = true -> is_digit a = true.
Proof.
  unfold is_bit, is_digit. generalize (code a). intros n H.
  apply orb_true_iff in H as [H|H]; apply N.eqb_eq in H; by subst.
Qed.

Lemma forallb_digits t :
  Forall (fun a => is_digit a = true) t -> forallb is_digit t = true.
Proof. induction 1 as [|a t Ha _ IH]; simpl; [done|]. by rewrite Ha, IH. Qed.

Lemma py_int_numeral t : numeral t -> short t -> exists n, py_int t = Some n.
Proof.
  intros [N F] S. unfold py_int. destruct t as [|a t]; [done|].
  rewrite (forallb_digits _ F).
  rewrite (proj2 (Z.leb_le _ _) S). by eexists.
Qed.

Lemma py_int_short t n : py_int t = Some n -> short t.
Proof.
  unfold py_int, short. destruct t as [|a t]; [done|].
  destruct (forallb is_digit (a :: t)); [|done].
  destruct (Z.of_nat (length (a :: t)) <=? int_max_str_digits) eqn:E; [|done].
  intros _. by apply Z.leb_le.
Qed.

Lemma py_int_long t : ~ short t -> py_int t = None.
Proof.
  intros S. destruct (py_int t) as [n|] eqn:E; [|done].
  by apply py_int_short in E.
Qed.

(** On numerals [int] raises for the long ones only. *)
Lemma py_int_numeral_None t : numeral t -> py_int t = None -> ~ short t.
Proof. intros N E S. destruct (py_int_numeral t N S) as [n E']. congruence. Qed.

Lemma split_aux_numerals s : forall cur,
  Forall (fun a => is_digit a = true) cur -> num_text s ->
  Forall numeral (split_aux cur s).
Proof.
  induction s as [|a s IH]; intros cur Fc Fs; simpl.
  - destruct cur as [|b cur]; [constructor|].
    constructor; [|constructor]. split.
    + intros E. apply (f_equal length) in E. rewrite length_rev in E. done.
    + by apply Forall_rev.
  - inversion Fs as [|? ? Ha Fs']; subst.
    destruct (py_isspace a) eqn:E.
    + destruct cur as [|b cur]; [by apply IH|].
      constructor; [|by apply IH]. split.
      * intros E'. apply (f_equal length) in E'. rewrite length_rev in E'. done.
      * by apply Forall_rev.
    + destruct Ha as [Ha|Ha]; [|congruence].
      apply IH; [by constructor | done].
Qed.

Lemma split_numerals s : num_text s -> Forall numeral (split s).
Proof. intros F. by apply split_aux_numerals. Qed.

Lemma ints_numerals l :
  Forall numeral l -> Forall short l ->
  exists zs, ints l = Some zs /\ length zs = length l.
Proof.
  induction 1 as [|t l Ht _ IH]; intros S; simpl.
  - by exists [].
  - apply Forall_cons in S as [St S]. destruct (IH S) as (zs & E & L).
    apply py_int_numeral in Ht as [n ->]; [|done]. rewrite E.
    exists (n :: zs). split; [done|]. simpl. by rewrite L.
Qed.

Lemma ints_short l zs : ints l = Some zs -> Forall short l.
Proof.
  revert zs. induction l as [|t l IH]; intros zs H; simpl in H; [constructor|].
  destruct (py_int t) as [n|] eqn:E; [|done].
  destruct (ints l) as [zs'|]; [|done].
  constructor; [by eapply py_int_short | by eapply IH].
Qed.

Lemma ints_numerals_None l :
  Forall numeral l -> ints l = None -> Exists (fun t => ~ short t) l.
Proof.
  intros N E. apply not_Forall_Exists; [intros t; apply _|].
  intros S. destruct (ints_numerals l N S) as (zs & E' & _). congruence.
Qed.

(** ** Runs of digits *)

Lemma within_refl s : within s s.
Proof. exists [], []. by rewrite app_nil_r. Qed.

Lemma within_trans t u s : within t u -> within u s -> within t s.
Proof.
  intros (p1 & q1 & ->) (p2 & q2 & ->).
  exists (p2 ++ p1), (q1 ++ q2). by rewrite <- !app_assoc.
Qed.


Lemma within_app_l t u s : within t u -> within t (u ++ s).
Proof.
  intros H. apply (within_trans _ u); [done|]. exists [], s. done.
Qed.

Lemma within_app_r t u s : within t u -> within t (s ++ u).
Proof.
  intros H. apply (within_trans _ u); [done|]. exists s, []. by rewrite app_nil_r.
Qed.


Lemma no_long_numeral_within t s :
  within t s -> no_long_numeral s -> no_long_numeral t.
Proof. intros W N u Wu. apply N. by eapply within_trans. Qed.

Lemma numeral_short t s :
  numeral t -> within t s -> no_long_numeral s -> short t.
Proof. intros [_ F] W N. by apply N. Qed.

Lemma lstrip_within s : within (lstrip s) s.
Proof.
  induction s as [|a s IH]; simpl; [apply within_refl|].
  destruct (py_isspace a); [|apply within_refl].
  by apply (within_app_r _ _ [a]).
Qed.

Lemma rstrip_within s : within (rstrip s) s.
Proof.
  unfold rstrip. destruct (lstrip_within (rev s)) as (p & q & E).
  exists (rev q), (rev p).
  apply (f_equal (@rev ascii)) in E.
  rewrite rev_involutive, !rev_app_distr, <- app_assoc in E. exact E.
Qed.

Lemma strip_within s : within (strip s) s.
Proof.
  unfold strip. eapply within_trans; [apply rstrip_within | apply lstrip_within].
Qed.

Lemma split_aux_within s : forall cur pre,
  Forall (fun t => within t (pre ++ rev cur ++ s)) (split_aux cur s).
Proof.
  induction s as [|a s IH]; intros cur pre; simpl.
  - destruct cur as [|b cur]; [constructor|].
    constructor; [|constructor]. by exists pre, [].
  - destruct (py_isspace a).
    + destruct cur as [|b cur].
      * eapply Forall_impl; [apply (IH [] (pre ++ [a]))|].
        intros t. simpl. by rewrite <- app_assoc.
      * constructor; [by exists pre, (a :: s)|].
        eapply Forall_impl; [apply (IH [] (pre ++ rev (b :: cur) ++ [a]))|].
        intros t. simpl. by rewrite <- !app_assoc.
    + eapply Forall_impl; [apply (IH (a :: cur) pre)|].
      intros t. simpl. by rewrite <- app_assoc.
Qed.

Lemma split_within s : Forall (fun t => within t s) (split s).
Proof. apply (split_aux_within s [] []). Qed.

(** In a text of numerals without a long run of digits, [int] converts
    each token. *)
Lemma ints_split s u :
  num_text s -> within s u -> no_long_numeral u ->
  exists zs, ints (split s) = Some zs.
Proof.
  intros T W N.
  destruct (ints_numerals (split s)) as (zs & E & _); [by apply split_numerals| |by eexists].
  pose proof (split_numerals s T) as Fn. pose proof (split_within s) as Fw.
  apply Forall_forall. intros t Ht.
  apply (numeral_short t u); [|eapply within_trans; [|exact W]|done].
  - by apply (proj1 (Forall_forall _ _) Fn).
  - by apply (proj1 (Forall_forall _ _) Fw).
Qed.

Lemma ints_length l zs : ints l = Some zs -> length zs = length l.
Proof.
  revert zs. induction l as [|t l IH]; intros zs H; simpl in H.
  - by injection H as <-.
  - destruct (py_int t); [|done]. destruct (ints l) as [zs'|]; [|done].
    injection H as <-. simpl. f_equal. by apply IH.
Qed.

(** ** The shape of a matched gate line *)

Lemma re_match_matches r s m :
  re_match r s = Some m -> exists s', matches (length s) r s ∅ s' m.
Proof.
  unfold re_match. intros (s' & c' & H & E)%rmatch_sound.
  injection E as ->. by exists s'.
Qed.

(** [r.match(s)] finds a match exactly when there is one. *)
Lemma re_match_is_Some r s :
  is_Some (re_match r s) <-> exists s' m, matches (length s) r s ∅ s' m.
Proof.
  split.
  - intros [m (s' & H)%re_match_matches]. by exists s', m.
  - intros (s' & m & H). unfold re_match.
    eapply rmatch_complete; [exact H | by eexists].
Qed.

Lemma matches_mono n0 r s c s' c' g :
  matches n0 r s c s' c' -> is_Some (c !! g) -> is_Some (c' !! g).
Proof.
  intros H S. destruct (matches_caps _ _ _ _ _ _ H g) as [E|(t & rg & E & _)];
    rewrite E; [done | by eexists].
Qed.

Ltac invc H := inversion H; subst; clear H.

(** Take a match apart along sequences, groups, literals and anchors. *)
Ltac inv_matches :=
  repeat match goal with
  | H : matches _ (Seq _ _) _ _ _ _ |- _ => invc H
  | H : matches _ (Group _ _) _ _ _ _ |- _ => invc H
  | H : matches _ (Lit _) _ _ _ _ |- _ => invc H
  | H : matches _ Bol _ _ _ _ |- _ => invc H
  | H : matches _ Eol _ _ _ _ |- _ => invc H
  end.

Ltac inv_alts :=
  repeat match goal with
  | H : matches _ (Alt _ _) _ _ _ _ |- _ => invc H; inv_matches
  end.

Ltac not_a_group := apply (bool_decide_unpack _); vm_compute; exact I.

(** Read a group off the captures by walking back through the match. *)
Ltac look :=
  repeat first
    [ rewrite lookup_insert_eq
    | rewrite lookup_insert_ne by done
    | rewrite lookup_empty
    | match goal with
      | H : matches _ ?r _ ?c _ ?c' |- context [ ?c' !! ?g ] =>
          rewrite (matches_frame _ _ _ _ _ _ g H) by not_a_group
      end ].

(** Find the body of a named group in a concrete grammar. *)
Ltac pick_group I :=
  repeat (apply elem_of_cons in I as [I|I]; [simplify_eq|]);
  try (by apply elem_of_nil in I).

Lemma plus_group_set n0 g r s c s' c' :
  matches n0 (Plus (Group g r)) s c s' c' -> is_Some (c' !! g).
Proof.
  unfold Plus. intros H. inv_matches.
  eapply matches_mono; [eassumption|]. rewrite lookup_insert_eq. by eexists.
Qed.

Lemma gate_wire_numeral n0 s s' m :
  matches n0 RE_GATE_LINE s ∅ s' m -> forall w, m !! "wire" = Some w ->
  numeral w.
Proof.
  intros H w E.
  destruct (matches_caps _ _ _ _ _ _ H "wire") as [E'|(t & rg & E' & I & F & N)];
    rewrite E in E'; [by rewrite lookup_empty in E'|].
  injection E' as <-.
  unfold RE_GATE_LINE, lit, Opt, Plus, digits, ws, dot in I. simpl in I.
  pick_group I. split; [by apply N|].
  eapply Forall_impl; [exact F|]. simpl. tauto.
Qed.

Lemma gate_arity_numeral n0 s s' m :
  matches n0 RE_GATE_LINE s ∅ s' m -> forall w, m !! "arity" = Some w ->
  numeral w.
Proof.
  intros H w E.
  destruct (matches_caps _ _ _ _ _ _ H "arity") as [E'|(t & rg & E' & I & F & N)];
    rewrite E in E'; [by rewrite lookup_empty in E'|].
  injection E' as <-.
  unfold RE_GATE_LINE, lit, Opt, Plus, digits, ws, dot in I. simpl in I.
  pick_group I. split; [by apply N|].
  eapply Forall_impl; [exact F|]. simpl. tauto.
Qed.

Lemma gate_table_text n0 s s' m :
  matches n0 RE_GATE_LINE s ∅ s' m -> forall w, m !! "table" = Some w ->
  w <> [] /\ num_text w.
Proof.
  intros H w E.
  destruct (matches_caps _ _ _ _ _ _ H "table") as [E'|(t & rg & E' & I & F & N)];
    rewrite E in E'; [by rewrite lookup_empty in E'|].
  injection E' as <-.
  unfold RE_GATE_LINE, lit, Opt, Plus, digits, ws, dot in I. simpl in I.
  pick_group I. split; [by apply N|].
  eapply Forall_impl; [exact F|]. simpl. intros a.
  rewrite !elem_of_nil. intuition auto using bit_digit.
Qed.

Lemma gate_inputs_text n0 s s' m :
  matches n0 RE_GATE_LINE s ∅ s' m -> forall w, m !! "inputs" = Some w ->
  w <> [] /\ num_text w.
Proof.
  intros H w E.
  destruct (matches_caps _ _ _ _ _ _ H "inputs") as [E'|(t & rg & E' & I & F & N)];
    rewrite E in E'; [by rewrite lookup_empty in E'|].
  injection E' as <-.
  unfold RE_GATE_LINE, lit, Opt, Plus, digits, ws, dot in I. simpl in I.
  pick_group I.
  - split; [by apply N|]. eapply Forall_impl; [exact F|]. simpl. tauto.
  - split; [by apply N|]. eapply Forall_impl; [exact F|]. simpl. tauto.
Qed.

Lemma gate_match_shape s m :
  re_match RE_GATE_LINE s = Some m ->
  (exists w, m !! "wire" = Some w /\ numeral w) /\
  ((m !! "is_input" = None /\
    (exists a, m !! "arity" = Some a /\ numeral a) /\
    (exists t, m !! "table" = Some t /\ t <> [] /\ num_text t) /\
    (exists i, m !! "inputs" = Some i /\ i <> [] /\ num_text i))
   \/
   (m !! "is_input" = Some (chars "input") /\ m !! "arity" = None /\
    m !! "table" = None /\ m !! "inputs" = None /\ m !! "is_output" = None)).
Proof.
  intros [s' Hm]%re_match_matches.
  pose proof (gate_wire_numeral _ _ _ _ Hm) as Cw.
  pose proof (gate_arity_numeral _ _ _ _ Hm) as Ca.
  pose proof (gate_table_text _ _ _ _ Hm) as Ct.
  pose proof (gate_inputs_text _ _ _ _ Hm) as Ci.
  unfold RE_GATE_LINE, lit, Opt in Hm. inv_matches. inv_alts.
  all: split; [eexists; split; [|eapply Cw]; look; reflexivity|].
  all: first
    [ left; split; [by look|];
      split; [eexists; split; [|eapply Ca]; look; reflexivity|];
      split; [eexists; split; [|eapply Ct]; look; reflexivity|];
      match goal with
      | |- exists i, ?m !! "inputs" = Some i /\ _ =>
          assert (is_Some (m !! "inputs")) as [i Ei];
          [look; eapply plus_group_set; eassumption
          |exists i; split; [done | by apply Ci]]
      end
    | right; repeat split; look; try done;
      change (chars "input") with ["i"; "n"; "p"; "u"; "t"]%char;
      by rewrite take_consumed ].
Qed.

(** ** What Gate.from_line returns *)

Lemma from_line_nomatch line lineno :
  re_match RE_GATE_LINE (strip line) = None ->
  Gate.from_line line lineno = (malformed_report lineno (strip line), Return None).
Proof. intros E. unfold Gate.from_line. by rewrite E. Qed.

Lemma from_line_input line lineno m :
  re_match RE_GATE_LINE (strip line) = Some m ->
  m !! "is_input" = Some (chars "input") ->
  exists wt,
    m !! "wire" = Some wt /\ numeral wt /\
    Gate.from_line line lineno =
      match py_int wt with
      | Some w =>
          ([], Return (Some (mkGate true false w None PyNone PyNone
                               (comment_of m))))
      | None => ([], Raise ValueError)
      end.
Proof.
  intros E Ei.
  destruct (gate_match_shape _ _ E) as [(w & Ew & Nw) [(Ei' & _)|(_ & Ea & Et & Ein & Eo)]];
    [congruence|].
  exists w. split; [done|]. split; [done|].
  unfold Gate.from_line. rewrite E. unfold comment_of.
  rewrite Ew, Ei, Ea, Et, Ein, Eo. simpl.
  destruct (py_int w); reflexivity.
Qed.

Lemma from_line_gate line lineno m a :
  re_match RE_GATE_LINE (strip line) = Some m ->
  m !! "arity" = Some a ->
  exists wt t i,
    m !! "wire" = Some wt /\ numeral wt /\ numeral a /\
    m !! "table" = Some t /\ num_text t /\
    m !! "inputs" = Some i /\ num_text i /\
    Gate.from_line line lineno =
      match py_int wt with
      | None => ([], Raise ValueError)
      | Some w =>
      match py_int a with
      | None => ([], Raise ValueError)
      | Some k =>
          if (k <? 0) || (k >? 3)
          then (arity_report lineno (strip line) k, Return None)
          else
          match ints (split t) with
          | None => ([], Raise ValueError)
          | Some tl =>
          match ints (split i) with
          | None => ([], Raise ValueError)
          | Some il =>
              if negb (Z.of_nat (length tl) =? Z.shiftl 1 k)
              then (table_report lineno (strip line) k (Z.of_nat (length tl)),
                    Return None)
              else ([], Return (Some (mkGate false
                                        (group_eq (m !! "is_output") "output ")
                                        w (Some k) (PyInts tl) (PyInts il)
                                        (comment_of m))))
          end
          end
      end
      end.
Proof.
  intros E Ea.
  destruct (gate_match_shape _ _ E)
    as [(w & Ew & Nw) [(Ei & (a' & Ea' & Na) & (t & Et & Nt & Tt) & (i & Ein & Ni & Ti))
                      |(_ & Ea' & _)]];
    [|congruence].
  assert (a' = a) as -> by congruence.
  exists w, t, i. repeat (split; [done|]).
  unfold Gate.from_line. rewrite E. unfold comment_of, group_eq.
  rewrite Ew, Ei, Ea, Et, Ein. simpl.
  destruct (py_int w) as [n|]; [|reflexivity]. simpl.
  destruct (py_int a) as [k|]; [|reflexivity]. simpl.
  destruct ((k <? 0) || (k >? 3)); [reflexivity|].
  destruct t as [|x t]; [done|]. destruct i as [|y i]; [done|].
  destruct (ints (split (x :: t))) as [tl|]; [|reflexivity]. simpl.
  destruct (ints (split (y :: i))) as [il|]; [|reflexivity]. simpl.
  destruct (Z.of_nat (length tl) =? Z.shiftl 1 k); reflexivity.
Qed.

(** Gate.from_line raises nothing but a ValueError, and prints nothing
    before it. *)
Lemma from_line_raise line lineno out e :
  Gate.from_line line lineno = (out, Raise e) -> out = [] /\ e = ValueError.
Proof.
  intros H.
  destruct (re_match RE_GATE_LINE (strip line)) as [m|] eqn:E;
    [|by rewrite from_line_nomatch in H].
  destruct (m !! "arity") as [a|] eqn:Ea.
  - destruct (from_line_gate line lineno m a E Ea)
      as (wt & t & i & _ & _ & _ & _ & _ & _ & _ & R).
    rewrite R in H. repeat case_match; by simplify_eq.
  - destruct (gate_match_shape _ _ E) as [_ [(_ & (a & Ea' & _) & _)|(Ei & _)]];
      [congruence|].
    destruct (from_line_input line lineno m E Ei) as (wt & _ & _ & R).
    rewrite R in H. repeat case_match; by simplify_eq.
Qed.

(** A gate that is returned was returned silently, and does not depend on
    the line number. *)
Lemma from_line_Some line lineno out g :
  Gate.from_line line lineno = (out, Return (Some g)) ->
  forall lineno', Gate.from_line line lineno' = ([], Return (Some g)).
Proof.
  intros H lineno'.
  destruct (re_match RE_GATE_LINE (strip line)) as [m|] eqn:E.
  - destruct (m !! "arity") as [a|] eqn:Ea.
    + destruct (from_line_gate line lineno m a E Ea)
        as (wt & t & i & Ew & _ & _ & Et & _ & Ei & _ & R).
      destruct (from_line_gate line lineno' m a E Ea)
        as (wt' & t' & i' & Ew' & _ & _ & Et' & _ & Ei' & _ & R').
      rewrite R in H. rewrite R'. simplify_eq.
      repeat case_match; by simplify_eq.
    + destruct (gate_match_shape _ _ E) as [_ [(_ & (a & Ea' & _) & _)|(Ei & _)]];
        [congruence|].
      destruct (from_line_input line lineno m E Ei) as (wt & Ew & _ & R).
      destruct (from_line_input line lineno' m E Ei) as (wt' & Ew' & _ & R').
      rewrite R in H. rewrite R'. simplify_eq.
      repeat case_match; by simplify_eq.
  - rewrite from_line_nomatch in H by done. done.
Qed.

(** What a group holds stands in the subject. *)
Lemma re_match_within r s m g t :
  re_match r s = Some m -> m !! g = Some t -> within t s.
Proof.
  intros [s' Hm]%re_match_matches E.
  destruct (matches_caps_within _ _ _ _ _ _ Hm g t E) as [E'|W]; [|done].
  by rewrite lookup_empty in E'.
Qed.

(** On a line without a long run of digits Gate.from_line raises
    nothing. *)
Lemma from_line_no_raise line lineno :
  no_long_numeral (strip line) ->
  exists out o, Gate.from_line line lineno = (out, Return o).
Proof.
  intros N.
  destruct (re_match RE_GATE_LINE (strip line)) as [m|] eqn:E;
    [|rewrite from_line_nomatch by done; by eexists _, _].
  destruct (m !! "arity") as [a|] eqn:Ea.
  - destruct (from_line_gate line lineno m a E Ea)
      as (wt & t & i & Ew & Nw & Na & Et & Tt & Ei & Ti & ->).
    destruct (py_int_numeral wt Nw) as [w ->].
    { eapply numeral_short; [done | by eapply re_match_within | done]. }
    destruct (py_int_numeral a Na) as [k ->].
    { eapply numeral_short; [done | by eapply re_match_within | done]. }
    destruct ((k <? 0) || (k >? 3)); [by eexists _, _|].
    destruct (ints_split t (strip line) Tt) as [tl ->];
      [by eapply re_match_within | done|].
    destruct (ints_split i (strip line) Ti) as [il ->];
      [by eapply re_match_within | done|].
    destruct (negb _); by eexists _, _.
  - destruct (gate_match_shape _ _ E) as [_ [(_ & (a & Ea' & _) & _)|(Ei & _)]];
      [congruence|].
    destruct (from_line_input line lineno m E Ei) as (wt & Ew & Nw & ->).
    destruct (py_int_numeral wt Nw) as [w ->]; [|by eexists _, _].
    eapply numeral_short; [done | by eapply re_match_within | done].
Qed.

Lemma no_long_numeral_strip line :
  no_long_numeral line -> no_long_numeral (strip line).
Proof. apply no_long_numeral_within, strip_within. Qed.

(** * Gates *)

(** ** Classification *)

(** C9: is_passthru holds exactly for arity 1 with table [0, 1], is_not
    exactly for arity 1 with table [1, 0], and no gate satisfies two of
    is_constant, is_passthru and is_not. *)
Theorem classifiers_exclusive (g : GateStruct) :
  (Gate.is_passthru g = true <-> arity g = Some 1 /\ table g = PyInts [0; 1]) /\
  (Gate.is_not g = true <-> arity g = Some 1 /\ table g = PyInts [1; 0]) /\
  Gate.is_passthru g && Gate.is_not g = false /\
  Gate.is_constant g && Gate.is_passthru g = false /\
  Gate.is_constant g && Gate.is_not g = false.
Proof.
  unfold Gate.is_passthru, Gate.is_not, Gate.is_constant, pyval_eq_list.
  destruct (arity g) as [a|]; [|intuition congruence].
  destruct (Z.eqb_spec a 1) as [->|?], (table g) as [|t|t]; simpl;
    repeat case_bool_decide; try destruct (Z.eqb_spec a 0);
    intuition congruence.
Qed.

(** C10: a gate parsed from a primary-input line has no arity, table or
    inputs, and each classifier answers false on it. *)
Theorem input_gate_unclassified (line : str) (lineno : Z) (out : stdout)
    (g : GateStruct) :
  Gate.from_line line lineno = (out, Return (Some g)) ->
  is_input g = true ->
  arity g = None /\ table g = PyNone /\ inputs g = PyNone /\
  Gate.is_constant g = false /\ Gate.is_passthru g = false /\
  Gate.is_not g = false.
Proof.
  intros H Hi.
  destruct (re_match RE_GATE_LINE (strip line)) as [m|] eqn:E;
    [|by rewrite from_line_nomatch in H].
  destruct (m !! "arity") as [a|] eqn:Ea.
  - destruct (from_line_gate line lineno m a E Ea)
      as (wt & t & i & _ & _ & _ & _ & _ & _ & _ & R).
    rewrite R in H. repeat case_match; by simplify_eq.
  - destruct (gate_match_shape _ _ E) as [_ [(_ & (a & Ea' & _) & _)|(Ei & _)]];
      [congruence|].
    destruct (from_line_input line lineno m E Ei) as (wt & _ & _ & R).
    rewrite R in H. repeat case_match; by simplify_eq.
Qed.

Lemma input_gate_unclassified_witness :
  Gate.from_line (chars "7 input // alice.0") 3
    = ([], Return (Some (mkGate true false 7 None PyNone PyNone
                           (Some (chars " alice.0"))))) /\
  Gate.is_constant (mkGate true false 7 None PyNone PyNone
                      (Some (chars " alice.0"))) = false.
Proof.
  split; [vm_compute; reflexivity|].
  eapply (input_gate_unclassified (chars "7 input // alice.0") 3 []);
    [vm_compute; reflexivity | reflexivity].
Defined.

(** ** Table size *)



(** * Assembling the circuit *)

(** ** Stripping *)

Lemma lstrip_app_single x a :
  lstrip (x ++ [a]) =
    match lstrip x with
    | [] => if py_isspace a then [] else [a]
    | y => y ++ [a]
    end.
Proof.
  induction x as [|b x IH]; simpl; [done|].
  destruct (py_isspace b); [exact IH | done].
Qed.

Lemma rstrip_cons a s :
  rstrip (a :: s) =
    match rstrip s with
    | [] => if py_isspace a then [] else [a]
    | y => a :: y
    end.
Proof.
  unfold rstrip. simpl. rewrite lstrip_app_single.
  destruct (lstrip (rev s)) as [|b y] eqn:E; simpl.
  - by destruct (py_isspace a).
  - rewrite rev_app_distr. simpl.
    destruct (rev y ++ [b]) eqn:E'; [|done].
    symmetry in E'. by apply app_cons_not_nil in E'.
Qed.

Lemma rstrip_idemp s : rstrip (rstrip s) = rstrip s.
Proof.
  induction s as [|a s IH]; [done|].
  rewrite rstrip_cons. destruct (rstrip s) as [|b y] eqn:E.
  - destruct (py_isspace a) eqn:Ea; [done|].
    rewrite rstrip_cons. simpl. change (rstrip []) with (@nil ascii).
    by rewrite Ea.
  - rewrite rstrip_cons, IH. done.
Qed.

Lemma lstrip_fixed s :
  match s with [] => True | a :: _ => py_isspace a = false end ->
  lstrip s = s.
Proof. destruct s as [|a s]; simpl; [done|]. by intros ->. Qed.

Lemma lstrip_head s :
  match lstrip s with [] => True | a :: _ => py_isspace a = false end.
Proof.
  induction s as [|a s IH]; simpl; [done|].
  destruct (py_isspace a) eqn:E; [done|]. simpl. done.
Qed.

Lemma rstrip_head s :
  match s with [] => True | a :: _ => py_isspace a = false end ->
  match rstrip s with [] => True | a :: _ => py_isspace a = false end.
Proof.
  destruct s as [|a s]; [done|]. intros E. rewrite rstrip_cons.
  destruct (rstrip s); [by rewrite E|done].
Qed.

Lemma strip_idemp s : strip (strip s) = strip s.
Proof.
  unfold strip.
  rewrite (lstrip_fixed (rstrip (lstrip s))).
  - apply rstrip_idemp.
  - apply rstrip_head, lstrip_head.
Qed.

Lemma from_line_strip line lineno :
  Gate.from_line (strip line) lineno = Gate.from_line line lineno.
Proof. unfold Gate.from_line. by rewrite strip_idemp. Qed.

Lemma blank_not_gate line lineno out g :
  strip line = [] -> Gate.from_line line lineno <> (out, Return (Some g)).
Proof.
  intros E. rewrite from_line_nomatch; [done|]. rewrite E. reflexivity.
Qed.

Lemma defines_from_line line w lineno :
  defines line w ->
  exists g, Gate.from_line line lineno = ([], Return (Some g)) /\ wire g = w.
Proof.
  intros (out & g & H & W). exists g. split; [|done].
  by eapply from_line_Some.
Qed.

Lemma defines_unique line w w' : defines line w -> defines line w' -> w = w'.
Proof. intros (o & g & H & <-) (o' & g' & H' & <-). congruence. Qed.

Lemma defines_not_blank line w : defines line w -> strip line <> [].
Proof. intros (o & g & H & _) E. by eapply blank_not_gate. Qed.

(** ** OrderedDict *)

Lemma od_set_keys {V} (k : Z) (v : V) (d : list (Z * V)) :
  k ∉ d.*1 -> (od_set k v d).*1 = d.*1 ++ [k].
Proof.
  induction d as [|[k' v'] d IH]; simpl; [done|].
  intros N. apply not_elem_of_cons in N as [N1 N2].
  destruct (decide (k' = k)); [congruence|]. simpl. f_equal. by apply IH.
Qed.

(** ** parse_gates, one line at a time *)

Lemma parse_gates_from_blank l rest n ws :
  strip l = [] ->
  parse_gates_from n ws (l :: rest) = parse_gates_from (n + 1) ws rest.
Proof. intros E. simpl. by rewrite E. Qed.

Lemma parse_gates_from_gate l rest n ws g :
  Gate.from_line l n = ([], Return (Some g)) ->
  parse_gates_from n ws (l :: rest) =
    if od_mem (wire g) ws
    then (duplicate_report n (strip l) (wire g), Return (OInt 3))
    else parse_gates_from (n + 1) (od_set (wire g) g ws) rest.
Proof.
  intros H. simpl.
  destruct (strip l) as [|a s] eqn:E; [by eapply blank_not_gate in H|].
  rewrite <- E, from_line_strip, H. simpl.
  destruct (od_mem (wire g) ws); [reflexivity|].
  by destruct (parse_gates_from _ _ rest).
Qed.

Lemma parse_gates_from_first_repeat lines : forall lineno ws j lj w,
  (forall n l, (n < j)%nat -> lines !! n = Some l ->
               blank l \/ exists w', defines l w') ->
  lines !! j = Some lj -> defines lj w ->
  (w ∈ ws.*1 \/
   exists i li, (i < j)%nat /\ lines !! i = Some li /\ defines li w) ->
  exists j0 l0 w0,
    (j0 <= j)%nat /\ lines !! j0 = Some l0 /\ defines l0 w0 /\
    (w0 ∈ ws.*1 \/
     exists i0 li0, (i0 < j0)%nat /\ lines !! i0 = Some li0 /\ defines li0 w0) /\
    (forall b lb wb, (b < j0)%nat -> lines !! b = Some lb -> defines lb wb ->
       (wb ∉ ws.*1) /\
       (forall a la, (a < b)%nat -> lines !! a = Some la -> ~ defines la wb)) /\
    parse_gates_from lineno ws lines =
      (duplicate_report (lineno + Z.of_nat j0) (strip l0) w0, Return (OInt 3)).
Proof.
  induction lines as [|l rest IH]; intros lineno ws j lj w Hall Hj Dj Hrep;
    [done|].
  destruct (decide (strip l = [])) as [Hb|Hnb].
  { (* a blank line is skipped *)
    destruct j as [|j]; [simpl in Hj; simplify_eq; by apply defines_not_blank in Dj|].
    destruct (IH (lineno + 1) ws j lj w) as (j0 & l0 & w0 & Hle & Hl0 & D0 & Hr0 & Hf & R).
    - intros n l' Hn Hl'. apply (Hall (S n)); [lia | done].
    - done.
    - done.
    - destruct Hrep as [?|(i & li & Hi & Hli & Di)]; [by left|].
      destruct i as [|i]; [simpl in Hli; simplify_eq; by apply defines_not_blank in Di|].
      right. exists i, li. split; [lia | done].
    - exists (S j0), l0, w0. split; [lia|]. split; [done|]. split; [done|].
      split; [|split].
      + destruct Hr0 as [?|(i0 & li0 & ? & ? & ?)]; [by left|].
        right. exists (S i0), li0. split; [lia | done].
      + intros b lb wb Hb' Hlb Db.
        destruct b as [|b]; [simpl in Hlb; simplify_eq; by apply defines_not_blank in Db|].
        destruct (Hf b lb wb) as [Hn Ha]; [lia | done | done |].
        split; [done|]. intros a la Hab Hla Da.
        destruct a as [|a]; [simpl in Hla; simplify_eq; by apply defines_not_blank in Da|].
        apply (Ha a la); [lia | done | done].
      + rewrite parse_gates_from_blank by done. rewrite R.
        by replace (lineno + Z.of_nat (S j0)) with (lineno + 1 + Z.of_nat j0) by lia. }
  (* a gate line *)
  assert (exists w', defines l w') as [w' Dl].
  { destruct j as [|j]; [simpl in Hj; simplify_eq; by exists w|].
    destruct (Hall 0%nat l) as [?|?]; [lia | done | done | done]. }
  destruct (defines_from_line _ _ lineno Dl) as (g & Hg & Wg).
  rewrite (parse_gates_from_gate _ _ _ _ _ Hg), Wg. unfold od_mem.
  case_bool_decide as Hmem.
  { (* its wire is already there *)
    exists 0%nat, l, w'. split; [lia|]. split; [done|]. split; [done|].
    split; [by left|]. split; [intros; lia|].
    by replace (lineno + Z.of_nat 0) with lineno by lia. }
  destruct j as [|j].
  { simpl in Hj. simplify_eq.
    destruct Hrep as [?|(i & ? & ? & _)]; [|lia].
    by rewrite (defines_unique _ _ _ Dl Dj) in Hmem. }
  destruct (IH (lineno + 1) (od_set w' g ws) j lj w)
    as (j0 & l0 & w0 & Hle & Hl0 & D0 & Hr0 & Hf & R).
  - intros n l' Hn Hl'. apply (Hall (S n)); [lia | done].
  - done.
  - done.
  - rewrite od_set_keys by done.
    destruct Hrep as [?|(i & li & Hi & Hli & Di)].
    + left. apply elem_of_app. by left.
    + destruct i as [|i].
      * simpl in Hli. simplify_eq. left.
        rewrite (defines_unique _ _ _ Di Dl). apply elem_of_app. right.
        by apply list_elem_of_singleton.
      * right. exists i, li. split; [lia | done].
  - rewrite od_set_keys in Hr0, Hf by done.
    exists (S j0), l0, w0. split; [lia|]. split; [done|]. split; [done|].
    split; [|split].
    + destruct Hr0 as [[?|Hw0%list_elem_of_singleton]%elem_of_app
                      |(i0 & li0 & ? & ? & ?)].
      * by left.
      * right. exists 0%nat, l. subst w0. split; [lia | done].
      * right. exists (S i0), li0. split; [lia | done].
    + intros b lb wb Hb' Hlb Db. destruct b as [|b].
      * simpl in Hlb. simplify_eq.
        rewrite (defines_unique _ _ _ Db Dl). split; [done|]. intros; lia.
      * destruct (Hf b lb wb) as [Hn Ha]; [lia | done | done |].
        apply not_elem_of_app in Hn as [Hn1 Hn2].
        split; [done|]. intros a la Hab Hla Da. destruct a as [|a].
        -- simpl in Hla. simplify_eq. apply Hn2.
           rewrite (defines_unique _ _ _ Da Dl). by apply list_elem_of_singleton.
        -- apply (Ha a la); [lia | done | done].
    + rewrite R.
      by replace (lineno + Z.of_nat (S j0)) with (lineno + 1 + Z.of_nat j0) by lia.
Qed.

(** ** Duplicate wires *)

(** C7: in a sequence of gate lines (blank lines allowed) where a line
    defines a wire that an earlier line has defined, parse_gates stops at
    the first line that repeats a wire: it reports a duplicate wire with the
    index of that line and the wire, and returns 3 in place of the
    dictionary of gates. *)
Theorem duplicate_wire_aborts (lines : list str) (i j : nat) (li lj : str)
    (w : Z) :
  (forall n l, (n < j)%nat -> lines !! n = Some l ->
               blank l \/ exists w', defines l w') ->
  (i < j)%nat -> lines !! i = Some li -> lines !! j = Some lj ->
  defines li w -> defines lj w ->
  exists i0 j0 li0 lj0 w0,
    (i0 < j0 <= j)%nat /\
    lines !! i0 = Some li0 /\ lines !! j0 = Some lj0 /\
    defines li0 w0 /\ defines lj0 w0 /\
    (forall a b la lb wa, (a < b < j0)%nat ->
       lines !! a = Some la -> lines !! b = Some lb ->
       defines la wa -> ~ defines lb wa) /\
    parse_gates lines =
      (duplicate_report (Z.of_nat j0) (strip lj0) w0, Return (OInt 3)).
Proof.
  intros Hall Hij Hi Hj Di Dj.
  destruct (parse_gates_from_first_repeat lines 0 [] j lj w Hall Hj Dj)
    as (j0 & l0 & w0 & Hle & Hl0 & D0 & Hr0 & Hf & R).
  { right. by exists i, li. }
  destruct Hr0 as [Hin|(i0 & li0 & Hi0 & Hli0 & Di0)]; [by apply elem_of_nil in Hin|].
  exists i0, j0, li0, l0, w0. split; [lia|]. repeat (split; [done|]).
  split; [|exact R].
  intros a b la lb wa [Hab Hb] Hla Hlb Da Db.
  destruct (Hf b lb wa Hb Hlb Db) as [_ Hn]. by apply (Hn a la).
Qed.

(** * Variables *)

(** ** The shape of a matched variable line *)

Lemma var_match_shape s m :
  re_match RE_VAR_LINE s = Some m ->
  exists p d nm ins tail,
    (p = chars "Alice" \/ p = chars "Bob") /\
    (d = chars "input" \/ d = chars "output") /\
    s = var_line p d (chars "integer") (dquote :: nm ++ dquote :: tail) /\
    m !! "party" = Some p /\ m !! "type" = Some (chars "integer") /\
    m !! "name" = Some nm /\ m !! "inputs" = Some ins /\ num_text ins.
Proof.
  intros [s' Hm]%re_match_matches.
  unfold RE_VAR_LINE, lit in Hm. inv_matches.
  match goal with
  | H : matches _ (Plus (Chr _)) _ _ _ _ |- _ =>
      pose proof H as (nm & Enm & _)%matches_split
  end.
  match goal with
  | H : matches _ (Plus (Group _ _)) _ _ _ _ |- _ =>
      pose proof H as (ins & Eins & Fins)%matches_split
  end.
  subst.
  assert (num_text ins) as Nins.
  { eapply Forall_impl; [exact Fins|]. simpl. tauto. }
  inv_alts.
  all: match goal with
       | |- exists p d _ _ _, _ /\ _ /\ ?P ++ _ ++ ?D ++ _ = _ /\ _ =>
           exists P, D, nm, ins; eexists
       end.
  all: split; [first [by left | by right]|].
  all: split; [first [by left | by right]|].
  all: split; [reflexivity|].
  all: repeat split; look; rewrite ?take_consumed; try done.
  all: by erewrite <- take_consumed.
Qed.

Lemma Forall_lstrip (P : ascii -> Prop) s : Forall P s -> Forall P (lstrip s).
Proof.
  induction 1 as [|a s Ha Hs IH]; simpl; [done|].
  destruct (py_isspace a); [done | by constructor].
Qed.

Lemma Forall_strip (P : ascii -> Prop) s : Forall P s -> Forall P (strip s).
Proof.
  intros H. unfold strip, rstrip.
  by apply Forall_rev, Forall_lstrip, Forall_rev, Forall_lstrip.
Qed.

(** ** What Variable.from_line returns *)

Lemma var_from_line_nomatch line lineno :
  re_match RE_VAR_LINE line = None ->
  Var.from_line line lineno = ([], Raise AttributeError).
Proof. intros E. unfold Var.from_line. by rewrite E. Qed.

Lemma var_from_line_match line lineno m :
  re_match RE_VAR_LINE line = Some m ->
  exists p nm ins,
    m !! "party" = Some p /\ m !! "name" = Some nm /\
    m !! "inputs" = Some ins /\ num_text ins /\
    Var.from_line line lineno =
      match ints (split (strip ins)) with
      | Some ws =>
          ([], Return (mkVariable (Some p) (Some (chars "integer")) (Some nm) ws))
      | None => ([], Raise ValueError)
      end.
Proof.
  intros E.
  destruct (var_match_shape _ _ E)
    as (p & d & nm & ins & tail & _ & _ & _ & Ep & Et & En & Ei & Ni).
  exists p, nm, ins. repeat (split; [done|]).
  unfold Var.from_line. rewrite E, Ep, Et, En, Ei. simpl.
  by destruct (ints (split (strip ins))).
Qed.

(** On a line without a long run of digits Variable.from_line converts
    every wire. *)
Lemma var_wires_convert line m ins :
  re_match RE_VAR_LINE line = Some m -> m !! "inputs" = Some ins ->
  num_text ins -> no_long_numeral line ->
  exists ws, ints (split (strip ins)) = Some ws.
Proof.
  intros E Ei Ni N.
  apply (ints_split _ line); [by apply Forall_strip | | done].
  eapply within_trans; [apply strip_within | by eapply re_match_within].
Qed.

Lemma token_split (t1 t2 r1 r2 : str) :
  spaceless t1 -> spaceless t2 ->
  t1 ++ " "%char :: r1 = t2 ++ " "%char :: r2 -> t1 = t2 /\ r1 = r2.
Proof.
  intros S1. revert t2. induction S1 as [|a t1 Ha _ IH]; intros t2 S2 E.
  - destruct S2 as [|b t2 Hb _]; simpl in E; [by simplify_eq|].
    simplify_eq.
  - destruct S2 as [|b t2 Hb S2]; simpl in E; [simplify_eq|].
    injection E as -> E. apply IH in E as [-> ->]; done.
Qed.

(** ** Groups the caller never reads *)

Section Agree.
Variable g : string.
Variables n0 n0' : nat.

Lemma agree_off_insert h t c c' :
  agree_off g c c' -> agree_off g (<[h:=t]> c) (<[h:=t]> c').
Proof.
  intros A x Hx. destruct (decide (h = x)) as [->|Hne].
  - by rewrite !lookup_insert_eq.
  - rewrite !lookup_insert_ne by done. by apply A.
Qed.

Lemma star_loop_agree (step step' : str -> caps -> (str -> caps -> option caps) -> option caps) k k' :
  (forall s c c' k1 k1', agree_off g c c' ->
     (forall s1 c1 c1', agree_off g c1 c1' -> agree_off_opt g (k1 s1 c1) (k1' s1 c1')) ->
     agree_off_opt g (step s c k1) (step' s c' k1')) ->
  (forall s1 c1 c1', agree_off g c1 c1' -> agree_off_opt g (k s1 c1) (k' s1 c1')) ->
  forall fuel s c c', agree_off g c c' ->
    agree_off_opt g (star_loop step k fuel s c) (star_loop step' k' fuel s c').
Proof.
  intros Hstep Hk fuel. induction fuel as [|fuel IH]; intros s c c' A; simpl.
  - by apply Hk.
  - assert (forall s1 c1 c1', agree_off g c1 c1' ->
      agree_off_opt g
        (if (length s1 <? length s)%nat then star_loop step k fuel s1 c1 else None)
        (if (length s1 <? length s)%nat then star_loop step' k' fuel s1 c1' else None))
      as Hc.
    { intros s1 c1 c1' A1. destruct (_ <? _)%nat; [by apply IH | done]. }
    pose proof (Hstep s c c' _ _ A Hc) as H.
    destruct (step s c _), (step' s c' _); simpl in *; [done..|].
    by apply Hk.
Qed.

(** A regex that neither mentions group [g] nor looks at the position runs
    the same way whatever [g] holds. *)
Lemma rmatch_agree r :
  uses_bol r = false -> g ∉ (groups r).*1 ->
  forall s c c' k k', agree_off g c c' ->
    (forall s1 c1 c1', agree_off g c1 c1' -> agree_off_opt g (k s1 c1) (k' s1 c1')) ->
    agree_off_opt g (rmatch n0 r s c k) (rmatch n0' r s c' k').
Proof.
  induction r as [p|l|r1 IH1 r2 IH2|r1 IH1 r2 IH2|r1 IH1|h r1 IH1| |];
    simpl; intros B G s c c' k k' A Hk.
  - destruct s as [|a s]; [done|]. destruct (p a); [by apply Hk | done].
  - destruct (strip_prefix l s); [by apply Hk | done].
  - apply orb_false_iff in B as [B1 B2].
    rewrite fmap_app in G. apply not_elem_of_app in G as [G1 G2].
    apply IH1; [done..|]. intros s1 c1 c1' A1. by apply IH2.
  - apply orb_false_iff in B as [B1 B2].
    rewrite fmap_app in G. apply not_elem_of_app in G as [G1 G2].
    pose proof (IH1 B1 G1 s c c' k k' A Hk) as H1.
    destruct (rmatch n0 r1 s c k), (rmatch n0' r1 s c' k'); simpl in *;
      [done..|]. by apply IH2.
  - apply star_loop_agree; [|done..].
    intros s0 c0 c0' k1 k1' A0 Hk1. by apply IH1.
  - apply not_elem_of_cons in G as [Hh G].
    apply IH1; [done..|]. intros s1 c1 c1' A1.
    apply Hk. by apply agree_off_insert.
  - done.
  - destruct s as [|a [|b s]]; [by apply Hk | | done].
    destruct (is_char newline a); [by apply Hk | done].
Qed.

End Agree.

(** ** The matcher on the head of a variable line *)

Lemma rmatch_seq n r1 r2 s c k :
  rmatch n (r1 ~> r2) s c k = rmatch n r1 s c (fun s1 c1 => rmatch n r2 s1 c1 k).
Proof. reflexivity. Qed.

Lemma rmatch_lit_app n l s c k : rmatch n (Lit l) (l ++ s) c k = k s c.
Proof. simpl. by rewrite strip_prefix_app. Qed.

Lemma rmatch_group_alt_l n g l1 l2 s c k :
  strip_prefix l2 (l1 ++ s) = None ->
  rmatch n (Group g (Alt (Lit l1) (Lit l2))) (l1 ++ s) c k = k s (<[g:=l1]> c).
Proof.
  intros H. simpl. rewrite strip_prefix_app, take_consumed, H.
  by destruct (k s _).
Qed.

Lemma rmatch_group_alt_r n g l1 l2 s c k :
  strip_prefix l1 (l2 ++ s) = None ->
  rmatch n (Group g (Alt (Lit l1) (Lit l2))) (l2 ++ s) c k = k s (<[g:=l2]> c).
Proof.
  intros H. simpl. by rewrite H, strip_prefix_app, take_consumed.
Qed.

Lemma var_line_head n T p d tail c k :
  p = chars "Alice" \/ p = chars "Bob" ->
  d = chars "input" \/ d = chars "output" ->
  rmatch n (Group "party" (Alt (lit "Alice") (lit "Bob")) ~> lit " " ~>
            Group "2" (Alt (lit "input") (lit "output")) ~> T)
    (p ++ chars " " ++ d ++ tail) c k =
  rmatch n T tail (<["2":=d]> (<["party":=p]> c)) k.
Proof.
  unfold lit. intros [-> | ->] [-> | ->]; rewrite rmatch_seq.
  - rewrite rmatch_group_alt_l by reflexivity.
    rewrite rmatch_seq, rmatch_lit_app, rmatch_seq.
    by rewrite rmatch_group_alt_l by reflexivity.
  - rewrite rmatch_group_alt_l by reflexivity.
    rewrite rmatch_seq, rmatch_lit_app, rmatch_seq.
    by rewrite rmatch_group_alt_r by reflexivity.
  - rewrite rmatch_group_alt_r by reflexivity.
    rewrite rmatch_seq, rmatch_lit_app, rmatch_seq.
    by rewrite rmatch_group_alt_l by reflexivity.
  - rewrite rmatch_group_alt_r by reflexivity.
    rewrite rmatch_seq, rmatch_lit_app, rmatch_seq.
    by rewrite rmatch_group_alt_r by reflexivity.
Qed.

Lemma var_line_direction_unread p tail :
  p = chars "Alice" \/ p = chars "Bob" ->
  agree_off_opt "2"
    (re_match RE_VAR_LINE (p ++ chars " " ++ chars "input" ++ tail))
    (re_match RE_VAR_LINE (p ++ chars " " ++ chars "output" ++ tail)).
Proof.
  intros Hp. unfold re_match, RE_VAR_LINE.
  rewrite !var_line_head by auto.
  apply rmatch_agree.
  - reflexivity.
  - apply (bool_decide_unpack _). vm_compute. exact I.
  - intros h Hh. by rewrite !(lookup_insert_ne _ "2") by done.
  - intros s1 c1 c1' A. exact A.
Qed.

(** ** Well-formed variable lines match *)

Lemma matches_star_class n p t s c :
  Forall (fun a => p a = true) t -> matches n (Star (Chr p)) (t ++ s) c s c.
Proof.
  induction 1 as [|a t Ha _ IH]; simpl; [constructor|].
  eapply M_star_S; [by constructor | simpl; lia | exact IH].
Qed.

Lemma matches_plus_class n p t s c :
  t <> [] -> Forall (fun a => p a = true) t ->
  matches n (Plus (Chr p)) (t ++ s) c s c.
Proof.
  intros N F. destruct F as [|a t Ha F]; [done|]. simpl.
  eapply M_seq; [by constructor | by apply matches_star_class].
Qed.

Lemma M_group_app n g r t s c c1 :
  matches n r (t ++ s) c s c1 ->
  matches n (Group g r) (t ++ s) c s (<[g:=t]> c1).
Proof. intros H. apply (M_group n g) in H. by rewrite take_consumed in H. Qed.

Lemma matches_wire_round n t s c :
  numeral t ->
  matches n (Group "6" (digits ~> ws)) ((t ++ chars " ") ++ s) c s
    (<["6":=t ++ chars " "]> c).
Proof.
  intros [N F].
  apply M_group_app. rewrite <- app_assoc.
  eapply M_seq; [by apply matches_plus_class|].
  by constructor.
Qed.

Lemma matches_wire_rounds n toks s : forall c,
  Forall numeral toks ->
  exists c', matches n (Star (Group "6" (digits ~> ws))) (spaced toks ++ s) c s c'.
Proof.
  induction toks as [|t toks IH]; intros c F.
  - exists c. constructor.
  - apply Forall_cons in F as [Ht F].
    destruct (IH (<["6":=t ++ chars " "]> c) F) as [c' H].
    exists c'. unfold spaced. simpl. rewrite <- app_assoc.
    eapply M_star_S; [by apply matches_wire_round | | exact H].
    rewrite !length_app. simpl. lia.
Qed.

Lemma var_line_rest_eq nm sp toks junk :
  var_line_rest nm sp toks junk =
  [dquote] ++ nm ++ [dquote] ++ chars " [" ++ sp ++ spaced toks ++ chars "]" ++ junk.
Proof. unfold var_line_rest, quoted. simpl. by rewrite <- app_assoc. Qed.

Lemma var_line_matches n p d nm sp toks junk :
  p = chars "Alice" \/ p = chars "Bob" ->
  d = chars "input" \/ d = chars "output" ->
  nm <> [] -> Forall (fun a => a <> dquote) nm ->
  Forall (fun a => py_isspace a = true) sp ->
  toks <> [] -> Forall numeral toks ->
  exists m,
    matches n RE_VAR_LINE
      (var_line p d (chars "integer") (var_line_rest nm sp toks junk)) ∅ junk m.
Proof.
  intros Hp Hd Nn Fn Fs Nt Ft.
  destruct toks as [|t toks]; [done|]. apply Forall_cons in Ft as [Ht Ft].
  destruct (matches_wire_rounds n toks (chars "]" ++ junk)
              (<["6":=t ++ chars " "]>
                 (<["name":=nm]> (<["type":=chars "integer"]>
                    (<["2":=d]> (<["party":=p]> ∅))))) Ft) as [c' Hw].
  eexists. rewrite var_line_rest_eq. unfold RE_VAR_LINE, lit, var_line.
  eapply M_seq.
  { apply M_group_app.
    destruct Hp as [-> | ->]; [apply M_alt_l | apply M_alt_r]; constructor. }
  eapply M_seq; [constructor|].
  eapply M_seq.
  { apply M_group_app.
    destruct Hd as [-> | ->]; [apply M_alt_l | apply M_alt_r]; constructor. }
  eapply M_seq; [constructor|].
  eapply M_seq.
  { apply M_group_app. constructor. }
  eapply M_seq; [constructor|].
  eapply M_seq; [apply (M_lit _ [dquote])|].
  eapply M_seq.
  { apply M_group_app.
    apply matches_plus_class; [done|].
    eapply Forall_impl; [exact Fn|]. intros a Ha. unfold not_char, is_char.
    apply negb_true_iff, N.eqb_neq. intros E. by apply code_inj in E. }
  eapply M_seq; [apply (M_lit _ [dquote])|].
  eapply M_seq; [constructor|].
  eapply M_seq; [by apply matches_star_class|].
  eapply M_seq; [|constructor].
  apply M_group_app.
  unfold Plus, spaced. simpl. rewrite <- app_assoc.
  eapply M_seq; [by apply matches_wire_round | exact Hw].
Qed.

(** ** Variable lines *)

(** C5: a line that does not match the grammar makes Variable.from_line
    raise AttributeError, with nothing printed, and parse_variables passes
    the exception on. *)
Theorem malformed_variable_line_raises (line : str) (lineno : Z)
    (rest : list str) :
  strip line <> [] ->
  re_match RE_VAR_LINE (strip line) = None ->
  Var.from_line (strip line) lineno = ([], Raise AttributeError) /\
  parse_variables (line :: rest) = ([], Raise AttributeError).
Proof.
  intros Hn E. split; [by apply var_from_line_nomatch|].
  unfold parse_variables. simpl.
  destruct (strip line) as [|a s] eqn:Es; [done|].
  by rewrite var_from_line_nomatch.
Qed.

Lemma malformed_variable_line_raises_witness :
  Var.from_line (strip (sample_var_line "input" "boolean")) 0
    = ([], Raise AttributeError) /\
  parse_variables [sample_var_line "input" "boolean"] = ([], Raise AttributeError).
Proof.
  apply (malformed_variable_line_raises (sample_var_line "input" "boolean") 0 []).
  - vm_compute. discriminate.
  - vm_compute. reflexivity.
Defined.

(** C6, as amended: the record has the fields party, type, name and wires
    only; the input-or-output token is matched and dropped, so exchanging it
    changes nothing of what Variable.from_line returns. *)
Theorem direction_not_stored (p tail : str) (lineno : Z) :
  p = chars "Alice" \/ p = chars "Bob" ->
  Var.from_line (p ++ chars " input" ++ tail) lineno =
  Var.from_line (p ++ chars " output" ++ tail) lineno.
Proof.
  intros Hp. pose proof (var_line_direction_unread p tail Hp) as A.
  change (p ++ chars " input" ++ tail)
    with (p ++ chars " " ++ chars "input" ++ tail).
  change (p ++ chars " output" ++ tail)
    with (p ++ chars " " ++ chars "output" ++ tail).
  unfold Var.from_line.
  destruct (re_match RE_VAR_LINE (p ++ chars " " ++ chars "input" ++ tail)) as [m|],
    (re_match RE_VAR_LINE (p ++ chars " " ++ chars "output" ++ tail)) as [m'|];
    simpl in A; try done.
  by rewrite (A "party"), (A "type"), (A "name"), (A "inputs").
Qed.

Lemma direction_not_stored_witness :
  Var.from_line (sample_var_line "input" "integer") 0 =
  Var.from_line (sample_var_line "output" "integer") 0.
Proof.
  apply (direction_not_stored (chars "Alice")
           (chars " integer " ++ quoted (chars "x") ++ chars " [ 1 2 ]") 0).
  by left.
Defined.

(** C6 as stated fails: no field of the record tells an input line from an
    output line. *)
Lemma direction_field_counterexample :
  ~ exists direction : VariableStruct -> str,
      forall d, d = "input"%string \/ d = "output"%string ->
        forall out v,
          Var.from_line (sample_var_line d "integer") 0 = (out, Return v) ->
          direction v = chars d.
Proof.
  intros [direction H].
  pose (v := mkVariable (Some (chars "Alice")) (Some (chars "integer"))
               (Some (chars "x")) [1; 2]).
  assert (direction v = chars "input") as E1.
  { apply (H "input"%string (or_introl eq_refl) []). vm_compute. reflexivity. }
  assert (direction v = chars "output") as E2.
  { apply (H "output"%string (or_intror eq_refl) []). vm_compute. reflexivity. }
  rewrite E1 in E2. discriminate.
Qed.

(** * Sample runs *)


Lemma duplicate_wire_aborts_witness :
  exists i0 j0 li0 lj0 w0,
    (i0 < j0 <= 3)%nat /\
    [chars "1 input"; chars ""; chars "2 input"; chars "1 input // again"] !! i0
      = Some li0 /\
    [chars "1 input"; chars ""; chars "2 input"; chars "1 input // again"] !! j0
      = Some lj0 /\
    defines li0 w0 /\ defines lj0 w0 /\
    (forall a b la lb wa, (a < b < j0)%nat ->
       [chars "1 input"; chars ""; chars "2 input"; chars "1 input // again"] !! a
         = Some la ->
       [chars "1 input"; chars ""; chars "2 input"; chars "1 input // again"] !! b
         = Some lb ->
       defines la wa -> ~ defines lb wa) /\
    parse_gates [chars "1 input"; chars ""; chars "2 input"; chars "1 input // again"]
      = (duplicate_report (Z.of_nat j0) (strip lj0) w0, Return (OInt 3)).
Proof.
  apply (duplicate_wire_aborts
           [chars "1 input"; chars ""; chars "2 input"; chars "1 input // again"]
           0 3 (chars "1 input") (chars "1 input // again") 1).
  - intros n l Hn Hl.
    destruct n as [|[|[|n]]]; simpl in Hl; [| | |lia]; injection Hl as <-.
    + right. exists 1. eexists _, _. split; [vm_compute; reflexivity | reflexivity].
    + left. reflexivity.
    + right. exists 2. eexists _, _. split; [vm_compute; reflexivity | reflexivity].
  - lia.
  - reflexivity.
  - reflexivity.
  - eexists _, _. split; [vm_compute; reflexivity | reflexivity].
  - eexists _, _. split; [vm_compute; reflexivity | reflexivity].
Defined.

(** C1: the first line of the scenario, an arity-0 gate with an empty list
    of inputs, does not match RE_GATE_LINE, which asks for one input wire at
    least: Gate.from_line reports it and returns None, and parse_gates
    returns 2 in place of a circuit.  The second line fares the same; the
    third parses, to a NOT gate. *)
Theorem scenario_constants_rejected :
  Gate.from_line (chars "0 gate arity 0 table [ 0 ] inputs [ ]") 0
    = (malformed_report 0 (chars "0 gate arity 0 table [ 0 ] inputs [ ]"),
       Return None) /\
  Gate.from_line (chars "1 gate arity 0 table [ 1 ] inputs [ ]") 1
    = (malformed_report 1 (chars "1 gate arity 0 table [ 1 ] inputs [ ]"),
       Return None) /\
  Gate.from_line (chars "2 gate arity 1 table [ 1 0 ] inputs [ 1 ]") 2
    = ([], Return (Some (mkGate false false 2 (Some 1) (PyInts [1; 0])
                           (PyInts [1]) None))) /\
  Gate.is_not (mkGate false false 2 (Some 1) (PyInts [1; 0]) (PyInts [1]) None)
    = true /\
  parse_gates scenario_lines
    = (malformed_report 0 (chars "0 gate arity 0 table [ 0 ] inputs [ ]"),
       Return (OInt 2)).
Proof. repeat split; vm_compute; reflexivity. Qed.

(** parse_gates raises nothing but the ValueError of Gate.from_line, and
    has printed nothing when it does. *)
Lemma parse_gates_from_raise lines : forall n ws out e,
  parse_gates_from n ws lines = (out, Raise e) -> out = [] /\ e = ValueError.
Proof.
  induction lines as [|l rest IH]; intros n ws out e H; simpl in H; [done|].
  destruct (strip l) as [|a s]; [by eapply IH|].
  destruct (Gate.from_line (a :: s) n) as [o [[g|]|e']] eqn:R; simpl in H.
  - apply from_line_Some with (lineno' := n) in R as R'.
    rewrite R in R'. injection R' as ->.
    destruct (od_mem (wire g) ws); [done|].
    destruct (parse_gates_from (n + 1) (od_set (wire g) g ws) rest)
      as [o' r'] eqn:R'.
    injection H as <- ->. by eapply IH.
  - done.
  - injection H as <- <-. by eapply from_line_raise.
Qed.

(** On lines without a long run of digits parse_gates raises nothing. *)
Lemma parse_gates_from_returns lines : forall n ws,
  Forall no_long_numeral lines ->
  exists out o, parse_gates_from n ws lines = (out, Return o).
Proof.
  induction lines as [|l rest IH]; intros n ws F; simpl; [by eexists _, _|].
  apply Forall_cons in F as [Hl F].
  destruct (strip l) as [|a s] eqn:El; [by apply IH|].
  destruct (from_line_no_raise (a :: s) n) as (o & [g|] & ->); simpl;
    [| |by eexists _, _].
  { rewrite <- El, strip_idemp. by apply no_long_numeral_strip. }
  destruct (od_mem (wire g) ws); [by eexists _, _|].
  destruct (IH (n + 1) (od_set (wire g) g ws) F) as (o' & r & ->).
  by eexists _, _.
Qed.

(** Whatever parse_gates returns, a run with two readable files whose
    variable file parses ends with status 0. *)
Lemma exit_status_zero files arg0 arg1 rest gates vars o r out v :
  files arg0 = Some gates -> files arg1 = Some vars ->
  parse_gates gates = (o, Return r) ->
  parse_variables vars = (out, Return v) ->
  snd (run files (arg0 :: arg1 :: rest)) = 0.
Proof.
  intros E0 E1 Eg Ev. unfold run, main, open. rewrite E0, E1. simpl.
  rewrite Eg. simpl. by rewrite Ev.
Qed.

(** C3: main drops what parse_gates returns, so the process exits with 0
    after a malformed gate line and after a duplicate wire as well; only the
    usage error has an exit status of its own. *)
Theorem exit_status_ignores_gate_errors :
  parse_gates [chars "garbage"]
    = (malformed_report 0 (chars "garbage"), Return (OInt 2)) /\
  snd (run (sample_files [chars "garbage"] []) sample_args) = 0 /\
  parse_gates [chars "1 input"; chars "1 input"]
    = (duplicate_report 1 (chars "1 input") 1, Return (OInt 3)) /\
  snd (run (sample_files [chars "1 input"; chars "1 input"] []) sample_args) = 0 /\
  snd (run (sample_files [chars "1 input"] []) sample_args) = 0 /\
  snd (run (sample_files [] []) [chars "a.circuit"]) = 1.
Proof. repeat split; vm_compute; reflexivity. Qed.

(** * The Passthru Resolver *)

(** ** Assembled circuits *)

Lemma od_set_new {V} (k : Z) (v : V) (d : list (Z * V)) :
  k ∉ d.*1 -> od_set k v d = d ++ [(k, v)].
Proof.
  induction d as [|[k' v'] d IH]; simpl; [done|].
  intros N. apply not_elem_of_cons in N as [N1 N2].
  destruct (decide (k' = k)); [congruence|]. f_equal. by apply IH.
Qed.

Lemma od_get_app_new {V} (k : Z) (v : V) (pre post : list (Z * V)) :
  k ∉ pre.*1 -> od_get k (pre ++ (k, v) :: post) = Some v.
Proof.
  induction pre as [|[k' v'] pre IH]; simpl; intros N.
  - by destruct (decide (k = k)).
  - apply not_elem_of_cons in N as [N1 N2].
    destruct (decide (k' = k)); [congruence|]. by apply IH.
Qed.

Lemma od_get_Some {V} (k : Z) (d : list (Z * V)) :
  k ∈ d.*1 -> exists v, od_get k d = Some v /\ (k, v) ∈ d.
Proof.
  induction d as [|[k' v'] d IH]; simpl; intros I; [by apply elem_of_nil in I|].
  destruct (decide (k' = k)) as [->|Hne].
  - exists v'. split; [done|]. by left.
  - apply elem_of_cons in I as [->|I]; [done|].
    destruct (IH I) as (v & E & M). exists v. split; [done|]. by right.
Qed.

Lemma od_get_elem {V} (k : Z) (v : V) (d : list (Z * V)) :
  od_get k d = Some v -> (k, v) ∈ d.
Proof.
  induction d as [|[k' v'] d IH]; simpl; [done|].
  destruct (decide (k' = k)) as [->|Hne].
  - intros [= ->]. by left.
  - intros H. right. by apply IH.
Qed.

Lemma parse_gates_from_wf lines : forall n ws out c,
  wf_circuit ws ->
  parse_gates_from n ws lines = (out, Return (OGates c)) -> wf_circuit c.
Proof.
  induction lines as [|l rest IH]; intros n ws out c W H; simpl in H.
  - unfold ret in H. by simplify_eq.
  - destruct (strip l) as [|a s] eqn:Es; [by eapply IH|].
    destruct (Gate.from_line (a :: s) n) as [o [[g|]|e]]; simpl in H; [|done..].
    unfold od_mem in H. case_bool_decide as Hmem; [done|].
    destruct (parse_gates_from (n + 1) _ rest) as [o' r] eqn:E.
    simplify_eq. eapply IH; [|exact E].
    destruct W as [ND Hw]. split.
    + rewrite od_set_keys by done. apply NoDup_app. split; [done|].
      split; [|apply NoDup_singleton].
      intros x Hx ->%list_elem_of_singleton. done.
    + intros w g'. rewrite od_set_new by done.
      intros [?|Hg%list_elem_of_singleton]%elem_of_app;
        [by apply Hw | by simplify_eq].
Qed.

Lemma assembled_wf circuit : assembled circuit -> wf_circuit circuit.
Proof.
  intros (lines & out & H). eapply parse_gates_from_wf; [|exact H].
  split; [constructor | by intros w g ?%elem_of_nil].
Qed.

(** ** Following the canonical map *)

Lemma follow_final fuel (c : gmap Z Z) w :
  c !! w = None -> follow fuel c w = Some w.
Proof. intros E. destruct fuel; simpl; by rewrite E. Qed.

Lemma canonical_wire_one_step (c : gmap Z Z) w :
  (forall k v, c !! k = Some v -> c !! v = None) ->
  canonical_wire c w = Some (default w (c !! w)).
Proof.
  intros F. unfold canonical_wire.
  destruct (c !! w) as [v|] eqn:E; simpl; [|by apply follow_final].
  destruct (size c) as [|n] eqn:Hs.
  - apply map_size_empty_iff in Hs. subst c. by rewrite lookup_empty in E.
  - simpl. rewrite E. apply follow_final. by eapply F.
Qed.

Lemma canonical_wires_one_step (c : gmap Z Z) l :
  (forall k v, c !! k = Some v -> c !! v = None) ->
  canonical_wires c l = Some ((fun w => default w (c !! w)) <$> l).
Proof.
  intros F. induction l as [|w l IH]; simpl; [done|].
  by rewrite canonical_wire_one_step, IH.
Qed.

(** ** File order *)

Lemma in_file_order_from_spec circuit : forall seen,
  in_file_order_from seen circuit = true ->
  forall pre w g post l i,
    circuit = pre ++ (w, g) :: post ->
    inputs g = PyInts l -> i ∈ l -> i ∈ seen ++ pre.*1.
Proof.
  induction circuit as [|[w0 g0] rest IH]; intros seen H pre w g post l i Ec Ei Hi.
  - by destruct pre.
  - simpl in H. apply andb_true_iff in H as [H0 H].
    destruct pre as [|[w1 g1] pre]; simpl in Ec; simplify_eq.
    + rewrite Ei in H0. rewrite app_nil_r.
      rewrite forallb_forall in H0. apply list_elem_of_In in Hi.
      by apply H0, bool_decide_eq_true in Hi.
    + rewrite fmap_cons, cons_middle, app_assoc. simpl.
      by eapply IH.
Qed.

Lemma in_file_order_spec circuit :
  in_file_order circuit = true -> reads_earlier_wires circuit.
Proof.
  intros H pre w g post l i Ec Ei Hi.
  by apply (in_file_order_from_spec circuit [] H pre w g post l i).
Qed.

(** ** One step of the resolver *)

Lemma resolve_gate_inv circuit pre w g post st :
  wf_circuit circuit -> reads_earlier_wires circuit ->
  circuit = pre ++ (w, g) :: post ->
  resolver_inv circuit pre st ->
  exists st',
    resolve_gate circuit st g = Done st' /\
    resolver_inv circuit (pre ++ [(w, g)]) st' /\
    (forall k v, canonical st !! k = Some v -> canonical st' !! k = Some v) /\
    (forall i gs,
       Gate.is_passthru g = true -> inputs g = PyInts [i] ->
       od_get (default i (canonical st !! i)) circuit = Some gs ->
       is_output g && is_output gs = false ->
       canonical st' !! w = Some (default i (canonical st !! i))).
Proof.
  intros [ND Hw] T Ec [Ic Ip].
  assert (wire g = w) as Hwg.
  { apply Hw. rewrite Ec. apply elem_of_app. right. by left. }
  assert (w ∉ pre.*1) as Hnew.
  { rewrite Ec, fmap_app in ND. apply NoDup_app in ND as (_ & ND & _).
    intros I. apply (ND w I). simpl. by left. }
  assert (canonical st !! w = None) as Hcw.
  { destruct (canonical st !! w) as [v|] eqn:E; [|done].
    by apply Ic in E as (? & _). }
  assert (forall k v, canonical st !! k = Some v -> canonical st !! v = None) as F.
  { intros k v E. by apply Ic in E as (_ & _ & ? & _). }
  assert (forall x, x ∈ pre.*1 -> x ∈ (pre ++ [(w, g)]).*1) as Hpre.
  { intros x Hx. rewrite fmap_app. apply elem_of_app. by left. }
  assert (forall ins, resolver_inv circuit (pre ++ [(w, g)])
            (mkResolved (canonical st) (pruned st ++ [set_inputs g ins])
               (promoted st))) as Keep.
  { intros ins. split; simpl.
    - intros k v E. destruct (Ic k v E) as (? & ? & ? & ?). auto.
    - intros g0 [I| ->%list_elem_of_singleton]%elem_of_app.
      + destruct (Ip g0 I) as [? ?]. auto.
      + simpl. rewrite Hwg. split; [|done].
        rewrite fmap_app. apply elem_of_app. right. simpl. by left. }
  unfold resolve_gate.
  destruct (inputs g) as [|t|l] eqn:Ei; simpl.
  1,2: destruct (Gate.is_passthru g); eexists; (split; [reflexivity|]);
       (split; [apply Keep|]); (split; [done|]); done.
  rewrite (canonical_wires_one_step _ _ F). simpl.
  destruct (Gate.is_passthru g) eqn:Hp.
  2: { eexists. split; [reflexivity|]. split; [apply Keep|]. done. }
  destruct l as [|i [|j l]]; simpl.
  1,3: eexists; (split; [reflexivity|]); (split; [apply Keep|]);
       (split; [done|]); intros; simplify_eq.
  assert (i ∈ pre.*1) as Hi.
  { eapply (T pre w g post [i] i); [done | done | by left]. }
  assert (forall x, x ∈ pre.*1 -> exists gx, od_get x circuit = Some gx) as Hget.
  { intros x Hx. destruct (od_get_Some x circuit) as (gx & E & _); [|by exists gx].
    rewrite Ec, fmap_app. apply elem_of_app. by left. }
  destruct (Hget i Hi) as [gi ->].
  set (src := default i (canonical st !! i)).
  assert (src ∈ pre.*1 /\ canonical st !! src = None) as [Hsrc Hsrc'].
  { unfold src. destruct (canonical st !! i) as [v|] eqn:E; simpl; [|done].
    by destruct (Ic i v E) as (_ & ? & ? & _). }
  destruct (Hget src Hsrc) as [gs Egs]. rewrite Egs.
  destruct (is_output g && is_output gs) eqn:Ho.
  { eexists. split; [reflexivity|]. split; [apply Keep|]. split; [done|].
    intros i' gs' _ [= <-] Egs' Ho'. fold src in Egs'. congruence. }
  eexists. split; [reflexivity|]. rewrite Hwg.
  split; [|split].
  - split; simpl.
    + intros k v E. destruct (decide (w = k)) as [<-|Hne].
      * rewrite lookup_insert_eq in E. injection E as <-.
        split; [rewrite fmap_app; apply elem_of_app; right; simpl; by left|].
        split; [by apply Hpre|].
        split; [rewrite lookup_insert_ne; [done | by intros ->]|].
        exists g. split; [|done]. rewrite Ec. by apply od_get_app_new.
      * rewrite lookup_insert_ne in E by done.
        destruct (Ic k v E) as (? & Hv & ? & ?).
        split; [by apply Hpre|]. split; [by apply Hpre|]. split; [|done].
        rewrite lookup_insert_ne; [done | by intros ->].
    + intros g0 I. destruct (Ip g0 I) as [Hg0 ?].
      split; [by apply Hpre|].
      rewrite lookup_insert_ne; [done | by intros ->].
  - simpl. intros k v E. rewrite lookup_insert_ne; [done | intros ->; congruence].
  - simpl. intros i' gs' _ [= <-] _ _. by rewrite lookup_insert_eq.
Qed.

(** ** The pass over the circuit *)

Lemma resolve_from_app circuit st l1 l2 st1 :
  resolve_from circuit st l1 = Done st1 ->
  resolve_from circuit st (l1 ++ l2) = resolve_from circuit st1 l2.
Proof.
  revert st. induction l1 as [|g l1 IH]; intros st H; simpl in *.
  - by simplify_eq.
  - destruct (resolve_gate circuit st g) as [st'| |]; [|done..]. by apply IH.
Qed.

Lemma resolve_from_inv circuit :
  wf_circuit circuit -> reads_earlier_wires circuit ->
  forall mid pre post st,
    circuit = pre ++ mid ++ post ->
    resolver_inv circuit pre st ->
    exists st',
      resolve_from circuit st mid.*2 = Done st' /\
      resolver_inv circuit (pre ++ mid) st' /\
      (forall k v, canonical st !! k = Some v -> canonical st' !! k = Some v).
Proof.
  intros W T mid. induction mid as [|[w g] mid IH]; intros pre post st Ec I.
  - exists st. rewrite app_nil_r. done.
  - destruct (resolve_gate_inv circuit pre w g (mid ++ post) st W T Ec I)
      as (st1 & R1 & I1 & M1 & _).
    destruct (IH (pre ++ [(w, g)]) post st1) as (st2 & R2 & I2 & M2).
    { rewrite Ec. by rewrite <- app_assoc. }
    { done. }
    exists st2. simpl. rewrite R1. split; [done|].
    split; [by rewrite <- app_assoc in I2 | auto].
Qed.

Lemma od_get_unique {V} (k : Z) (v : V) (d : list (Z * V)) :
  NoDup d.*1 -> (k, v) ∈ d -> od_get k d = Some v.
Proof.
  induction d as [|[k' v'] d IH]; simpl; intros ND I; [by apply elem_of_nil in I|].
  apply NoDup_cons in ND as [N ND].
  destruct (decide (k' = k)) as [->|Hne].
  - apply elem_of_cons in I as [?|I]; [by simplify_eq|].
    exfalso. apply N. apply list_elem_of_fmap. by exists (k, v).
  - apply elem_of_cons in I as [?|I]; [by simplify_eq|]. by apply IH.
Qed.

(** ** Passthru chains *)

(** C2, as amended, on the resolver modelled from section 4.5: in an
    assembled circuit whose gates read only wires of earlier lines, with A
    a passthru of B, B a passthru of C and C a general gate, where C is not
    an output or neither A nor B is, the resolver ends with canonical[A] =
    C and canonical[B] = C and retains neither A's gate nor B's. *)
Theorem passthru_chain_resolves (circuit : list (Z * GateStruct))
    (A B C : Z) (gA gB gC : GateStruct) :
  assembled circuit -> in_file_order circuit = true ->
  od_get A circuit = Some gA -> od_get B circuit = Some gB ->
  od_get C circuit = Some gC ->
  Gate.is_passthru gA = true -> inputs gA = PyInts [B] ->
  Gate.is_passthru gB = true -> inputs gB = PyInts [C] ->
  is_general gC = true ->
  is_output gC = false \/ (is_output gA = false /\ is_output gB = false) ->
  exists r,
    resolve circuit = Done r /\
    canonical r !! A = Some C /\ canonical r !! B = Some C /\
    forall g, g ∈ pruned r -> wire g <> A /\ wire g <> B.
Proof.
  intros W%assembled_wf T%in_file_order_spec EA EB EC PA IA PB IB GC Hout.
  assert (Gate.is_passthru gC = false) as PC.
  { unfold is_general in GC. apply negb_true_iff in GC.
    by repeat apply orb_false_iff in GC as [GC ?]. }
  (* B's line comes before A's *)
  apply od_get_elem, list_elem_of_split in EA as (preA & postA & EcA).
  assert (B ∈ preA.*1) as HB by (eapply (T preA A gA postA [B] B); [done..|by left]).
  apply list_elem_of_fmap in HB as ([B' gB'] & E & HB). simpl in E. subst B'.
  apply list_elem_of_split in HB as (preB & mid & EpreA).
  assert (circuit = preB ++ (B, gB') :: mid ++ (A, gA) :: postA) as Ec.
  { rewrite EcA, EpreA. by rewrite <- app_assoc. }
  assert (gB' = gB) as ->.
  { assert (od_get B circuit = Some gB') as E; [|congruence].
    apply od_get_unique; [apply W|]. rewrite Ec. apply elem_of_app. right. by left. }
  clear EcA EpreA preA.
  (* the gates before B *)
  destruct (resolve_from_inv circuit W T preB [] ((B, gB) :: mid ++ (A, gA) :: postA)
              (mkResolved ∅ [] ∅)) as (st1 & R1 & I1 & _).
  { done. }
  { split; simpl; [intros k v E; by rewrite lookup_empty in E
                  |intros g E; by apply elem_of_nil in E]. }
  simpl in I1.
  assert (forall st pre, resolver_inv circuit pre st -> canonical st !! C = None) as HC.
  { intros st pre [Ic _]. destruct (canonical st !! C) as [v|] eqn:E; [|done].
    destruct (Ic C v E) as (_ & _ & _ & g & Eg & Pg). congruence. }
  (* B itself *)
  destruct (resolve_gate_inv circuit preB B gB (mid ++ (A, gA) :: postA) st1 W T Ec I1)
    as (st2 & R2 & I2 & _ & K2).
  specialize (K2 C gC PB IB). rewrite (HC _ _ I1) in K2. simpl in K2.
  specialize (K2 EC).
  assert (canonical st2 !! B = Some C) as CB.
  { apply K2. destruct Hout as [->|[_ ->]]; [apply andb_false_r | done]. }
  (* the gates between B and A *)
  destruct (resolve_from_inv circuit W T mid (preB ++ [(B, gB)]) ((A, gA) :: postA) st2)
    as (st3 & R3 & I3 & M3).
  { rewrite Ec. by rewrite <- app_assoc. }
  { done. }
  (* A itself *)
  destruct (resolve_gate_inv circuit ((preB ++ [(B, gB)]) ++ mid) A gA postA st3 W T)
    as (st4 & R4 & I4 & M4 & K4).
  { rewrite Ec. by rewrite <- !app_assoc. }
  { done. }
  specialize (K4 B gC PA IA). rewrite (M3 _ _ CB) in K4. simpl in K4.
  specialize (K4 EC).
  assert (canonical st4 !! A = Some C) as CA.
  { apply K4. destruct Hout as [->|[-> _]]; [apply andb_false_r | done]. }
  (* the gates after A *)
  destruct (resolve_from_inv circuit W T postA (((preB ++ [(B, gB)]) ++ mid) ++ [(A, gA)]) [] st4)
    as (st5 & R5 & I5 & M5).
  { rewrite Ec, app_nil_r. by rewrite <- !app_assoc. }
  { done. }
  exists st5. split; [|split; [|split]].
  - assert (circuit.*2 = preB.*2 ++ gB :: mid.*2 ++ gA :: postA.*2) as E2.
    { rewrite Ec, fmap_app. simpl. by rewrite fmap_app. }
    unfold resolve. rewrite E2.
    rewrite (resolve_from_app _ _ _ _ _ R1). simpl. rewrite R2.
    rewrite (resolve_from_app _ _ _ _ _ R3). simpl.
    by rewrite R4.
  - by apply M5.
  - by apply M5, M4, M3.
  - intros g Hg. destruct I5 as [_ Ip]. destruct (Ip g Hg) as [_ N].
    split; intros E; rewrite E in N.
    + rewrite (M5 _ _ CA) in N. done.
    + rewrite (M5 _ _ (M4 _ _ (M3 _ _ CB))) in N. done.
Qed.

Lemma passthru_chain_resolves_witness :
  exists r,
    resolve (circuit_of chain_lines) = Done r /\
    canonical r !! 5 = Some 3 /\ canonical r !! 4 = Some 3 /\
    forall g, g ∈ pruned r -> wire g <> 5 /\ wire g <> 4.
Proof.
  apply (passthru_chain_resolves (circuit_of chain_lines) 5 4 3
           (mkGate false true 5 (Some 1) (PyInts [0; 1]) (PyInts [4]) None)
           (mkGate false false 4 (Some 1) (PyInts [0; 1]) (PyInts [3]) None)
           (mkGate false false 3 (Some 2) (PyInts [0; 0; 0; 1]) (PyInts [2]) None)).
  - exists chain_lines, []. vm_compute. reflexivity.
  - vm_compute. reflexivity.
  - vm_compute. reflexivity.
  - vm_compute. reflexivity.
  - vm_compute. reflexivity.
  - reflexivity.
  - reflexivity.
  - reflexivity.
  - reflexivity.
  - reflexivity.
  - by left.
Defined.

(** C2 as stated fails on the resolver of section 4.5: when B and C are
    both outputs, step 2b keeps B, so B stays in the pruned list with no
    entry in the canonical map, and A is mapped to B. *)
Lemma passthru_chain_counterexample :
  assembled (circuit_of output_chain_lines) /\
  in_file_order (circuit_of output_chain_lines) = true /\
  (exists gA gB gC,
     od_get 5 (circuit_of output_chain_lines) = Some gA /\
     od_get 4 (circuit_of output_chain_lines) = Some gB /\
     od_get 3 (circuit_of output_chain_lines) = Some gC /\
     Gate.is_passthru gA = true /\ inputs gA = PyInts [4] /\
     Gate.is_passthru gB = true /\ inputs gB = PyInts [3] /\
     is_general gC = true) /\
  ~ exists r,
      resolve (circuit_of output_chain_lines) = Done r /\
      canonical r !! 5 = Some 3 /\ canonical r !! 4 = Some 3 /\
      forall g, g ∈ pruned r -> wire g <> 5 /\ wire g <> 4.
Proof.
  split; [exists output_chain_lines, []; vm_compute; reflexivity|].
  split; [vm_compute; reflexivity|].
  split.
  - eexists _, _, _. repeat split; vm_compute; reflexivity.
  - intros (r & R & _ & H4 & _).
    vm_compute in R. injection R as <-. vm_compute in H4. discriminate.
Qed.

(** The order of the lines matters as well: with A's line ahead of B's the
    single pass maps A to B, B to C, and stops there. *)
Lemma passthru_chain_out_of_order :
  assembled (circuit_of forward_chain_lines) /\
  in_file_order (circuit_of forward_chain_lines) = false /\
  exists r,
    resolve (circuit_of forward_chain_lines) = Done r /\
    canonical r !! 5 = Some 4 /\ canonical r !! 4 = Some 3.
Proof.
  split; [exists forward_chain_lines, []; vm_compute; reflexivity|].
  split; [vm_compute; reflexivity|].
  eexists. split; [vm_compute; reflexivity|].
  split; vm_compute; reflexivity.
Qed.

(** * More on the gate reader *)

(** ** Numerals are read as natural numbers *)

Lemma digit_val_nonneg a : is_digit a = true -> 0 <= digit_val a.
Proof.
  unfold is_digit, digit_val. intros [H _]%andb_true_iff.
  apply N.leb_le in H. lia.
Qed.

Lemma py_int_nonneg t k : py_int t = Some k -> 0 <= k.
Proof.
  unfold py_int. destruct t as [|a t]; [done|].
  destruct (forallb is_digit (a :: t)) eqn:F; [|done].
  destruct (Z.of_nat (length (a :: t)) <=? int_max_str_digits); [|done].
  intros [= <-].
  assert (forall l acc, forallb is_digit l = true -> 0 <= acc ->
            0 <= fold_left (fun acc a => 10 * acc + digit_val a) l acc) as H.
  { induction l as [|x l IH]; intros acc Fl Hacc; simpl; [done|].
    simpl in Fl. apply andb_true_iff in Fl as [Fx Fl].
    apply IH; [done|]. pose proof (digit_val_nonneg x Fx). lia. }
  apply (H (a :: t) 0); [done | lia].
Qed.

Lemma ints_nonneg l zs : ints l = Some zs -> Forall (fun z => 0 <= z) zs.
Proof.
  revert zs. induction l as [|t l IH]; intros zs H; simpl in H.
  - injection H as <-. constructor.
  - destruct (py_int t) as [n|] eqn:E; [|done].
    destruct (ints l) as [zs'|]; [|done]. injection H as <-.
    constructor; [by eapply py_int_nonneg | by apply IH].
Qed.

(** ** What a group holds is text its body matches *)

Lemma matches_caps_body n0 r s c s' c' :
  matches n0 r s c s' c' ->
  forall g, c' !! g = c !! g \/
    exists t rg s1 ca cb, c' !! g = Some t /\ (g, rg) ∈ groups r /\
      matches n0 rg (t ++ s1) ca s1 cb.
Proof.
  induction 1 as [p a s c Hp|l s c|r1 r2 s c s1 c1 s2 c2 _ IH1 _ IH2
    |r1 r2 s c s' c' _ IH|r1 r2 s c s' c' _ IH|r s c
    |r s c s1 c1 s2 c2 _ IH1 _ _ IH2|g0 r s c s1 c1 Hm IH|s c|s c];
    intros g; try (by left).
  - destruct (IH2 g) as [E2|(t & rg & sa & ca & cb & E & I & M)].
    + destruct (IH1 g) as [E1|(t & rg & sa & ca & cb & E & I & M)].
      * left. congruence.
      * right. exists t, rg, sa, ca, cb. rewrite E2. split; [done|].
        split; [|done]. simpl. apply elem_of_app. by left.
    + right. exists t, rg, sa, ca, cb. split; [done|]. split; [|done].
      simpl. apply elem_of_app. by right.
  - destruct (IH g) as [E|(t & rg & sa & ca & cb & E & I & M)]; [by left|].
    right. exists t, rg, sa, ca, cb. split; [done|]. split; [|done].
    simpl. apply elem_of_app. by left.
  - destruct (IH g) as [E|(t & rg & sa & ca & cb & E & I & M)]; [by left|].
    right. exists t, rg, sa, ca, cb. split; [done|]. split; [|done].
    simpl. apply elem_of_app. by right.
  - destruct (IH2 g) as [E2|(t & rg & sa & ca & cb & E & I & M)].
    + destruct (IH1 g) as [E1|(t & rg & sa & ca & cb & E & I & M)].
      * left. congruence.
      * right. exists t, rg, sa, ca, cb. by rewrite E2.
    + right. by exists t, rg, sa, ca, cb.
  - destruct (decide (g0 = g)) as [->|Hne].
    + right. rewrite lookup_insert_eq.
      pose proof Hm as (t & -> & F)%matches_split.
      exists t, r, s1, c, c1. rewrite take_consumed.
      split; [done|]. split; [simpl; by left | done].
    + rewrite lookup_insert_ne by done.
      destruct (IH g) as [E|(t & rg & sa & ca & cb & E & I & M)]; [by left|].
      right. exists t, rg, sa, ca, cb. split; [done|]. split; [|done].
      simpl. by right.
Qed.

(** ** One wire and one space *)

Lemma split_aux_digits d : forall cur rest,
  Forall (fun a => is_digit a = true) d ->
  split_aux cur (d ++ rest) = split_aux (rev d ++ cur) rest.
Proof.
  induction d as [|a d IH]; intros cur rest F; simpl; [done|].
  apply Forall_cons in F as [Ha F].
  rewrite (digit_not_space a Ha), IH by done.
  by rewrite <- app_assoc.
Qed.

Lemma split_wire_round d a :
  numeral d -> py_isspace a = true -> split (d ++ [a]) = [d].
Proof.
  intros [N F] Ha. unfold split. rewrite split_aux_digits by done.
  simpl. rewrite Ha, app_nil_r.
  destruct (rev d) as [|x y] eqn:E.
  - apply (f_equal (@rev ascii)) in E. rewrite rev_involutive in E. done.
  - rewrite <- E. by rewrite rev_involutive.
Qed.

Lemma wire_round_text n0 t s1 ca cb :
  matches n0 (digits ~> ws) (t ++ s1) ca s1 cb ->
  exists d a, t = d ++ [a] /\ numeral d /\ py_isspace a = true.
Proof.
  intros H. inv_matches.
  match goal with
  | H : matches _ digits _ _ _ _ |- _ =>
      pose proof H as (d & E & F)%matches_split;
      apply matches_progress in H; [|reflexivity]
  end.
  match goal with
  | H : matches _ ws _ _ _ _ |- _ => unfold ws in H; invc H
  end.
  exists d, a. split; [|split; [split|done]].
  - apply (app_inv_tail s1). by rewrite <- app_assoc.
  - intros ->. simpl in E. rewrite E in *. lia.
  - eapply Forall_impl; [exact F|]. simpl. tauto.
Qed.

Lemma gate_inputs_single s m i :
  re_match RE_GATE_LINE s = Some m -> m !! "inputs" = Some i ->
  exists d a, i = d ++ [a] /\ numeral d /\ py_isspace a = true.
Proof.
  intros [s' Hm]%re_match_matches E.
  destruct (matches_caps_body _ _ _ _ _ _ Hm "inputs")
    as [E'|(t & rg & s1 & ca & cb & E' & I & M)];
    rewrite E in E'; [by rewrite lookup_empty in E'|].
  injection E' as <-.
  unfold RE_GATE_LINE, lit, Opt, Plus in I. simpl in I.
  pick_group I; by eapply wire_round_text.
Qed.

(** ** The outcomes of Gate.from_line *)

(** Gate.from_line returns None after a report, returns a gate in silence,
    or raises a ValueError in silence. *)
Lemma from_line_cases (line : str) (lineno : Z) :
  (exists o, Gate.from_line line lineno = (o, Return None)) \/
  (exists g, Gate.from_line line lineno = ([], Return (Some g))) \/
  Gate.from_line line lineno = ([], Raise ValueError).
Proof.
  destruct (Gate.from_line line lineno) as [o [[g|]|e]] eqn:R.
  - right. left. exists g.
    pose proof (from_line_Some _ _ _ _ R lineno) as R'. congruence.
  - left. by exists o.
  - right. right. by apply from_line_raise in R as [-> ->].
Qed.

Lemma from_line_raise_long line lineno out e :
  Gate.from_line line lineno = (out, Raise e) -> ~ no_long_numeral line.
Proof.
  intros H N.
  destruct (from_line_no_raise line lineno (no_long_numeral_strip _ N))
    as (o & r & R).
  congruence.
Qed.

(** X1: Gate.from_line raises nothing but a ValueError, which needs a run
    of more than 4300 digits in the line and comes with nothing printed.
    Otherwise it returns None after one of three reports (the line does not
    match, the arity is above 3, the table has not 2^arity entries) or
    returns a gate and prints nothing. *)
Theorem gate_from_line_outcomes (line : str) (lineno : Z) :
  (re_match RE_GATE_LINE (strip line) = None /\
   Gate.from_line line lineno
     = (malformed_report lineno (strip line), Return None)) \/
  (exists a, 3 < a /\
     Gate.from_line line lineno
       = (arity_report lineno (strip line) a, Return None)) \/
  (exists a n, 0 <= a <= 3 /\ n <> 2 ^ a /\
     Gate.from_line line lineno
       = (table_report lineno (strip line) a n, Return None)) \/
  (exists g, Gate.from_line line lineno = ([], Return (Some g))) \/
  (~ no_long_numeral line /\
   Gate.from_line line lineno = ([], Raise ValueError)).
Proof.
  destruct (re_match RE_GATE_LINE (strip line)) as [m|] eqn:E;
    [|left; split; [done | by apply from_line_nomatch]].
  right. destruct (m !! "arity") as [a|] eqn:Ea.
  - destruct (from_line_gate line lineno m a E Ea)
      as (wt & t & i & _ & _ & _ & _ & _ & _ & _ & R).
    destruct (py_int wt) as [w|] eqn:Ew;
      [|do 3 right; split; [by eapply from_line_raise_long | exact R]].
    destruct (py_int a) as [k|] eqn:Ek;
      [|do 3 right; split; [by eapply from_line_raise_long | exact R]].
    apply py_int_nonneg in Ek.
    destruct (Z.ltb_spec k 0); [lia|]. destruct (Z.gtb_spec k 3); simpl in R.
    { left. exists k. split; [lia | done]. }
    destruct (ints (split t)) as [tl|] eqn:Etl;
      [|do 3 right; split; [by eapply from_line_raise_long | exact R]].
    destruct (ints (split i)) as [il|] eqn:Eil;
      [|do 3 right; split; [by eapply from_line_raise_long | exact R]].
    right. rewrite Z.shiftl_1_l in R.
    destruct (Z.eqb_spec (Z.of_nat (length tl)) (2 ^ k)); simpl in R.
    + right. left. by eexists.
    + left. exists k, (Z.of_nat (length tl)). split; [lia | done].
  - destruct (gate_match_shape _ _ E) as [_ [(_ & (a & Ea' & _) & _)|(Ei & _)]];
      [congruence|].
    destruct (from_line_input line lineno m E Ei) as (wt & _ & _ & R).
    do 2 right.
    destruct (py_int wt) as [w|] eqn:Ew;
      [left; by eexists | right; split; [by eapply from_line_raise_long | exact R]].
Qed.

(** X2: a gate that Gate.from_line returns has a wire that is not negative.
    For a primary input it is not an output; otherwise its arity is between
    0 and 3 and, whatever the arity, its inputs hold one wire only. *)
Theorem returned_gate_shape (line : str) (lineno : Z) (out : stdout)
    (g : GateStruct) :
  Gate.from_line line lineno = (out, Return (Some g)) ->
  0 <= wire g /\
  ((is_input g = true /\ is_output g = false) \/
   (is_input g = false /\
    exists k w, arity g = Some k /\ 0 <= k <= 3 /\
                inputs g = PyInts [w] /\ 0 <= w)).
Proof.
  intros H.
  destruct (re_match RE_GATE_LINE (strip line)) as [m|] eqn:E;
    [|by rewrite from_line_nomatch in H].
  destruct (m !! "arity") as [a|] eqn:Ea.
  - destruct (from_line_gate line lineno m a E Ea)
      as (wt & t & i & Ew & _ & _ & _ & _ & Ei & _ & R).
    rewrite R in H.
    destruct (py_int wt) as [w|] eqn:Ew'; [|done].
    destruct (py_int a) as [k|] eqn:Ek; [|done].
    destruct (Z.ltb_spec k 0); [simpl in H; done|].
    destruct (Z.gtb_spec k 3); [simpl in H; done|]. simpl in H.
    destruct (ints (split t)) as [tl|]; [|done].
    destruct (ints (split i)) as [il|] eqn:Eil; [|done].
    destruct (negb _); [done|]. simplify_eq. simpl.
    split; [by eapply py_int_nonneg|]. right. split; [done|].
    destruct (gate_inputs_single _ _ _ E Ei) as (d & sp & -> & Nd & Hsp).
    rewrite split_wire_round in Eil by done. simpl in Eil.
    destruct (py_int d) as [x|] eqn:Ed; [|done]. injection Eil as <-.
    exists k, x. repeat split; [lia | lia | by eapply py_int_nonneg].
  - destruct (gate_match_shape _ _ E) as [_ [(_ & (a & Ea' & _) & _)|(Ei & _)]];
      [congruence|].
    destruct (from_line_input line lineno m E Ei) as (wt & Ew & _ & R).
    rewrite R in H. destruct (py_int wt) as [w|] eqn:Ew'; [|done].
    simplify_eq. simpl.
    split; [by eapply py_int_nonneg|]. by left.
Qed.

Lemma returned_gate_shape_witness :
  Gate.from_line (chars "9 output gate arity 2 table [ 0 1 1 0 ] inputs [ 3 4 ]") 0
    = ([], Return (Some (mkGate false true 9 (Some 2) (PyInts [0; 1; 1; 0])
                           (PyInts [4]) None))) /\
  exists k w,
    arity (mkGate false true 9 (Some 2) (PyInts [0; 1; 1; 0]) (PyInts [4]) None)
      = Some k /\ 0 <= k <= 3 /\
    inputs (mkGate false true 9 (Some 2) (PyInts [0; 1; 1; 0]) (PyInts [4]) None)
      = PyInts [w] /\ 0 <= w.
Proof.
  split; [vm_compute; reflexivity|].
  destruct (returned_gate_shape
              (chars "9 output gate arity 2 table [ 0 1 1 0 ] inputs [ 3 4 ]") 0 []
              (mkGate false true 9 (Some 2) (PyInts [0; 1; 1; 0]) (PyInts [4]) None))
    as [_ [[E _]|[_ H]]]; [vm_compute; reflexivity | discriminate E | exact H].
Defined.

(** * More on parse_gates *)

Lemma from_line_result_lineno line n n' :
  snd (Gate.from_line line n) = snd (Gate.from_line line n').
Proof.
  destruct (re_match RE_GATE_LINE (strip line)) as [m|] eqn:E;
    [|by rewrite !from_line_nomatch].
  destruct (m !! "arity") as [a|] eqn:Ea.
  - destruct (from_line_gate line n m a E Ea)
      as (wt & t & i & Ew & _ & _ & Et & _ & Ei & _ & R).
    destruct (from_line_gate line n' m a E Ea)
      as (wt' & t' & i' & Ew' & _ & _ & Et' & _ & Ei' & _ & R').
    rewrite R, R'. simplify_eq. repeat case_match; done.
  - destruct (gate_match_shape _ _ E) as [_ [(_ & (a & Ea' & _) & _)|(Ei & _)]];
      [congruence|].
    destruct (from_line_input line n m E Ei) as (wt & Ew & _ & R).
    destruct (from_line_input line n' m E Ei) as (wt' & Ew' & _ & R').
    rewrite R, R'. simplify_eq. by case_match.
Qed.

(** A ValueError does not depend on the line number either. *)
Lemma from_line_raise_lineno line n n' :
  Gate.from_line line n = ([], Raise ValueError) ->
  Gate.from_line line n' = ([], Raise ValueError).
Proof.
  intros R. pose proof (from_line_result_lineno line n n') as S.
  rewrite R in S. destruct (Gate.from_line line n') as [o r] eqn:R'.
  simpl in S. subst r. by apply from_line_raise in R' as [-> _].
Qed.

Lemma parse_gates_from_error l rest n ws :
  strip l <> [] -> Gate.from_line l n = ([], Raise ValueError) ->
  parse_gates_from n ws (l :: rest) = ([], Raise ValueError).
Proof.
  intros Hn H. simpl. destruct (strip l) as [|a s] eqn:E; [done|].
  by rewrite <- E, from_line_strip, H.
Qed.

Lemma parse_gates_from_bad l rest n ws o :
  strip l <> [] -> Gate.from_line l n = (o, Return None) ->
  parse_gates_from n ws (l :: rest) = (o, Return (OInt 2)).
Proof.
  intros Hn H. simpl. destruct (strip l) as [|a s] eqn:E; [done|].
  rewrite <- E, from_line_strip, H. simpl. by rewrite app_nil_r.
Qed.

Lemma keyed_keys gs : (keyed <$> gs).*1 = wire <$> gs.
Proof.
  induction gs as [|g gs IH]; [done|]. rewrite !fmap_cons. simpl. by rewrite IH.
Qed.

Lemma line_gates_blank l rest :
  strip l = [] -> line_gates (l :: rest) = line_gates rest.
Proof. intros E. simpl. by rewrite E. Qed.

Lemma line_gates_gate l rest n o g :
  Gate.from_line l n = (o, Return (Some g)) ->
  line_gates (l :: rest) = cons g <$> line_gates rest.
Proof.
  intros R. simpl.
  destruct (strip l) as [|a s] eqn:E; [by eapply blank_not_gate in R|].
  by rewrite (from_line_Some _ _ _ _ R 0).
Qed.

(** Where parse_gates stops: the lines before that place have given the
    gates [gs], of distinct wires. *)
Lemma parse_gates_from_stop lines : forall n gs0,
  NoDup (wire <$> gs0) ->
  (exists j l o gs, lines !! j = Some l /\ strip l <> [] /\
     line_gates (take j lines) = Some gs /\ NoDup (wire <$> (gs0 ++ gs)) /\
     Gate.from_line l (n + Z.of_nat j) = (o, Return None) /\
     parse_gates_from n (keyed <$> gs0) lines = (o, Return (OInt 2))) \/
  (exists j l g gs, lines !! j = Some l /\
     line_gates (take j lines) = Some gs /\ NoDup (wire <$> (gs0 ++ gs)) /\
     Gate.from_line l (n + Z.of_nat j) = ([], Return (Some g)) /\
     wire g ∈ wire <$> (gs0 ++ gs) /\
     parse_gates_from n (keyed <$> gs0) lines
       = (duplicate_report (n + Z.of_nat j) (strip l) (wire g), Return (OInt 3))) \/
  (exists j l gs, lines !! j = Some l /\ strip l <> [] /\
     line_gates (take j lines) = Some gs /\ NoDup (wire <$> (gs0 ++ gs)) /\
     Gate.from_line l (n + Z.of_nat j) = ([], Raise ValueError) /\
     parse_gates_from n (keyed <$> gs0) lines = ([], Raise ValueError)) \/
  (exists c, parse_gates_from n (keyed <$> gs0) lines = ([], Return (OGates c))).
Proof.
  induction lines as [|l rest IH]; intros n gs0 ND.
  { do 3 right. by eexists. }
  destruct (decide (strip l = [])) as [Hb|Hnb].
  { rewrite parse_gates_from_blank by done.
    destruct (IH (n + 1) gs0 ND)
      as [(j & l0 & o & gs & Hl & Hn & Hg & ND' & Hf & R)
         |[(j & l0 & g & gs & Hl & Hg & ND' & Hf & Hw & R)
          |[(j & l0 & gs & Hl & Hn & Hg & ND' & Hf & R)|[c R]]]].
    - left. exists (S j), l0, o, gs.
      replace (n + Z.of_nat (S j)) with (n + 1 + Z.of_nat j) by lia.
      simpl take. by rewrite line_gates_blank.
    - right. left. exists (S j), l0, g, gs.
      replace (n + Z.of_nat (S j)) with (n + 1 + Z.of_nat j) by lia.
      simpl take. by rewrite line_gates_blank.
    - do 2 right. left. exists (S j), l0, gs.
      replace (n + Z.of_nat (S j)) with (n + 1 + Z.of_nat j) by lia.
      simpl take. by rewrite line_gates_blank.
    - do 3 right. by exists c. }
  destruct (from_line_cases l n) as [[o0 R]|[[g R]|R]].
  { left. exists 0%nat, l; eexists; exists [].
    rewrite app_nil_r. replace (n + Z.of_nat 0) with n by lia.
    repeat (split; [done|]). by eapply parse_gates_from_bad. }
  2: { do 2 right. left. exists 0%nat, l, [].
       rewrite app_nil_r. replace (n + Z.of_nat 0) with n by lia.
       repeat (split; [done|]). by apply parse_gates_from_error. }
  rewrite (parse_gates_from_gate _ rest _ _ _ R).
  unfold od_mem. rewrite keyed_keys. case_bool_decide as Hmem.
  { right. left. exists 0%nat, l, g, []. rewrite app_nil_r.
    replace (n + Z.of_nat 0) with n by lia. done. }
  rewrite od_set_new by (by rewrite keyed_keys).
  replace ((keyed <$> gs0) ++ [(wire g, g)]) with (keyed <$> (gs0 ++ [g]))
    by (by rewrite fmap_app).
  assert (NoDup (wire <$> (gs0 ++ [g]))) as ND1.
  { rewrite fmap_app. apply NoDup_app. split; [done|].
    split; [|apply NoDup_singleton].
    by intros x Hx ->%list_elem_of_singleton. }
  destruct (IH (n + 1) (gs0 ++ [g]) ND1)
    as [(j & l0 & o & gs & Hl & Hn & Hg & ND' & Hf & R')
       |[(j & l0 & g' & gs & Hl & Hg & ND' & Hf & Hw & R')
        |[(j & l0 & gs & Hl & Hn & Hg & ND' & Hf & R')|[c R']]]].
  - left. exists (S j), l0, o, (g :: gs).
    replace (n + Z.of_nat (S j)) with (n + 1 + Z.of_nat j) by lia.
    simpl take. rewrite (line_gates_gate _ _ _ _ _ R), Hg.
    rewrite <- app_assoc in ND'. done.
  - right. left. exists (S j), l0, g', (g :: gs).
    replace (n + Z.of_nat (S j)) with (n + 1 + Z.of_nat j) by lia.
    simpl take. rewrite (line_gates_gate _ _ _ _ _ R), Hg.
    rewrite <- app_assoc in ND', Hw. done.
  - do 2 right. left. exists (S j), l0, (g :: gs).
    replace (n + Z.of_nat (S j)) with (n + 1 + Z.of_nat j) by lia.
    simpl take. rewrite (line_gates_gate _ _ _ _ _ R), Hg.
    rewrite <- app_assoc in ND'. done.
  - do 3 right. by exists c.
Qed.

(** X3: parse_gates has four outcomes.  It returns 2 at the first line
    that is not blank and does not parse, after the report of Gate.from_line
    for that line; or 3 at the first line whose wire an earlier line
    defines, after the duplicate report; or it raises the ValueError of
    Gate.from_line at the first line that has a numeral too long for int,
    with nothing printed; or it returns the dictionary, with nothing
    printed.  In the first three cases the lines before that place parse,
    to gates of distinct wires.  It raises nothing else. *)
Theorem parse_gates_outcomes (lines : list str) :
  (exists j l o gs, lines !! j = Some l /\ strip l <> [] /\
     line_gates (take j lines) = Some gs /\ NoDup (wire <$> gs) /\
     Gate.from_line l (Z.of_nat j) = (o, Return None) /\
     parse_gates lines = (o, Return (OInt 2))) \/
  (exists j l g gs, lines !! j = Some l /\
     line_gates (take j lines) = Some gs /\ NoDup (wire <$> gs) /\
     Gate.from_line l (Z.of_nat j) = ([], Return (Some g)) /\
     wire g ∈ wire <$> gs /\
     parse_gates lines
       = (duplicate_report (Z.of_nat j) (strip l) (wire g), Return (OInt 3))) \/
  (exists j l gs, lines !! j = Some l /\ ~ no_long_numeral l /\
     line_gates (take j lines) = Some gs /\ NoDup (wire <$> gs) /\
     Gate.from_line l (Z.of_nat j) = ([], Raise ValueError) /\
     parse_gates lines = ([], Raise ValueError)) \/
  (exists c, parse_gates lines = ([], Return (OGates c))).
Proof.
  destruct (parse_gates_from_stop lines 0 [] ltac:(constructor))
    as [H|[H|[(j & l & gs & Hl & Hn & Hg & ND & Hf & R)|H]]].
  - by left.
  - right. by left.
  - do 2 right. left. exists j, l, gs.
    split; [done|]. split; [by eapply from_line_raise_long|]. done.
  - by do 3 right.
Qed.

Lemma parse_gates_from_success lines : forall n gs0 out c,
  NoDup (wire <$> gs0) ->
  parse_gates_from n (keyed <$> gs0) lines = (out, Return (OGates c)) <->
  out = [] /\
  exists gs, line_gates lines = Some gs /\ NoDup (wire <$> (gs0 ++ gs)) /\
             c = keyed <$> (gs0 ++ gs).
Proof.
  induction lines as [|l rest IH]; intros n gs0 out c ND.
  { simpl. unfold ret. split.
    - intros [= <- <-]. split; [done|]. exists []. by rewrite app_nil_r.
    - intros (-> & gs & [= <-] & _ & ->). by rewrite app_nil_r. }
  destruct (decide (strip l = [])) as [Hb|Hnb].
  { rewrite parse_gates_from_blank by done. simpl. rewrite Hb. by apply IH. }
  assert (line_gates (l :: rest) =
          match Gate.from_line l 0 with
          | (_, Return (Some g)) => cons g <$> line_gates rest
          | _ => None
          end) as ->.
  { simpl. by destruct (strip l). }
  destruct (from_line_cases l 0)
    as [[o0 R]|[[g R]|R]].
  1: rewrite R;
       pose proof (from_line_result_lineno l n 0) as S; rewrite R in S;
       destruct (Gate.from_line l n) as [o r] eqn:E; simpl in S; subst r;
       rewrite (parse_gates_from_bad _ _ _ _ _ Hnb E);
       split; [done | by intros (_ & gs & ? & _)].
  2: { rewrite R.
       rewrite (parse_gates_from_error _ _ _ _ Hnb (from_line_raise_lineno _ _ n R)).
       split; [done | by intros (_ & gs & ? & _)]. }
  rewrite R.
  rewrite (parse_gates_from_gate _ rest n _ _ (from_line_Some _ _ _ _ R n)).
  unfold od_mem. rewrite keyed_keys. case_bool_decide as Hmem.
  - split; [done|]. intros (_ & gs & Hgs & ND' & _). exfalso.
    destruct (line_gates rest) as [gs'|]; [|done]. injection Hgs as <-.
    rewrite fmap_app, fmap_cons in ND'.
    apply NoDup_app in ND' as (_ & ND' & _).
    apply (ND' _ Hmem). by left.
  - rewrite od_set_new by (by rewrite keyed_keys).
    replace ((keyed <$> gs0) ++ [(wire g, g)]) with (keyed <$> (gs0 ++ [g]))
      by (by rewrite fmap_app).
    rewrite IH.
    2: { rewrite fmap_app. apply NoDup_app. split; [done|].
         split; [|apply NoDup_singleton].
         by intros x Hx ->%list_elem_of_singleton. }
    split.
    + intros (-> & gs & Hgs & ND' & ->). split; [done|].
      exists (g :: gs). rewrite Hgs. rewrite <- app_assoc in ND' |- *. done.
    + intros (-> & gs & Hgs & ND' & ->). split; [done|].
      destruct (line_gates rest) as [gs'|]; [|done]. injection Hgs as <-.
      exists gs'. by rewrite <- app_assoc.
Qed.

(** X4: parse_gates returns a dictionary exactly when each line that is
    not blank parses and no two of them define the same wire; the dictionary
    then holds the gates of these lines, each under its wire, in file
    order, and nothing is printed. *)
Theorem parse_gates_success (lines : list str) (out : stdout)
    (c : list (Z * GateStruct)) :
  parse_gates lines = (out, Return (OGates c)) <->
  out = [] /\
  exists gs, line_gates lines = Some gs /\ NoDup (wire <$> gs) /\
             c = keyed <$> gs.
Proof. apply (parse_gates_from_success lines 0 []). constructor. Qed.

Lemma parse_gates_success_witness :
  exists gs, line_gates chain_lines = Some gs /\ NoDup (wire <$> gs) /\
             circuit_of chain_lines = keyed <$> gs.
Proof.
  apply (proj1 (parse_gates_success chain_lines [] (circuit_of chain_lines))).
  vm_compute. reflexivity.
Defined.

(** ** Blank lines and margins *)

Lemma parse_gates_from_result_lineno lines : forall n n' ws,
  snd (parse_gates_from n ws lines) = snd (parse_gates_from n' ws lines).
Proof.
  induction lines as [|l rest IH]; intros n n' ws; [done|].
  destruct (decide (strip l = [])) as [Hb|Hnb].
  { rewrite !parse_gates_from_blank by done. apply IH. }
  destruct (from_line_cases l n)
    as [[o0 R]|[[g R]|R]].
  1: pose proof (from_line_result_lineno l n' n) as S; rewrite R in S;
       destruct (Gate.from_line l n') as [o r] eqn:E; simpl in S; subst r;
       by rewrite (parse_gates_from_bad _ _ _ _ _ Hnb R),
                  (parse_gates_from_bad _ _ _ _ _ Hnb E).
  2: by rewrite (parse_gates_from_error _ _ _ _ Hnb R),
                (parse_gates_from_error _ _ _ _ Hnb (from_line_raise_lineno _ _ n' R)).
  rewrite (parse_gates_from_gate _ rest n _ _ R).
  rewrite (parse_gates_from_gate _ rest n' _ _ (from_line_Some _ _ _ _ R n')).
  destruct (od_mem (wire g) ws); [done | apply IH].
Qed.

(** X5: a blank line changes nothing of what parse_gates returns, wherever
    it stands.  (The reports carry line numbers and are not compared.) *)
Theorem blank_line_skipped (before after : list str) (b : str) :
  strip b = [] ->
  snd (parse_gates (before ++ b :: after)) = snd (parse_gates (before ++ after)).
Proof.
  intros Hb. unfold parse_gates. generalize 0 (@nil (Z * GateStruct)).
  induction before as [|l rest IH]; intros n ws.
  { simpl app. rewrite parse_gates_from_blank by done.
    apply parse_gates_from_result_lineno. }
  simpl app. destruct (decide (strip l = [])) as [Hl|Hnl].
  { rewrite !parse_gates_from_blank by done. apply IH. }
  destruct (from_line_cases l n)
    as [[o0 R]|[[g R]|R]].
  1: by rewrite !(parse_gates_from_bad _ _ _ _ _ Hnl R).
  2: by rewrite !(parse_gates_from_error _ _ _ _ Hnl R).
  rewrite !(parse_gates_from_gate _ _ n _ _ R).
  destruct (od_mem (wire g) ws); [done | apply IH].
Qed.

Lemma blank_line_skipped_witness :
  snd (parse_gates ([chars "1 input"] ++ chars "  " :: [chars "1 input"]))
  = snd (parse_gates ([chars "1 input"] ++ [chars "1 input"])).
Proof.
  apply (blank_line_skipped [chars "1 input"] [chars "1 input"] (chars "  ")).
  reflexivity.
Defined.

Lemma lstrip_spaces sp x :
  Forall (fun a => py_isspace a = true) sp -> lstrip (sp ++ x) = lstrip x.
Proof. induction 1 as [|a sp Ha _ IH]; simpl; [done|]. by rewrite Ha. Qed.

Lemma rstrip_spaces x sp :
  Forall (fun a => py_isspace a = true) sp -> rstrip (x ++ sp) = rstrip x.
Proof.
  intros F. unfold rstrip. rewrite rev_app_distr.
  by rewrite lstrip_spaces by (by apply Forall_rev).
Qed.

Lemma lstrip_app x y :
  lstrip (x ++ y) = match lstrip x with [] => lstrip y | z => z ++ y end.
Proof.
  induction x as [|a x IH]; simpl.
  - by destruct (lstrip y).
  - destruct (py_isspace a); [exact IH | done].
Qed.

Lemma strip_margins sp sp' line :
  Forall (fun a => py_isspace a = true) sp ->
  Forall (fun a => py_isspace a = true) sp' ->
  strip (sp ++ line ++ sp') = strip line.
Proof.
  intros F F'. unfold strip. rewrite lstrip_spaces by done.
  rewrite lstrip_app. destruct (lstrip line) as [|a z] eqn:E.
  - rewrite <- (app_nil_r sp'), lstrip_spaces by done. done.
  - by rewrite rstrip_spaces.
Qed.

(** X6: Gate.from_line strips the line first, so white space before and
    after it, the end of line included, changes neither what it returns nor
    what it prints: a report repeats the stripped line. *)
Theorem gate_line_margins_ignored (sp sp' line : str) (lineno : Z) :
  Forall (fun a => py_isspace a = true) sp ->
  Forall (fun a => py_isspace a = true) sp' ->
  Gate.from_line (sp ++ line ++ sp') lineno = Gate.from_line line lineno.
Proof.
  intros F F'. unfold Gate.from_line. by rewrite strip_margins.
Qed.

Lemma gate_line_margins_ignored_witness :
  Gate.from_line (chars "  " ++ chars "7 input" ++ [newline]) 2
  = Gate.from_line (chars "7 input") 2.
Proof.
  apply (gate_line_margins_ignored (chars "  ") [newline] (chars "7 input") 2).
  - by repeat constructor.
  - by repeat constructor.
Defined.

(** * More on the variable reader *)

Lemma not_char_neq c a : not_char c a = true -> a <> c.
Proof.
  unfold not_char, is_char. intros H%negb_true_iff%N.eqb_neq ->. done.
Qed.

Lemma var_name_text s m nm :
  re_match RE_VAR_LINE s = Some m -> m !! "name" = Some nm ->
  nm <> [] /\ Forall (fun a => a <> dquote) nm.
Proof.
  intros [s' Hm]%re_match_matches E.
  destruct (matches_caps _ _ _ _ _ _ Hm "name") as [E'|(t & rg & E' & I & F & N)];
    rewrite E in E'; [by rewrite lookup_empty in E'|].
  injection E' as <-.
  unfold RE_VAR_LINE, lit, Plus, digits, ws in I. simpl in I.
  pick_group I. split; [by apply N|].
  eapply Forall_impl; [exact F|]. simpl. intros a [H|H]; by apply not_char_neq.
Qed.

Lemma var_inputs_text s m ins :
  re_match RE_VAR_LINE s = Some m -> m !! "inputs" = Some ins ->
  exists d a u, ins = d ++ a :: u /\ numeral d /\ py_isspace a = true /\
                num_text u.
Proof.
  intros [s' Hm]%re_match_matches E.
  destruct (matches_caps_body _ _ _ _ _ _ Hm "inputs")
    as [E'|(t & rg & s1 & ca & cb & E' & I & M)];
    rewrite E in E'; [by rewrite lookup_empty in E'|].
  injection E' as <-.
  unfold RE_VAR_LINE, lit in I. simpl in I. pick_group I.
  unfold Plus in M. inv_matches.
  match goal with
  | H : matches _ digits _ _ _ _ |- _ =>
      pose proof H as (d & E1 & F)%matches_split;
      apply matches_progress in H; [|reflexivity]
  end.
  match goal with
  | H : matches _ ws _ _ _ _ |- _ => unfold ws in H; invc H
  end.
  match goal with
  | H : matches _ (Star _) _ _ _ _ |- _ =>
      pose proof H as (u & E2 & Fu)%matches_split
  end.
  subst. exists d, a, u. split; [|split; [split|split; [done|]]].
  - apply (app_inv_tail s1). rewrite E1. by rewrite <- app_assoc.
  - intros ->. simpl in E1. rewrite E1 in *. simpl in *. lia.
  - eapply Forall_impl; [exact F|]. simpl. tauto.
  - eapply Forall_impl; [exact Fu|]. simpl. tauto.
Qed.

Lemma split_aux_nonempty s : forall cur, cur <> [] -> split_aux cur s <> [].
Proof.
  induction s as [|a s IH]; intros cur N; simpl.
  - by destruct cur.
  - destruct (py_isspace a); [by destruct cur | by apply IH].
Qed.

Lemma split_strip_nonempty x s :
  py_isspace x = false -> split (strip (x :: s)) <> [].
Proof.
  intros Hx. unfold strip. simpl. rewrite Hx. rewrite rstrip_cons.
  assert (exists y, match rstrip s with [] => if py_isspace x then [] else [x]
                    | z => x :: z end = x :: y) as [y ->].
  { destruct (rstrip s); rewrite ?Hx; by eexists. }
  unfold split. simpl. rewrite Hx. by apply split_aux_nonempty.
Qed.

(** X7: Variable.from_line prints nothing and has three outcomes: an
    AttributeError when the line does not match; a ValueError when it
    matches and a wire is too long for int, which needs a run of more than
    4300 digits in the line; or a Variable whose party is Alice or Bob,
    whose type is integer, whose name is not empty and has no double quote,
    and whose wires are one or more numbers that are not negative. *)
Theorem variable_from_line_outcomes (line : str) (lineno : Z) :
  (re_match RE_VAR_LINE line = None /\
   Var.from_line line lineno = ([], Raise AttributeError)) \/
  (is_Some (re_match RE_VAR_LINE line) /\ ~ no_long_numeral line /\
   Var.from_line line lineno = ([], Raise ValueError)) \/
  (exists p nm ws,
     (p = chars "Alice" \/ p = chars "Bob") /\
     nm <> [] /\ Forall (fun a => a <> dquote) nm /\
     ws <> [] /\ Forall (fun z => 0 <= z) ws /\
     Var.from_line line lineno
       = ([], Return (mkVariable (Some p) (Some (chars "integer")) (Some nm) ws))).
Proof.
  destruct (re_match RE_VAR_LINE line) as [m|] eqn:E;
    [|left; split; [done | by apply var_from_line_nomatch]].
  right.
  destruct (var_match_shape _ _ E)
    as (p & d & nm & ins & tail & Hp & _ & _ & Ep & _ & En & Ei & _).
  destruct (var_from_line_match _ lineno _ E)
    as (p' & nm' & ins' & Ep' & En' & Ei' & Ni & R).
  assert (p' = p) as -> by congruence.
  destruct (ints (split (strip ins'))) as [ws|] eqn:Ews.
  2: { left. split; [done|]. split; [|done]. intros N.
       destruct (var_wires_convert _ _ _ E Ei' Ni N) as [ws Ews'].
       congruence. }
  right. exists p, nm', ws. split; [done|].
  destruct (var_name_text _ _ _ E En') as [Nn Fn].
  split; [done|]. split; [done|].
  split; [|split; [by eapply ints_nonneg | done]].
  destruct (var_inputs_text _ _ _ E Ei') as (dd & a & u & -> & [Nd Fd] & _ & _).
  apply ints_length in Ews. intros ->. simpl in Ews.
  destruct dd as [|x dd]; [done|]. apply Forall_cons in Fd as [Hx _].
  symmetry in Ews. apply length_zero_iff_nil in Ews.
  by apply (split_strip_nonempty x (dd ++ a :: u)); [apply digit_not_space|].
Qed.

(** ** Splitting on separators and on white space *)

Lemma split_prefix (P : ascii -> Prop) (t1 t2 r1 r2 : str) a b :
  Forall P t1 -> Forall P t2 -> ~ P a -> ~ P b ->
  t1 ++ a :: r1 = t2 ++ b :: r2 -> t1 = t2 /\ a = b /\ r1 = r2.
Proof.
  intros F1. revert t2. induction F1 as [|x t1 Hx _ IH]; intros t2 F2 Na Nb E.
  - destruct F2 as [|y t2 Hy _]; simpl in E; [by simplify_eq|].
    simplify_eq. done.
  - destruct F2 as [|y t2 Hy F2]; simpl in E; [simplify_eq; done|].
    injection E as -> E. by apply IH in E as (-> & -> & ->).
Qed.

Lemma split_aux_rstrip s : forall cur,
  split_aux cur (rstrip s) = split_aux cur s.
Proof.
  induction s as [|a s IH]; intros cur; [done|].
  rewrite rstrip_cons. destruct (rstrip s) as [|b y] eqn:E.
  - destruct (py_isspace a) eqn:Ha; simpl; rewrite Ha.
    + destruct cur; by rewrite <- IH.
    + by rewrite <- IH.
  - simpl. destruct (py_isspace a).
    + destruct cur; by rewrite <- IH.
    + by rewrite <- IH.
Qed.

Lemma split_lstrip s : split (lstrip s) = split s.
Proof.
  induction s as [|a s IH]; [done|]. simpl.
  destruct (py_isspace a) eqn:Ha; [|done].
  rewrite IH. unfold split. simpl. by rewrite Ha.
Qed.

(** Stripping before splitting changes nothing. *)
Lemma split_strip s : split (strip s) = split s.
Proof.
  unfold strip. rewrite <- (split_lstrip s). unfold split.
  apply split_aux_rstrip.
Qed.

Lemma spaced_cons t toks : spaced (t :: toks) = t ++ " "%char :: spaced toks.
Proof. unfold spaced. simpl. by rewrite <- app_assoc. Qed.

Lemma split_token t rest :
  numeral t -> split (t ++ " "%char :: rest) = t :: split rest.
Proof.
  intros [Nt Ft]. unfold split. rewrite split_aux_digits by done. simpl.
  rewrite app_nil_r. destruct (rev t) as [|x y] eqn:E.
  - apply (f_equal (@rev ascii)) in E. rewrite rev_involutive in E. done.
  - by rewrite <- E, rev_involutive.
Qed.

Lemma split_spaced toks : Forall numeral toks -> split (spaced toks) = toks.
Proof.
  induction 1 as [|t toks Ht _ IH]; [done|].
  by rewrite spaced_cons, split_token, IH.
Qed.

Lemma spaced_num_text toks : Forall numeral toks -> num_text (spaced toks).
Proof.
  induction 1 as [|t toks [Nt Ft] _ IH]; [constructor|].
  rewrite spaced_cons. apply Forall_app. split.
  - eapply Forall_impl; [exact Ft|]. simpl. tauto.
  - constructor; [by right | exact IH].
Qed.

(** ** Where the parts of a matched variable line sit *)

Lemma var_match_layout s m :
  re_match RE_VAR_LINE s = Some m ->
  exists p d nm sp ins s',
    (p = chars "Alice" \/ p = chars "Bob") /\
    (d = chars "input" \/ d = chars "output") /\
    s = p ++ chars " " ++ d ++ chars " " ++ chars "integer" ++ chars " " ++
        [dquote] ++ nm ++ [dquote] ++ chars " [" ++ sp ++ ins ++ chars "]" ++ s' /\
    Forall (fun a => py_isspace a = true) sp /\
    m !! "party" = Some p /\ m !! "name" = Some nm /\ m !! "inputs" = Some ins.
Proof.
  intros [s' Hm]%re_match_matches.
  unfold RE_VAR_LINE, lit in Hm. inv_matches.
  match goal with
  | H : matches _ (Plus (Chr _)) _ _ _ _ |- _ =>
      pose proof H as (nm & Enm & _)%matches_split
  end.
  match goal with
  | H : matches _ (Star ws) _ _ _ _ |- _ =>
      pose proof H as (sp & Esp & Fsp)%matches_split
  end.
  match goal with
  | H : matches _ (Plus (Group _ _)) _ _ _ _ |- _ =>
      pose proof H as (ins & Eins & _)%matches_split
  end.
  subst. inv_alts.
  all: match goal with
       | |- exists p d _ _ _ _, _ /\ _ /\ ?P ++ _ ++ ?D ++ _ = _ /\ _ =>
           exists P, D, nm, sp, ins, s'
       end.
  all: split; [first [by left | by right]|].
  all: split; [first [by left | by right]|].
  all: split; [reflexivity|].
  all: split; [eapply Forall_impl; [exact Fsp|]; by simpl|].
  all: repeat split; look; rewrite ?take_consumed; try done.
  all: by erewrite <- take_consumed.
Qed.

(** What Variable.from_line makes of a well-formed line. *)
Lemma var_line_read (p d nm sp junk : str) (toks : list str) (lineno : Z) :
  p = chars "Alice" \/ p = chars "Bob" ->
  d = chars "input" \/ d = chars "output" ->
  nm <> [] -> Forall (fun a => a <> dquote) nm ->
  Forall (fun a => py_isspace a = true) sp ->
  toks <> [] -> Forall numeral toks ->
  Var.from_line (var_line p d (chars "integer") (var_line_rest nm sp toks junk))
    lineno
    = match ints toks with
      | Some ws =>
          ([], Return (mkVariable (Some p) (Some (chars "integer")) (Some nm) ws))
      | None => ([], Raise ValueError)
      end.
Proof.
  intros Hp Hd Nn Fn Fs Nt Ft.
  destruct (var_line_matches
              (length (var_line p d (chars "integer") (var_line_rest nm sp toks junk)))
              p d nm sp toks junk) as [m0 Hm]; [done..|].
  destruct (rmatch_complete _ _ _ _ _ _ (fun _ c => Some c) Hm) as [m E];
    [by eexists|].
  fold (re_match RE_VAR_LINE
          (var_line p d (chars "integer") (var_line_rest nm sp toks junk))) in E.
  destruct (var_match_layout _ _ E)
    as (p' & d' & nm' & sp' & ins & s' & Hp' & Hd' & Es & Fs' & Ep & En & Ei).
  destruct (var_name_text _ _ _ E En) as [_ Fn'].
  destruct (var_inputs_text _ _ _ E Ei) as (dd & a & u & Eins & [Ndd Fdd] & Ha & Fu).
  destruct (var_from_line_match _ lineno _ E)
    as (p1 & nm1 & ins1 & Ep1 & En1 & Ei1 & _ & R).
  assert (p1 = p') as -> by congruence.
  assert (nm1 = nm') as -> by congruence.
  assert (ins1 = ins) as -> by congruence.
  rewrite var_line_rest_eq in Es. unfold var_line in Es.
  assert (spaceless p) as Sp by (destruct Hp as [-> | ->]; by repeat constructor).
  assert (spaceless d) as Sd by (destruct Hd as [-> | ->]; by repeat constructor).
  assert (spaceless p') as Sp' by (destruct Hp' as [-> | ->]; by repeat constructor).
  assert (spaceless d') as Sd' by (destruct Hd' as [-> | ->]; by repeat constructor).
  simpl in Es.
  apply token_split in Es as [<- Es]; [|done..].
  apply token_split in Es as [<- Es]; [|done..].
  apply (f_equal (drop 9)) in Es. simpl in Es.
  apply (split_prefix (fun c => c <> dquote)) in Es as (<- & _ & Es);
    [|done|done|by intros ?|by intros ?].
  apply (f_equal (drop 2)) in Es. simpl in Es.
  (* the spaces end where the first wire starts *)
  destruct toks as [|t toks]; [done|].
  pose proof Ft as Ft'. apply Forall_cons in Ft' as [[Nt' Ft1] _].
  destruct t as [|x t]; [done|]. apply Forall_cons in Ft1 as [Hx _].
  destruct dd as [|y dd]; [done|]. apply Forall_cons in Fdd as [Hy Fdd].
  rewrite spaced_cons in Es. rewrite Eins in Es. simpl in Es.
  rewrite <- !app_assoc in Es. simpl in Es.
  apply (split_prefix (fun c => py_isspace c = true)) in Es as (<- & <- & Es);
    [|done|done|by rewrite digit_not_space|by rewrite digit_not_space].
  (* the wires end at the closing bracket *)
  assert ((x :: t) ++ " "%char :: spaced toks = (x :: dd) ++ a :: u) as Eq.
  { assert (num_text (t ++ " "%char :: spaced toks)) as F1.
    { pose proof (spaced_num_text _ Ft) as F. rewrite spaced_cons in F.
      by apply Forall_cons in F as [_ F]. }
    assert (num_text (dd ++ a :: u)) as F2.
    { apply Forall_app. split.
      - eapply Forall_impl; [exact Fdd|]. simpl. tauto.
      - constructor; [by right | done]. }
    replace (t ++ " "%char :: spaced toks ++ "]"%char :: junk)
      with ((t ++ " "%char :: spaced toks) ++ "]"%char :: junk) in Es
      by (by rewrite <- app_assoc).
    replace (dd ++ a :: u ++ "]"%char :: s')
      with ((dd ++ a :: u) ++ "]"%char :: s') in Es
      by (by rewrite <- app_assoc).
    apply (split_prefix (fun c => is_digit c = true \/ py_isspace c = true))
      in Es as (Es & _ & _); [|done|done|by intros [?|?]|by intros [?|?]].
    simpl. by rewrite Es. }
  assert (split (strip ins) = (x :: t) :: toks) as Esp.
  { rewrite Eins, <- Eq, <- spaced_cons, split_strip, split_spaced; done. }
  by rewrite R, Esp.
Qed.

(** [int] converts a list of numerals exactly when none is too long. *)
Lemma ints_is_Some toks :
  Forall numeral toks -> is_Some (ints toks) <-> Forall short toks.
Proof.
  intros F. split.
  - intros [ws E]. by eapply ints_short.
  - intros S. destruct (ints_numerals toks F S) as (ws & E & _). by eexists.
Qed.

(** X8: a well-formed variable line whose wires have at most 4300 digits
    each comes back as written: the party and the name of the line, the
    type integer, and the wires of the list in their order, read as
    numbers.  With a longer wire Variable.from_line raises ValueError.  The
    input-or-output word, the spaces after the bracket and whatever follows
    the closing bracket leave no trace. *)
Theorem variable_line_round_trip (p d nm sp junk : str) (toks : list str)
    (lineno : Z) :
  p = chars "Alice" \/ p = chars "Bob" ->
  d = chars "input" \/ d = chars "output" ->
  nm <> [] -> Forall (fun a => a <> dquote) nm ->
  Forall (fun a => py_isspace a = true) sp ->
  toks <> [] -> Forall numeral toks ->
  Var.from_line (var_line p d (chars "integer") (var_line_rest nm sp toks junk))
    lineno
    = match ints toks with
      | Some ws =>
          ([], Return (mkVariable (Some p) (Some (chars "integer")) (Some nm) ws))
      | None => ([], Raise ValueError)
      end /\
  (is_Some (ints toks) <-> Forall short toks).
Proof.
  intros Hp Hd Nn Fn Fs Nt Ft.
  split; [by apply var_line_read | by apply ints_is_Some].
Qed.

Lemma variable_line_round_trip_witness :
  Var.from_line
    (var_line (chars "Bob") (chars "output") (chars "integer")
       (var_line_rest (chars "out.sum") (chars "  ")
          [chars "12"; chars "007"; chars "3"] (chars " // rest")))
    5
    = match ints [chars "12"; chars "007"; chars "3"] with
      | Some ws =>
          ([], Return (mkVariable (Some (chars "Bob")) (Some (chars "integer"))
                         (Some (chars "out.sum")) ws))
      | None => ([], Raise ValueError)
      end /\
  (is_Some (ints [chars "12"; chars "007"; chars "3"])
   <-> Forall short [chars "12"; chars "007"; chars "3"]).
Proof.
  apply (variable_line_round_trip (chars "Bob") (chars "output")
           (chars "out.sum") (chars "  ") (chars " // rest")
           [chars "12"; chars "007"; chars "3"] 5).
  - by right.
  - by right.
  - done.
  - repeat constructor; discriminate.
  - by repeat constructor.
  - done.
  - repeat constructor; discriminate.
Defined.

(** ** The type token *)

Lemma var_line_accepted p d nm sp toks junk lineno :
  p = chars "Alice" \/ p = chars "Bob" ->
  d = chars "input" \/ d = chars "output" ->
  nm <> [] -> Forall (fun a => a <> dquote) nm ->
  Forall (fun a => py_isspace a = true) sp ->
  toks <> [] -> Forall numeral toks ->
  Forall short toks ->
  exists v,
    Var.from_line (var_line p d (chars "integer") (var_line_rest nm sp toks junk))
      lineno = ([], Return v) /\
    type v = Some (chars "integer").
Proof.
  intros Hp Hd Nn Fn Fs Nt Ft St.
  destruct (ints_numerals toks Ft St) as (ws & E & _).
  eexists. rewrite var_line_read, E by done. done.
Qed.

(** C4, as amended: a variable line whose third token is [ty] is accepted
    only when [ty] is the word integer, a line that is well-formed with that
    word, its wires of at most 4300 digits each, is accepted, and the type
    field of the Variable is then that token. *)
Theorem type_token_must_be_integer (p d ty : str) (lineno : Z) :
  spaceless p -> spaceless d -> spaceless ty ->
  (forall rest out v,
     Var.from_line (var_line p d ty rest) lineno = (out, Return v) ->
     ty = chars "integer" /\ type v = Some ty) /\
  (forall nm sp toks junk,
     p = chars "Alice" \/ p = chars "Bob" ->
     d = chars "input" \/ d = chars "output" ->
     nm <> [] -> Forall (fun a => a <> dquote) nm ->
     Forall (fun a => py_isspace a = true) sp ->
     toks <> [] -> Forall numeral toks -> Forall short toks ->
     ty = chars "integer" ->
     exists v,
       Var.from_line (var_line p d ty (var_line_rest nm sp toks junk)) lineno
         = ([], Return v) /\
       type v = Some ty).
Proof.
  intros Sp Sd St. split.
  - intros rest out v H.
    destruct (re_match RE_VAR_LINE (var_line p d ty rest)) as [m|] eqn:E;
      [|by rewrite var_from_line_nomatch in H].
    destruct (var_match_shape _ _ E)
      as (p' & d' & nm & ins & tail & Hp & Hd & Es & _).
    destruct (var_from_line_match _ lineno _ E)
      as (p1 & nm1 & ins1 & _ & _ & _ & _ & R).
    rewrite R in H. destruct (ints (split (strip ins1))); [|done].
    simplify_eq. simpl.
    unfold var_line in Es. simpl in Es.
    assert (spaceless p') as Sp' by (destruct Hp as [-> | ->]; by repeat constructor).
    assert (spaceless d') as Sd' by (destruct Hd as [-> | ->]; by repeat constructor).
    apply token_split in Es as [-> Es]; [|done..].
    apply token_split in Es as [-> Es]; [|done..].
    apply (token_split ty (chars "integer") rest (dquote :: nm ++ dquote :: tail))
      in Es as [-> Es]; [done | done | by repeat constructor].
  - intros nm sp toks junk Hp Hd Nn Fn Fs Nt Ft Sh ->.
    by apply var_line_accepted.
Qed.

Lemma type_token_must_be_integer_witness :
  Var.from_line (sample_var_line "input" "integer") 4
    = ([], Return (mkVariable (Some (chars "Alice")) (Some (chars "integer"))
                     (Some (chars "x")) [1; 2])) /\
  type (mkVariable (Some (chars "Alice")) (Some (chars "integer"))
          (Some (chars "x")) [1; 2])
    = Some (chars "integer").
Proof.
  split; [vm_compute; reflexivity|].
  apply (proj1 (type_token_must_be_integer (chars "Alice") (chars "input")
                  (chars "integer") 4
                  ltac:(by repeat constructor) ltac:(by repeat constructor)
                  ltac:(by repeat constructor))
           (quoted (chars "x") ++ chars " [ 1 2 ]") []
           (mkVariable (Some (chars "Alice")) (Some (chars "integer"))
              (Some (chars "x")) [1; 2])).
  vm_compute; reflexivity.
Defined.

(** C4 as stated fails: with the type token boolean the line is not
    accepted. *)
Lemma type_token_counterexample :
  ~ exists out v,
      Var.from_line (sample_var_line "input" "boolean") 0 = (out, Return v).
Proof. intros (out & v & H). vm_compute in H. discriminate. Qed.

(** * More on parse_variables *)

(** ** Assignments to an OrderedDict *)

Section OrderedDictFacts.
Context {K V : Type} `{EqDecision K}.

Lemma od_set_fst (k : K) (v : V) (d : list (K * V)) :
  (od_set k v d).*1 = if decide (k ∈ d.*1) then d.*1 else d.*1 ++ [k].
Proof.
  induction d as [|[k' v'] d IH].
  - cbn [od_set fmap list_fmap fst app]. case_decide as H; [|done].
    by apply elem_of_nil in H.
  - cbn [od_set]. destruct (decide (k' = k)) as [->|Hne].
    + rewrite !fmap_cons. cbn [fst]. by rewrite decide_True by left.
    + rewrite !fmap_cons, IH. cbn [fst].
      destruct (decide (k ∈ d.*1)) as [Hin|Hin].
      * by rewrite decide_True by by right.
      * rewrite decide_False; [done|].
        intros [?|?]%elem_of_cons; [congruence | done].
Qed.

Lemma od_get_od_set (k k' : K) (v : V) (d : list (K * V)) :
  od_get k (od_set k' v d) = if decide (k' = k) then Some v else od_get k d.
Proof.
  induction d as [|[k0 v0] d IH]; cbn [od_set od_get].
  - destruct (decide (k' = k)); done.
  - destruct (decide (k0 = k')) as [->|Hne]; cbn [od_get].
    + destruct (decide (k' = k)); done.
    + destruct (decide (k0 = k)) as [->|Hne'].
      * by rewrite decide_False by congruence.
      * exact IH.
Qed.

Lemma first_occurrences_snoc (l : list K) (k : K) :
  first_occurrences (l ++ [k])
    = if decide (k ∈ l) then first_occurrences l else first_occurrences l ++ [k].
Proof.
  induction l as [|a l IH].
  - cbn [app first_occurrences]. case_decide as H; [|done].
    by apply elem_of_nil in H.
  - cbn [app first_occurrences]. rewrite IH.
    destruct (decide (k ∈ l)) as [Hin|Hin].
    + by rewrite decide_True by by right.
    + destruct (decide (a = k)) as [->|Hne].
      * rewrite decide_True by left.
        rewrite filter_app, filter_cons_False, filter_nil, app_nil_r; [done|].
        by intros ?.
      * rewrite decide_False by (intros [?|?]%elem_of_cons; [congruence | done]).
        rewrite filter_app, filter_cons_True, filter_nil; [done | congruence].
Qed.

Lemma first_occurrences_elem (l : list K) (k : K) :
  k ∈ first_occurrences l <-> k ∈ l.
Proof.
  induction l as [|a l IH]; simpl; [done|].
  rewrite !elem_of_cons, list_elem_of_filter, IH.
  destruct (decide (k = a)); intuition.
Qed.

Lemma first_occurrences_NoDup (l : list K) : NoDup (first_occurrences l).
Proof.
  induction l as [|a l IH]; simpl; [constructor|].
  constructor; [|by apply NoDup_filter].
  rewrite list_elem_of_filter. by intros [? _].
Qed.

End OrderedDictFacts.

(** ** parse_variables, one line at a time *)

Lemma var_from_line_cases line lineno :
  (re_match RE_VAR_LINE line = None /\
   Var.from_line line lineno = ([], Raise AttributeError)) \/
  (is_Some (re_match RE_VAR_LINE line) /\ ~ no_long_numeral line /\
   Var.from_line line lineno = ([], Raise ValueError)) \/
  (is_Some (re_match RE_VAR_LINE line) /\
   exists v, Var.from_line line lineno = ([], Return v)).
Proof.
  destruct (re_match RE_VAR_LINE line) as [m|] eqn:E.
  - right.
    destruct (var_from_line_match _ lineno _ E)
      as (p & nm & ins & _ & _ & Ei & Ni & R).
    destruct (ints (split (strip ins))) as [ws|] eqn:Ews.
    + right. split; [done|]. by eexists.
    + left. split; [done|]. split; [|done]. intros N.
      destruct (var_wires_convert _ _ _ E Ei Ni N) as [ws Ews']. congruence.
  - left. split; [done | by apply var_from_line_nomatch].
Qed.

Lemma parse_variables_from_blank l rest n d :
  strip l = [] ->
  parse_variables_from n d (l :: rest) = parse_variables_from (n + 1) d rest.
Proof. intros E. simpl. by rewrite E. Qed.

Lemma parse_variables_from_var l rest n d v :
  strip l <> [] -> Var.from_line (strip l) n = ([], Return v) ->
  parse_variables_from n d (l :: rest)
    = parse_variables_from (n + 1) (od_set (name v) v d) rest.
Proof.
  intros Hn R. simpl. destruct (strip l) as [|a s] eqn:E; [done|].
  rewrite R. simpl. by destruct (parse_variables_from _ _ rest).
Qed.

Lemma parse_variables_from_error l rest n d e :
  strip l <> [] -> Var.from_line (strip l) n = ([], Raise e) ->
  parse_variables_from n d (l :: rest) = ([], Raise e).
Proof.
  intros Hn R. simpl. destruct (strip l) as [|a s] eqn:E; [done|].
  by rewrite R.
Qed.

Lemma line_vars_blank l rest :
  strip l = [] -> line_vars (l :: rest) = line_vars rest.
Proof. intros E. simpl. by rewrite E. Qed.

Lemma line_vars_var l rest n v :
  strip l <> [] -> Var.from_line (strip l) n = ([], Return v) ->
  line_vars (l :: rest) = cons v <$> line_vars rest.
Proof.
  intros Hn R. simpl. destruct (strip l) as [|a s] eqn:E; [done|].
  change (Var.from_line (a :: s) 0) with (Var.from_line (a :: s) n).
  by rewrite R.
Qed.

Lemma line_vars_error l rest n e :
  strip l <> [] -> Var.from_line (strip l) n = ([], Raise e) ->
  line_vars (l :: rest) = None.
Proof.
  intros Hn R. simpl. destruct (strip l) as [|a s] eqn:E; [done|].
  change (Var.from_line (a :: s) 0) with (Var.from_line (a :: s) n).
  by rewrite R.
Qed.

(** parse_variables returns the dictionary of the variables of its lines,
    or passes on what Variable.from_line raises at the first line where it
    does. *)
Lemma parse_variables_from_cases lines : forall n d,
  (exists vs, line_vars lines = Some vs /\
     parse_variables_from n d lines = ([], Return (OVars (stored vs d)))) \/
  (exists j l vs e, lines !! j = Some l /\ strip l <> [] /\
     line_vars (take j lines) = Some vs /\
     Var.from_line (strip l) (n + Z.of_nat j) = ([], Raise e) /\
     parse_variables_from n d lines = ([], Raise e)).
Proof.
  induction lines as [|l rest IH]; intros n d.
  { left. by exists []. }
  destruct (decide (strip l = [])) as [Hb|Hnb].
  { rewrite parse_variables_from_blank, line_vars_blank by done.
    destruct (IH (n + 1) d) as [H|(j & l0 & vs & e & Hl & Hn & Hv & Hf & R)];
      [by left | right].
    exists (S j), l0, vs, e.
    replace (n + Z.of_nat (S j)) with (n + 1 + Z.of_nat j) by lia.
    simpl take. by rewrite line_vars_blank. }
  destruct (var_from_line_cases (strip l) n) as [[_ R]|[(_ & _ & R)|[_ [v R]]]].
  1,2: right; exists 0%nat, l, []; eexists;
       replace (n + Z.of_nat 0) with n by lia;
       repeat (split; [first [done | exact R]|]);
       by apply parse_variables_from_error.
  rewrite (parse_variables_from_var _ _ _ _ _ Hnb R),
          (line_vars_var _ _ _ _ Hnb R).
  destruct (IH (n + 1) (od_set (name v) v d))
    as [(vs & Hv & R')|(j & l0 & vs & e & Hl & Hn & Hv & Hf & R')].
  - left. exists (v :: vs). by rewrite Hv.
  - right. exists (S j), l0, (v :: vs), e.
    replace (n + Z.of_nat (S j)) with (n + 1 + Z.of_nat j) by lia.
    simpl take. by rewrite (line_vars_var _ _ _ _ Hnb R), Hv.
Qed.

Lemma line_vars_lines lines vs :
  line_vars lines = Some vs ->
  Forall (fun l => strip l = [] \/ is_Some (re_match RE_VAR_LINE (strip l))) lines.
Proof.
  revert vs. induction lines as [|l rest IH]; intros vs H; [constructor|].
  destruct (decide (strip l = [])) as [Hb|Hnb].
  { rewrite line_vars_blank in H by done. constructor; [by left | by eapply IH]. }
  destruct (var_from_line_cases (strip l) 0) as [[_ R]|[(_ & _ & R)|[Hm [v R]]]].
  1,2: by rewrite (line_vars_error _ _ _ _ Hnb R) in H.
  rewrite (line_vars_var _ _ _ _ Hnb R) in H.
  destruct (line_vars rest) as [vs'|] eqn:E; [|done].
  constructor; [by right | by eapply IH].
Qed.

Lemma parse_variables_outcomes_aux lines :
  (exists e, (e = AttributeError \/ e = ValueError) /\
     parse_variables lines = ([], Raise e)) \/
  (exists d, parse_variables lines = ([], Return (OVars d))).
Proof.
  destruct (parse_variables_from_cases lines 0 [])
    as [(vs & Hv & R)|(j & l & vs & e & Hl & Hn & Hv & Hf & R)];
    [right; by eexists | left].
  exists e. split; [|done].
  destruct (var_from_line_cases (strip l) (0 + Z.of_nat j))
    as [[_ R']|[(_ & _ & R')|[_ [v R']]]];
    rewrite R' in Hf; [left | right | done]; congruence.
Qed.

(** X9: parse_variables prints nothing.  It returns a dictionary when
    Variable.from_line returns a Variable for each line that is not blank,
    and otherwise passes on the exception of the first line where
    Variable.from_line raises: an AttributeError for a line that does not
    match the variable pattern, a ValueError for a line that matches and
    has a wire too long for int.  No line is reported and no line is
    skipped. *)
Theorem parse_variables_outcomes (lines : list str) :
  (exists j l vs, lines !! j = Some l /\ strip l <> [] /\
     line_vars (take j lines) = Some vs /\
     re_match RE_VAR_LINE (strip l) = None /\
     parse_variables lines = ([], Raise AttributeError)) \/
  (exists j l vs, lines !! j = Some l /\
     line_vars (take j lines) = Some vs /\
     is_Some (re_match RE_VAR_LINE (strip l)) /\ ~ no_long_numeral l /\
     parse_variables lines = ([], Raise ValueError)) \/
  (Forall (fun l => strip l = [] \/ is_Some (re_match RE_VAR_LINE (strip l))) lines /\
   exists d, parse_variables lines = ([], Return (OVars d))).
Proof.
  destruct (parse_variables_from_cases lines 0 [])
    as [(vs & Hv & R)|(j & l & vs & e & Hl & Hn & Hv & Hf & R)].
  { do 2 right. split; [by eapply line_vars_lines | by eexists]. }
  destruct (var_from_line_cases (strip l) (0 + Z.of_nat j))
    as [[Em R']|[(Em & N & R')|[_ [v R']]]].
  - left. exists j, l, vs. repeat (split; [done|]).
    rewrite R' in Hf. by injection Hf as <-.
  - right. left. exists j, l, vs. repeat (split; [done|]).
    split; [by intros N'%no_long_numeral_strip|].
    rewrite R' in Hf. by injection Hf as <-.
  - rewrite R' in Hf. done.
Qed.

(** ** What the dictionary of variables holds *)

Lemma stored_snoc vs v d :
  stored (vs ++ [v]) d = od_set (name v) v (stored vs d).
Proof. unfold stored. by rewrite foldl_app. Qed.

Lemma stored_keys vs :
  (stored vs []).*1 = first_occurrences (name <$> vs).
Proof.
  induction vs as [|v vs IH] using rev_ind; [done|].
  rewrite stored_snoc, od_set_fst, fmap_app, IH.
  change (name <$> [v]) with [name v]. rewrite first_occurrences_snoc.
  destruct (decide (name v ∈ name <$> vs)) as [Hin|Hin].
  - by rewrite decide_True by by apply first_occurrences_elem.
  - by rewrite decide_False by by rewrite first_occurrences_elem.
Qed.

Lemma stored_lookup vs k : od_get k (stored vs []) = last_named k vs.
Proof.
  unfold last_named.
  induction vs as [|v vs IH] using rev_ind; [done|].
  rewrite stored_snoc, od_get_od_set, filter_app, IH.
  destruct (decide (name v = k)) as [E|E].
  - rewrite filter_cons_True, filter_nil by done. by rewrite last_snoc.
  - rewrite filter_cons_False, filter_nil by done. by rewrite app_nil_r.
Qed.

(** X10: a variable name that is defined again is not an error.  The
    dictionary parse_variables returns has each name once, at the place of
    its first definition, and holds under a name the variable of the last
    line that defines it. *)
Theorem redefined_variable_last_wins (lines : list str) (out : stdout)
    (d : list (option str * VariableStruct)) :
  parse_variables lines = (out, Return (OVars d)) ->
  exists vs,
    line_vars lines = Some vs /\
    d.*1 = first_occurrences (name <$> vs) /\
    NoDup d.*1 /\
    forall k, od_get k d = last_named k vs.
Proof.
  unfold parse_variables.
  destruct (parse_variables_from_cases lines 0 [])
    as [(vs & Hv & ->)|(j & l & vs & e & _ & _ & _ & _ & ->)]; [|done].
  intros [= <- <-]. exists vs. split; [done|].
  split; [apply stored_keys|].
  split; [rewrite stored_keys; apply first_occurrences_NoDup|].
  intros k. apply stored_lookup.
Qed.

Lemma redefined_variable_last_wins_witness :
  exists vs,
    line_vars redefining_lines = Some vs /\
    (variables_of redefining_lines).*1 = first_occurrences (name <$> vs) /\
    NoDup (variables_of redefining_lines).*1 /\
    forall k, od_get k (variables_of redefining_lines) = last_named k vs.
Proof.
  apply (redefined_variable_last_wins redefining_lines []
           (variables_of redefining_lines)).
  vm_compute. reflexivity.
Defined.

(** * More on main *)

(** X11: what a run prints and how it exits.  With fewer than two
    arguments it prints the usage line and exits with 1.  Otherwise it
    exits with 1 when the gate file cannot be opened and when parse_gates
    raises its ValueError, with nothing printed; when the variable file
    cannot be opened and when parse_variables raises, after the reports of
    parse_gates; and in every other case it prints the reports of
    parse_gates, then what parse_gates returned, then the dictionary of
    variables, and exits with 0.  The exit status is never 2 or 3. *)
Theorem run_outcomes (files : str -> option (list str)) (args : list str) :
  ((length args < 2)%nat /\
   run files args
     = ([[OStr (chars "Usage: shdl2ethsnarks.py <file.circuit> <file.fmt>")]], 1))
  \/
  (exists arg0 arg1 rest,
     args = arg0 :: arg1 :: rest /\
     ((files arg0 = None /\ run files args = ([], 1))
      \/
      (exists gates,
         files arg0 = Some gates /\
         ((parse_gates gates = ([], Raise ValueError) /\
           run files args = ([], 1))
          \/
          (exists out o,
             parse_gates gates = (out, Return o) /\
             ((files arg1 = None /\ run files args = (out, 1))
              \/
              (exists vars,
                 files arg1 = Some vars /\
                 ((exists e,
                     (e = AttributeError \/ e = ValueError) /\
                     parse_variables vars = ([], Raise e) /\
                     run files args = (out, 1))
                  \/
                  (exists d,
                     parse_variables vars = ([], Return (OVars d)) /\
                     run files args = (out ++ [[o]; [OVars d]], 0)))))))))).
Proof.
  destruct args as [|arg0 [|arg1 rest]].
  - left. split; [simpl; lia | reflexivity].
  - left. split; [simpl; lia | reflexivity].
  - right. exists arg0, arg1, rest. split; [done|].
    unfold run, main, open.
    destruct (files arg0) as [gates|] eqn:E0; [right | by left].
    exists gates. split; [done|]. simpl.
    destruct (parse_gates gates) as [out [o|e]] eqn:Eg.
    2: { left. apply parse_gates_from_raise in Eg as [-> ->]. done. }
    right. exists out, o. split; [done|]. simpl.
    destruct (files arg1) as [vars|] eqn:E1; simpl;
      [right | left; split; [done | by rewrite app_nil_r]].
    exists vars. split; [done|].
    destruct (parse_variables_outcomes_aux vars)
      as [(e & He & ->)|(d & ->)]; simpl.
    + left. exists e. by rewrite ?app_nil_r.
    + right. eexists. split; [done|]. by rewrite ?app_nil_r.
Qed.

(** * Well-formed gate lines *)

Lemma RE_GATE_LINE_parts :
  RE_GATE_LINE =
    Bol ~> Group "wire" digits ~> lit " " ~>
    Group "2" (Alt re_gate_body (Group "is_input" (lit "input"))) ~>
    re_comment ~> Eol.
Proof. reflexivity. Qed.

(** ** Stripping a line that ends in a comment *)

Lemma rstrip_app_keep x a y :
  py_isspace a = false -> rstrip (x ++ a :: y) = x ++ a :: rstrip y.
Proof.
  intros Ha. induction x as [|b x IH]; simpl.
  - rewrite rstrip_cons. destruct (rstrip y); [by rewrite Ha | done].
  - rewrite rstrip_cons, IH. by destruct x.
Qed.

Lemma Forall_rstrip (P : ascii -> Prop) s : Forall P s -> Forall P (rstrip s).
Proof. intros F. unfold rstrip. by apply Forall_rev, Forall_lstrip, Forall_rev. Qed.

Lemma strip_trailer x a cm :
  match x with [] => py_isspace a = false | b :: _ => py_isspace b = false end ->
  py_isspace a = false ->
  strip ((x ++ [a]) ++ trailer cm)
    = (x ++ [a]) ++ trailer ((fun c => (fst c, rstrip (snd c))) <$> cm).
Proof.
  intros Hx Ha. unfold strip. rewrite lstrip_fixed.
  2: { destruct x; simpl; done. }
  destruct cm as [[sp text]|]; simpl.
  - rewrite <- !app_assoc. simpl.
    replace (x ++ a :: sp ++ "/"%char :: "/"%char :: text)
      with ((x ++ a :: sp ++ ["/"%char]) ++ "/"%char :: text)
      by (rewrite <- !app_assoc; simpl; by rewrite <- app_assoc).
    rewrite rstrip_app_keep by done.
    rewrite <- !app_assoc. simpl. by rewrite <- app_assoc.
  - rewrite !app_nil_r. by rewrite rstrip_app_keep.
Qed.

Lemma comment_kept sp text :
  Forall (fun a => py_isspace a = true) sp ->
  drop 2 (strip (sp ++ chars "//" ++ rstrip text)) = rstrip text.
Proof.
  intros F. unfold strip. rewrite lstrip_spaces by done. simpl.
  change ("/"%char :: "/"%char :: rstrip text)
    with (["/"%char] ++ "/"%char :: rstrip text).
  rewrite rstrip_app_keep by done.
  simpl. by rewrite rstrip_idemp.
Qed.

(** ** Splitting a list of wires *)

Lemma split_token_ws t a rest :
  numeral t -> py_isspace a = true -> split (t ++ a :: rest) = t :: split rest.
Proof.
  intros [Nt Ft] Ha. unfold split. rewrite split_aux_digits by done. simpl.
  rewrite Ha, app_nil_r. destruct (rev t) as [|x y] eqn:E.
  - apply (f_equal (@rev ascii)) in E. rewrite rev_involutive in E. done.
  - by rewrite <- E, rev_involutive.
Qed.

Lemma split_rounds ts : forall d a,
  Forall round ts -> numeral d -> py_isspace a = true ->
  last (split (concat ts ++ d ++ [a])) = Some d.
Proof.
  induction ts as [|t ts IH]; intros d a F Nd Ha; simpl.
  - by rewrite split_wire_round.
  - apply Forall_cons in F as [(d' & a' & -> & Nd' & Ha') F].
    rewrite <- !app_assoc. simpl. rewrite split_token_ws by done.
    specialize (IH d a F Nd Ha).
    destruct (split (concat ts ++ d ++ [a])); [done | exact IH].
Qed.

Lemma rounds_num_text ts i :
  Forall round ts -> round i -> num_text (concat ts ++ i).
Proof.
  assert (forall t, round t -> num_text t) as R.
  { intros t (d & a & -> & [_ Fd] & Ha). apply Forall_app. split.
    - eapply Forall_impl; [exact Fd|]. simpl. tauto.
    - constructor; [by right | constructor]. }
  intros F Hi. apply Forall_app. split; [|by apply R].
  induction F as [|t ts Ht _ IH]; simpl; [constructor|].
  apply Forall_app. split; [by apply R | exact IH].
Qed.

(** ** Where the parts of a matched gate line sit *)

Lemma matches_chr_inv n0 p s c s' c' :
  matches n0 (Chr p) s c s' c' -> exists a, s = a :: s' /\ p a = true /\ c' = c.
Proof. intros H. invc H. by eexists. Qed.

Lemma group_round n0 g s c s' c' :
  matches n0 (Group g (digits ~> ws)) s c s' c' ->
  exists t, s = t ++ s' /\ round t /\ c' !! g = Some t.
Proof.
  intros H. invc H.
  match goal with
  | H : matches _ (digits ~> ws) _ _ _ _ |- _ =>
      pose proof H as (t & -> & _)%matches_split;
      apply wire_round_text in H
  end.
  exists t. rewrite take_consumed, lookup_insert_eq. done.
Qed.

(** Of the rounds of a repeated group, the group holds the last. *)
Lemma star_rounds n0 g s c s' c' :
  matches n0 (Star (Group g (digits ~> ws))) s c s' c' ->
  (s = s' /\ c' = c) \/
  (exists ts i, s = concat ts ++ i ++ s' /\ Forall round ts /\ round i /\
                c' !! g = Some i).
Proof.
  remember (Star (Group g (digits ~> ws))) as R eqn:ER.
  induction 1 as [| | | | |r s c|r s c s1 c1 s2 c2 H1 _ _ _ IH2| | |];
    try discriminate; [by left|].
  injection ER as ->. right.
  apply group_round in H1 as (t & -> & Rt & Ct).
  destruct (IH2 eq_refl) as [[-> ->]|(ts & i & -> & Fts & Ri & Ci)].
  - by exists [], t.
  - exists (t :: ts), i. simpl. rewrite <- app_assoc. by repeat split; [constructor|..].
Qed.

Lemma plus_rounds n0 g s c s' c' :
  matches n0 (Plus (Group g (digits ~> ws))) s c s' c' ->
  exists ts i, s = concat ts ++ i ++ s' /\ Forall round ts /\ round i /\
               c' !! g = Some i.
Proof.
  unfold Plus. intros H. invc H.
  match goal with
  | H : matches _ (Group _ _) _ _ _ _ |- _ =>
      apply group_round in H as (t & -> & Rt & Ct)
  end.
  match goal with
  | H : matches _ (Star _) _ _ _ _ |- _ =>
      apply star_rounds in H as [[-> ->]|(ts & i & -> & Fts & Ri & Ci)]
  end.
  - by exists [], t.
  - exists (t :: ts), i. simpl. rewrite <- app_assoc. by repeat split; [constructor|..].
Qed.

Lemma comment_layout n0 s c s' c' :
  matches n0 re_comment s c s' c' ->
  exists cmt, s = cmt ++ s' /\
    ((cmt = [] /\ c' = c) \/
     (cmt <> [] /\ c' !! "comment" = Some cmt /\
      forall g, g <> "comment" -> c' !! g = c !! g)).
Proof.
  unfold re_comment, Opt. intros H. invc H.
  - match goal with H : matches _ (Group _ _) _ _ _ _ |- _ => invc H end.
    match goal with
    | H : matches _ (Seq _ _) _ _ _ _ |- _ =>
        pose proof H as (t & -> & _)%matches_split;
        pose proof (matches_progress _ _ _ _ _ _ H eq_refl) as L;
        pose proof (fun g => matches_frame _ _ _ _ _ _ g H) as Fr
    end.
    exists t. split; [done|]. right. rewrite take_consumed.
    split; [intros ->; simpl in L; lia|].
    split; [by rewrite lookup_insert_eq|].
    intros g Hg. rewrite lookup_insert_ne by done.
    apply Fr. simpl. apply not_elem_of_nil.
  - match goal with H : matches _ (Lit _) _ _ _ _ |- _ => invc H end.
    exists []. split; [done|]. by left.
Qed.

Lemma gate_body_layout n0 s c s' c' :
  matches n0 re_gate_body s c s' c' ->
  exists o a s1 tbl s2 ts i,
    s = o ++ chars "gate arity " ++ a ++ chars " table [" ++ s1 :: tbl ++
        chars "] inputs [" ++ s2 :: concat ts ++ i ++ chars "]" ++ s' /\
    ((o = [] /\ c' !! "is_output" = c !! "is_output") \/
     (o = chars "output " /\ c' !! "is_output" = Some o)) /\
    c' !! "arity" = Some a /\ c' !! "table" = Some tbl /\
    c' !! "inputs" = Some i /\
    Forall round ts /\ round i.
Proof.
  unfold re_gate_body, lit, Opt. intros H. inv_matches.
  match goal with
  | H : matches _ digits _ _ _ _ |- _ =>
      pose proof H as (a & Ea & _)%matches_split
  end.
  match goal with
  | H : matches _ (Plus (Group "6" _)) _ _ _ _ |- _ =>
      pose proof H as (tbl & Et & _)%matches_split
  end.
  match goal with
  | H : matches _ (Plus (Group "inputs" _)) _ _ _ _ |- _ =>
      pose proof H as (ts & i & Ei & Fts & Ri & Ci)%plus_rounds
  end.
  repeat match goal with
  | H : matches _ ws _ _ _ _ |- _ =>
      apply matches_chr_inv in H as (? & ? & ? & ?)
  end.
  subst. inv_alts.
  - exists (chars "output "). do 6 eexists. split; [reflexivity|].
    split; [right; split; [done|]; look; by rewrite ?take_consumed|].
    repeat split; look; rewrite ?take_consumed; try done.
  - exists []. do 6 eexists. split; [reflexivity|].
    split; [left; split; [done|]; by look|].
    repeat split; look; rewrite ?take_consumed; try done.
Qed.

Lemma matches_seq_inv n0 r1 r2 s c s' c' :
  matches n0 (Seq r1 r2) s c s' c' ->
  exists s1 c1, matches n0 r1 s c s1 c1 /\ matches n0 r2 s1 c1 s' c'.
Proof. intros H. invc H. by eexists _, _. Qed.

Lemma matches_group_inv n0 g r s c s' c' :
  matches n0 (Group g r) s c s' c' ->
  exists t c1, s = t ++ s' /\ matches n0 r (t ++ s') c s' c1 /\
               c' = <[g:=t]> c1.
Proof.
  intros H. invc H.
  match goal with
  | H : matches _ r _ _ _ _ |- _ => pose proof H as (t & -> & _)%matches_split
  end.
  exists t, c1. by rewrite take_consumed.
Qed.

Lemma matches_lit_inv n0 l s c s' c' :
  matches n0 (Lit l) s c s' c' -> s = l ++ s' /\ c' = c.
Proof. intros H. by invc H. Qed.

Lemma matches_alt_inv n0 r1 r2 s c s' c' :
  matches n0 (Alt r1 r2) s c s' c' ->
  matches n0 r1 s c s' c' \/ matches n0 r2 s c s' c'.
Proof. intros H. invc H; [by left | by right]. Qed.

Lemma matches_bol_inv n0 s c s' c' :
  matches n0 Bol s c s' c' -> s' = s /\ c' = c.
Proof. intros H. by invc H. Qed.

Lemma matches_eol_inv n0 s c s' c' :
  matches n0 Eol s c s' c' -> s' = s /\ c' = c /\ (s = [] \/ s = [newline]).
Proof. intros H. by invc H. Qed.

Lemma gate_match_layout s m :
  re_match RE_GATE_LINE s = Some m ->
  exists w body cmt tail,
    s = w ++ chars " " ++ body ++ cmt ++ tail /\
    (tail = [] \/ tail = [newline]) /\
    m !! "wire" = Some w /\
    ((cmt = [] /\ m !! "comment" = None) \/
     (cmt <> [] /\ m !! "comment" = Some cmt)) /\
    ((body = chars "input" /\ m !! "is_input" = Some (chars "input")) \/
     (exists o a s1 tbl s2 ts i,
        body = o ++ chars "gate arity " ++ a ++ chars " table [" ++ s1 :: tbl ++
               chars "] inputs [" ++ s2 :: concat ts ++ i ++ chars "]" /\
        ((o = [] /\ m !! "is_output" = None) \/
         (o = chars "output " /\ m !! "is_output" = Some o)) /\
        m !! "arity" = Some a /\ m !! "table" = Some tbl /\
        m !! "inputs" = Some i /\
        Forall round ts /\ round i)).
Proof.
  intros [s' Hm]%re_match_matches.
  rewrite RE_GATE_LINE_parts in Hm. unfold lit in Hm.
  apply matches_seq_inv in Hm as (s0 & c0 & Hbol & Hm).
  apply matches_bol_inv in Hbol as [-> ->].
  apply matches_seq_inv in Hm as (s1 & c1 & Hw & Hm).
  apply matches_group_inv in Hw as (w & cw & Ew & Hw & Ec1).
  apply matches_seq_inv in Hm as (s2 & c2 & Hsp & Hm).
  apply matches_lit_inv in Hsp as [Es1 ->].
  apply matches_seq_inv in Hm as (s3 & c3 & Hb & Hm).
  apply matches_group_inv in Hb as (body & cb & Eb & Hb & Ec3).
  apply matches_seq_inv in Hm as (s4 & c4 & Hc & Hm).
  apply matches_eol_inv in Hm as (Es' & Em & Hs'). subst s4 c4.
  pose proof (comment_layout _ _ _ _ _ Hc) as (cmt & Ecm & Hcm).
  exists w, body, cmt, s'.
  split; [by rewrite Ew, Es1, Eb, Ecm|].
  split; [done|].
  assert (forall g, g <> "comment" -> g <> "2" -> m !! g = cb !! g) as Fr.
  { intros g G1 G2. destruct Hcm as [[_ ->]|(_ & _ & F)].
    - rewrite Ec3. by rewrite lookup_insert_ne.
    - rewrite F, Ec3 by done. by rewrite lookup_insert_ne. }
  assert (cb !! "wire" = Some w) as Cw.
  { subst c1. by look. }
  assert (cb !! "comment" = None) as Cc.
  { subst c1. by look. }
  split; [by rewrite Fr|].
  split.
  { destruct Hcm as [[-> ->]|(N & E & _)]; [left | by right].
    split; [done|]. rewrite Ec3. by rewrite lookup_insert_ne. }
  apply matches_alt_inv in Hb as [Hb|Hb].
  - right.
    pose proof (gate_body_layout _ _ _ _ _ Hb)
      as (o & a & x1 & tbl & x2 & ts & i & E & Ho & Ca & Ct & Ci & Fts & Ri).
    exists o, a, x1, tbl, x2, ts, i.
    split.
    { apply (app_inv_tail s3). rewrite E. rewrite <- !app_assoc. simpl.
      rewrite <- !app_assoc. simpl. by rewrite <- !app_assoc. }
    rewrite !Fr by done.
    split; [|done].
    destruct Ho as [[-> Ho]|[-> Ho]]; [left | by right].
    split; [done|]. rewrite Ho, Ec1. by look.
  - left.
    apply matches_group_inv in Hb as (t & ct & Et & Ht & ->).
    apply matches_lit_inv in Ht as [Et' ->].
    rewrite Fr by done. rewrite lookup_insert_eq.
    apply app_inv_tail in Et as ->. by apply app_inv_tail in Et' as ->.
Qed.

(** ** Well-formed gate lines match *)

Section Accepts.
Variable n : nat.

Lemma accepts_lit l : accepts n (Lit l) l.
Proof. intros s c. exists c. constructor. Qed.

Lemma accepts_chr p a : p a = true -> accepts n (Chr p) [a].
Proof. intros H s c. exists c. by constructor. Qed.

Lemma accepts_seq r1 r2 t1 t2 :
  accepts n r1 t1 -> accepts n r2 t2 -> accepts n (Seq r1 r2) (t1 ++ t2).
Proof.
  intros H1 H2 s c. destruct (H1 (t2 ++ s) c) as [c1 M1].
  destruct (H2 s c1) as [c2 M2]. exists c2. rewrite <- app_assoc.
  by eapply M_seq.
Qed.

Lemma accepts_alt_l r1 r2 t : accepts n r1 t -> accepts n (Alt r1 r2) t.
Proof. intros H s c. destruct (H s c) as [c' M]. exists c'. by apply M_alt_l. Qed.

Lemma accepts_alt_r r1 r2 t : accepts n r2 t -> accepts n (Alt r1 r2) t.
Proof. intros H s c. destruct (H s c) as [c' M]. exists c'. by apply M_alt_r. Qed.

Lemma accepts_group g r t : accepts n r t -> accepts n (Group g r) t.
Proof.
  intros H s c. destruct (H s c) as [c' M]. eexists. by apply M_group_app.
Qed.

Lemma accepts_star r ts :
  Forall (fun t => t <> [] /\ accepts n r t) ts -> accepts n (Star r) (concat ts).
Proof.
  induction 1 as [|t ts [Nt Ht] _ IH]; intros s c; simpl.
  - exists c. constructor.
  - destruct (Ht (concat ts ++ s) c) as [c1 M1].
    destruct (IH s c1) as [c2 M2]. exists c2. rewrite <- app_assoc.
    eapply M_star_S; [exact M1 | | exact M2].
    rewrite (length_app t). destruct t; [done | simpl; lia].
Qed.

Lemma accepts_plus r ts :
  ts <> [] -> Forall (fun t => t <> [] /\ accepts n r t) ts ->
  accepts n (Plus r) (concat ts).
Proof.
  intros N F. destruct F as [|t ts [_ Ht] F]; [done|]. simpl.
  apply accepts_seq; [done | by apply accepts_star].
Qed.

Lemma accepts_star_class p t :
  Forall (fun a => p a = true) t -> accepts n (Star (Chr p)) t.
Proof. intros F s c. exists c. by apply matches_star_class. Qed.

Lemma accepts_numeral t : numeral t -> accepts n digits t.
Proof. intros [N F] s c. exists c. by apply matches_plus_class. Qed.

Lemma accepts_wires g toks :
  toks <> [] -> Forall numeral toks ->
  accepts n (Plus (Group g (digits ~> ws))) (spaced toks).
Proof.
  intros N F. apply accepts_plus; [by destruct toks|].
  apply Forall_fmap. eapply Forall_impl; [exact F|].
  intros t Ht. simpl. split; [by destruct t|].
  apply accepts_group, accepts_seq; [by apply accepts_numeral|].
  by apply accepts_chr.
Qed.

Lemma accepts_bits g toks :
  toks <> [] -> Forall bit_token toks ->
  accepts n (Plus (Group g (Chr is_bit ~> Opt ws))) (spaced toks).
Proof.
  intros N F. apply accepts_plus; [by destruct toks|].
  apply Forall_fmap. eapply Forall_impl; [exact F|].
  intros t Ht. simpl. split; [by destruct t|].
  apply accepts_group.
  destruct Ht as [-> | ->];
    (apply (accepts_seq _ _ [_] [_]);
     [by apply accepts_chr | apply accepts_alt_l; by apply accepts_chr]).
Qed.

Lemma accepts_end_seq r1 r2 t1 t2 :
  accepts n r1 t1 -> accepts_end n r2 t2 -> accepts_end n (Seq r1 r2) (t1 ++ t2).
Proof.
  intros H1 H2 c. destruct (H1 t2 c) as [c1 M1].
  destruct (H2 c1) as [c2 M2]. exists c2. by eapply M_seq.
Qed.

Lemma accepts_end_eol : accepts_end n Eol [].
Proof. intros c. exists c. constructor. by left. Qed.

Lemma accepts_trailer cm :
  trailer_ok cm -> accepts n re_comment (trailer cm).
Proof.
  unfold re_comment, Opt. destruct cm as [[sp text]|]; simpl.
  - intros [Fs Ft]. apply accepts_alt_l, accepts_group.
    apply accepts_seq; [by apply accepts_star_class|].
    apply (accepts_seq _ _ (chars "//")); [apply accepts_lit|].
    apply accepts_star_class.
    eapply Forall_impl; [exact Ft|]. intros a Ha. unfold not_char, is_char.
    apply negb_true_iff, N.eqb_neq. intros E. by apply code_inj in E.
  - intros _. apply accepts_alt_r, accepts_lit.
Qed.

End Accepts.

Lemma trailer_ok_rstrip cm :
  trailer_ok cm -> trailer_ok ((fun c => (fst c, rstrip (snd c))) <$> cm).
Proof.
  destruct cm as [[sp text]|]; simpl; [|done].
  intros [Fs Ft]. split; [done | by apply Forall_rstrip].
Qed.

Lemma input_line_matched w cm :
  numeral w -> trailer_ok cm ->
  is_Some (re_match RE_GATE_LINE (input_line w cm)).
Proof.
  intros Nw Hc. apply re_match_is_Some.
  assert (input_line w cm = w ++ chars " " ++ chars "input" ++ trailer cm ++ [])
    as ->.
  { unfold input_line. rewrite app_nil_r, <- app_assoc. done. }
  set (n := length (w ++ chars " " ++ chars "input" ++ trailer cm ++ [])).
  assert (accepts_end n
            (Group "wire" digits ~> lit " " ~>
             Group "2" (Alt re_gate_body (Group "is_input" (lit "input"))) ~>
             re_comment ~> Eol)
            (w ++ chars " " ++ chars "input" ++ trailer cm ++ [])) as H.
  { apply accepts_end_seq; [by apply accepts_group, accepts_numeral|].
    apply accepts_end_seq; [apply accepts_lit|].
    apply accepts_end_seq.
    { apply accepts_group, accepts_alt_r, accepts_group, accepts_lit. }
    apply accepts_end_seq; [by apply accepts_trailer | apply accepts_end_eol]. }
  destruct (H ∅) as [m M]. exists [], m.
  rewrite RE_GATE_LINE_parts. eapply M_seq; [by constructor | exact M].
Qed.

(** The comment of a matched line whose trailer is known. *)
Lemma trailer_comment cm cmt tail m :
  trailer_ok cm ->
  trailer ((fun c => (fst c, rstrip (snd c))) <$> cm) = cmt ++ tail ->
  tail = [] \/ tail = [newline] ->
  (cmt = [] /\ m !! "comment" = None) \/
  (cmt <> [] /\ m !! "comment" = Some cmt) ->
  comment_of m = kept_comment cm.
Proof.
  intros Hc E Ht Hm. unfold comment_of, kept_comment.
  destruct cm as [[sp text]|]; simpl in *.
  - destruct Hc as [Fs Ft].
    assert (tail = []) as ->.
    { destruct Ht as [-> | ->]; [done | exfalso].
      apply (f_equal last) in E. rewrite last_snoc in E.
      change (sp ++ "/"%char :: "/"%char :: rstrip text)
        with (sp ++ "/"%char :: ("/"%char :: rstrip text)) in E.
      rewrite last_app_cons in E.
      apply last_Some_elem_of in E.
      apply elem_of_cons in E as [E|E]; [done|].
      apply elem_of_cons in E as [E|E]; [done|].
      apply Forall_rstrip in Ft.
      by apply (proj1 (Forall_forall _ _) Ft) in E. }
    rewrite app_nil_r in E. subst cmt.
    destruct Hm as [[E _]|[_ ->]].
    { by destruct sp. }
    destruct (sp ++ "/"%char :: "/"%char :: rstrip text) as [|x y] eqn:E;
      [by destruct sp|].
    rewrite <- E. f_equal. by apply comment_kept.
  - symmetry in E. apply app_eq_nil in E as [-> ->].
    destruct Hm as [[_ ->]|[N _]]; done.
Qed.

Lemma strip_input_line w cm :
  numeral w ->
  strip (input_line w cm)
    = input_line w ((fun c => (fst c, rstrip (snd c))) <$> cm).
Proof.
  intros [Nw Fw]. unfold input_line.
  change (w ++ chars " input") with (w ++ chars " inpu" ++ ["t"%char]).
  rewrite (app_assoc w). apply strip_trailer; [|done].
  destruct w as [|x w]; [done|]. apply Forall_cons in Fw as [Hx _].
  by apply digit_not_space.
Qed.

(** [int] converts a numeral exactly when it is not too long. *)
Lemma py_int_is_Some t : numeral t -> is_Some (py_int t) <-> short t.
Proof.
  intros N. split.
  - intros [k E]. by eapply py_int_short.
  - intros S. destruct (py_int_numeral t N S) as [k E]. by eexists.
Qed.

(** What Gate.from_line makes of a well-formed input line. *)
Lemma input_line_read (w : str) (cm : option (str * str)) (lineno : Z) :
  numeral w -> trailer_ok cm ->
  Gate.from_line (input_line w cm) lineno
    = match py_int w with
      | Some k =>
          ([], Return (Some (mkGate true false k None PyNone PyNone
                               (kept_comment cm))))
      | None => ([], Raise ValueError)
      end.
Proof.
  intros Nw Hc.
  pose proof (strip_input_line w cm Nw) as Es.
  destruct (input_line_matched w _ Nw (trailer_ok_rstrip _ Hc)) as [m E].
  rewrite <- Es in E.
  destruct (gate_match_layout _ _ E)
    as (w' & body & cmt & tail & El & Ht & Cw & Cc & Hb).
  destruct (gate_match_shape _ _ E) as [(w'' & Cw' & [_ Fw']) _].
  assert (w'' = w') as -> by congruence.
  rewrite Es in El. unfold input_line in El. rewrite <- app_assoc in El.
  apply (split_prefix (fun a => is_digit a = true)) in El as (<- & _ & El);
    [|by destruct Nw|done|done|done].
  destruct Hb as [[-> Ci]|(o & a & s1 & tbl & s2 & ts & i & -> & Ho & _)].
  - apply (app_inv_head (chars "input")) in El.
    destruct (from_line_input _ lineno _ E Ci) as (wt & Ew & _ & R).
    assert (wt = w) as -> by congruence.
    by rewrite R, (trailer_comment cm cmt tail m Hc El Ht Cc).
  - destruct Ho as [[-> _]|[-> _]]; simpl in El; discriminate El.
Qed.

(** X12: a well-formed input line whose wire has at most 4300 digits comes
    back as written: the wire of the line as a number, marked as an input
    and not as an output, with no arity, table or inputs.  What follows two
    slashes is kept as the comment, without the white space at its end; a
    line without slashes has no comment.  With a longer wire Gate.from_line
    raises ValueError. *)
Theorem input_line_round_trip (w : str) (cm : option (str * str))
    (lineno : Z) :
  numeral w -> trailer_ok cm ->
  Gate.from_line (input_line w cm) lineno
    = match py_int w with
      | Some k =>
          ([], Return (Some (mkGate true false k None PyNone PyNone
                               (kept_comment cm))))
      | None => ([], Raise ValueError)
      end /\
  (is_Some (py_int w) <-> short w).
Proof.
  intros Nw Hc. split; [by apply input_line_read | by apply py_int_is_Some].
Qed.

Lemma input_line_round_trip_witness :
  Gate.from_line
    (input_line (chars "12") (Some (chars " ", chars " first bit  "))) 0
    = match py_int (chars "12") with
      | Some k =>
          ([], Return (Some (mkGate true false k None PyNone PyNone
                               (kept_comment
                                  (Some (chars " ", chars " first bit  "))))))
      | None => ([], Raise ValueError)
      end /\
  (is_Some (py_int (chars "12")) <-> short (chars "12")).
Proof.
  apply (input_line_round_trip (chars "12")
           (Some (chars " ", chars " first bit  ")) 0).
  - split; [done | by repeat constructor].
  - split; [by repeat constructor | repeat constructor; discriminate].
Defined.

Lemma bit_token_numeral t : bit_token t -> numeral t.
Proof. intros [-> | ->]; (split; [done | by repeat constructor]). Qed.

Lemma gate_line_eq w o a bts ins cm :
  gate_line w o a bts ins cm =
  w ++ chars " " ++
  (o ++ chars "gate arity " ++ a ++ chars " table [" ++ chars " " ++
   spaced bts ++ chars "] inputs [" ++ chars " " ++ spaced ins ++ chars "]") ++
  trailer cm ++ [].
Proof. unfold gate_line. rewrite app_nil_r, <- !app_assoc. done. Qed.

Lemma strip_gate_line w o a bts ins cm :
  numeral w ->
  strip (gate_line w o a bts ins cm)
    = gate_line w o a bts ins ((fun c => (fst c, rstrip (snd c))) <$> cm).
Proof.
  intros [Nw Fw]. unfold gate_line.
  replace (w ++ chars " " ++ o ++ chars "gate arity " ++ a ++
           chars " table [ " ++ spaced bts ++ chars "] inputs [ " ++
           spaced ins ++ chars "]")
    with ((w ++ chars " " ++ o ++ chars "gate arity " ++ a ++
           chars " table [ " ++ spaced bts ++ chars "] inputs [ " ++
           spaced ins) ++ ["]"%char])
    by (by rewrite <- !app_assoc).
  apply strip_trailer; [|done].
  destruct w as [|x w]; [done|]. apply Forall_cons in Fw as [Hx _].
  by apply digit_not_space.
Qed.

Lemma gate_line_matched w o a bts ins cm :
  numeral w -> o = [] \/ o = chars "output " -> numeral a ->
  bts <> [] -> Forall bit_token bts -> ins <> [] -> Forall numeral ins ->
  trailer_ok cm ->
  is_Some (re_match RE_GATE_LINE (gate_line w o a bts ins cm)).
Proof.
  intros Nw Ho Na Nb Fb Ni Fi Hc. apply re_match_is_Some.
  rewrite gate_line_eq.
  match goal with
  | |- exists s' m, matches (length ?L) _ _ _ _ _ => set (n := length L)
  end.
  assert (accepts n re_gate_body
            (o ++ chars "gate arity " ++ a ++ chars " table [" ++ chars " " ++
             spaced bts ++ chars "] inputs [" ++ chars " " ++ spaced ins ++
             chars "]")) as Hb.
  { unfold re_gate_body, Opt.
    apply accepts_seq.
    { destruct Ho as [-> | ->].
      - apply accepts_alt_r, accepts_lit.
      - apply accepts_alt_l, accepts_group, accepts_lit. }
    apply accepts_seq; [apply accepts_lit|].
    apply accepts_seq; [by apply accepts_group, accepts_numeral|].
    apply accepts_seq; [apply accepts_lit|].
    apply accepts_seq; [by apply accepts_chr|].
    apply accepts_seq; [by apply accepts_group, accepts_bits|].
    apply accepts_seq; [apply accepts_lit|].
    apply accepts_seq; [by apply accepts_chr|].
    apply accepts_seq; [by apply accepts_wires|].
    apply accepts_lit. }
  assert (accepts_end n
            (Group "wire" digits ~> lit " " ~>
             Group "2" (Alt re_gate_body (Group "is_input" (lit "input"))) ~>
             re_comment ~> Eol)
            (w ++ chars " " ++
             (o ++ chars "gate arity " ++ a ++ chars " table [" ++ chars " " ++
              spaced bts ++ chars "] inputs [" ++ chars " " ++ spaced ins ++
              chars "]") ++
             trailer cm ++ [])) as H.
  { apply accepts_end_seq; [by apply accepts_group, accepts_numeral|].
    apply accepts_end_seq; [apply accepts_lit|].
    apply accepts_end_seq; [by apply accepts_group, accepts_alt_l|].
    apply accepts_end_seq; [by apply accepts_trailer | apply accepts_end_eol]. }
  destruct (H ∅) as [m M]. exists [], m.
  rewrite RE_GATE_LINE_parts. eapply M_seq; [by constructor | exact M].
Qed.

Lemma bit_token_short t : bit_token t -> short t.
Proof. by intros [-> | ->]. Qed.

(** X13: a well-formed gate line whose wire, arity and last input have at
    most 4300 digits each is read as written, but for its inputs.  The
    wire, the arity and the table come back as numbers, the gate is marked
    as an output exactly when the line says so, and the comment is kept as
    for an input line; of the wires between the brackets of inputs only the
    last is in the gate, whatever the arity, and only it is converted.  A
    line whose arity is above 3, or whose table has not 2^arity entries,
    gives its report and no gate.  A wire, an arity or a last input of more
    digits makes Gate.from_line raise ValueError, the last input before the
    table is measured. *)
Theorem gate_line_round_trip (w a lst : str) (out : bool)
    (bts ins : list str) (cm : option (str * str)) (lineno : Z) :
  let line :=
    gate_line w (if out then chars "output " else []) a bts (ins ++ [lst]) cm in
  numeral w -> numeral a -> bts <> [] -> Forall bit_token bts ->
  Forall numeral ins -> numeral lst -> trailer_ok cm ->
  (exists tl,
     ints bts = Some tl /\
     Gate.from_line line lineno =
       match py_int w with
       | None => ([], Raise ValueError)
       | Some kw =>
       match py_int a with
       | None => ([], Raise ValueError)
       | Some k =>
           if 3 <? k
           then (arity_report lineno (strip line) k, Return None)
           else
           match py_int lst with
           | None => ([], Raise ValueError)
           | Some kl =>
               if Z.of_nat (length bts) =? 2 ^ k
               then ([], Return (Some (mkGate false out kw (Some k) (PyInts tl)
                                         (PyInts [kl]) (kept_comment cm))))
               else (table_report lineno (strip line) k (Z.of_nat (length bts)),
                     Return None)
           end
       end
       end) /\
  ((is_Some (py_int w) <-> short w) /\
   (is_Some (py_int a) <-> short a) /\
   (is_Some (py_int lst) <-> short lst)).
Proof.
  intros line Nw Na Nb Fb Fi Nl Hc.
  split; [|by rewrite !py_int_is_Some].
  set (o := if out then chars "output " else []) in *.
  assert (o = [] \/ o = chars "output ") as Ho by (destruct out; auto).
  assert (Forall numeral (ins ++ [lst])) as Fi'.
  { apply Forall_app. split; [done | by constructor]. }
  assert (Forall numeral bts) as Fb'.
  { eapply Forall_impl; [exact Fb | apply bit_token_numeral]. }
  pose proof (strip_gate_line w o a bts (ins ++ [lst]) cm Nw) as Es.
  fold line in Es.
  destruct (gate_line_matched w o a bts (ins ++ [lst]) _ Nw Ho Na Nb Fb
              ltac:(by destruct ins) Fi' (trailer_ok_rstrip _ Hc)) as [m E].
  rewrite <- Es in E.
  destruct (gate_match_layout _ _ E)
    as (w' & body & cmt & tail & El & Ht & Cw & Cc & Hb).
  destruct (gate_match_shape _ _ E) as [(w'' & Cw' & [_ Fw']) Sh].
  assert (w'' = w') as -> by congruence.
  rewrite Es, gate_line_eq, app_nil_r in El.
  apply (split_prefix (fun c => is_digit c = true)) in El as (<- & _ & El);
    [|by destruct Nw|done|done|done].
  destruct Hb as [[-> Ci]|(o' & a' & s1 & tbl & s2 & ts & i & -> & Ho' & Ca & Ct
                           & Ci & Fts & Ri)].
  { destruct Ho as [-> | ->]; simpl in El; discriminate El. }
  destruct Sh as [(_ & (a'' & Ca' & [_ Fa']) & (t'' & Ct' & _ & Ft') & _)
                 |(_ & Ca' & _)]; [|congruence].
  assert (a'' = a') as -> by congruence.
  assert (t'' = tbl) as -> by congruence.
  (* the word output *)
  assert (o' = o /\ m !! "is_output" = if out then Some o else None) as [-> Co].
  { subst o. destruct out, Ho' as [[-> Co]|[-> Co]]; simpl in El;
      first [done | discriminate El]. }
  rewrite <- !app_assoc in El. apply app_inv_head in El.
  apply (app_inv_head (chars "gate arity ")) in El.
  (* the arity *)
  apply (split_prefix (fun c => is_digit c = true)) in El as (<- & _ & El);
    [|by destruct Na|done|done|done].
  apply (f_equal (drop 7)) in El. simpl in El. rewrite ?drop_0, <- ?app_assoc in El. simpl in El.
  injection El as <- El.
  (* the table *)
  apply (split_prefix (fun c => is_digit c = true \/ py_isspace c = true))
    in El as (<- & _ & El);
    [|by apply spaced_num_text|done|by intros [?|?]|by intros [?|?]].
  apply (f_equal (drop 9)) in El. simpl in El. rewrite ?drop_0, <- ?app_assoc in El. simpl in El.
  injection El as <- El.
  (* the inputs *)
  rewrite (app_assoc (concat ts)) in El.
  apply (split_prefix (fun c => is_digit c = true \/ py_isspace c = true))
    in El as (Ei & _ & El);
    [|by apply spaced_num_text|by apply rounds_num_text
     |by intros [?|?]|by intros [?|?]].
  destruct Ri as (d & x & -> & Nd & Hx).
  assert (d = lst) as ->.
  { pose proof (split_rounds ts d x Fts Nd Hx) as L.
    rewrite <- Ei, split_spaced, last_snoc in L by done. congruence. }
  (* what Gate.from_line computes *)
  destruct (from_line_gate _ lineno _ _ E Ca)
    as (wt & t & i & Ew & _ & _ & Et & _ & Ein & _ & R).
  assert (wt = w) as -> by congruence.
  assert (t = spaced bts) as -> by congruence.
  assert (i = lst ++ [x]) as -> by congruence.
  rewrite split_spaced in R by done.
  rewrite split_wire_round in R by done.
  destruct (ints_numerals bts Fb') as (tl & Etl & Ltl).
  { eapply Forall_impl; [exact Fb | apply bit_token_short]. }
  exists tl. split; [done|]. rewrite R, Etl.
  destruct (py_int w) as [kw|]; [|done].
  destruct (py_int a) as [k|] eqn:Ek; [|done].
  pose proof (py_int_nonneg _ _ Ek) as Hk.
  destruct (Z.ltb_spec k 0); [lia|]. simpl.
  rewrite Z.gtb_ltb. destruct (3 <? k); [done|].
  destruct (py_int lst) as [kl|]; [|done]. simpl.
  rewrite Ltl, Z.shiftl_1_l.
  destruct (Z.of_nat (length bts) =? 2 ^ k); simpl; [|done].
  rewrite (trailer_comment cm cmt tail m Hc El Ht Cc).
  unfold group_eq. rewrite Co. subst o. by destruct out.
Qed.

Lemma gate_line_round_trip_witness :
  (exists tl,
     ints [chars "0"; chars "1"; chars "1"; chars "0"] = Some tl /\
     Gate.from_line
       (gate_line (chars "9") (chars "output ") (chars "2")
          [chars "0"; chars "1"; chars "1"; chars "0"]
          ([chars "3"] ++ [chars "4"]) (Some (chars " ", chars " xor")))
       0 =
       match py_int (chars "9") with
       | None => ([], Raise ValueError)
       | Some kw =>
       match py_int (chars "2") with
       | None => ([], Raise ValueError)
       | Some k =>
           if 3 <? k
           then (arity_report 0
                   (strip (gate_line (chars "9") (chars "output ") (chars "2")
                             [chars "0"; chars "1"; chars "1"; chars "0"]
                             ([chars "3"] ++ [chars "4"])
                             (Some (chars " ", chars " xor")))) k,
                 Return None)
           else
           match py_int (chars "4") with
           | None => ([], Raise ValueError)
           | Some kl =>
               if Z.of_nat (length [chars "0"; chars "1"; chars "1"; chars "0"])
                  =? 2 ^ k
               then ([], Return (Some (mkGate false true kw (Some k) (PyInts tl)
                                         (PyInts [kl])
                                         (kept_comment
                                            (Some (chars " ", chars " xor"))))))
               else (table_report 0
                       (strip (gate_line (chars "9") (chars "output ") (chars "2")
                                 [chars "0"; chars "1"; chars "1"; chars "0"]
                                 ([chars "3"] ++ [chars "4"])
                                 (Some (chars " ", chars " xor")))) k
                       (Z.of_nat
                          (length [chars "0"; chars "1"; chars "1"; chars "0"])),
                     Return None)
           end
       end
       end) /\
  ((is_Some (py_int (chars "9")) <-> short (chars "9")) /\
   (is_Some (py_int (chars "2")) <-> short (chars "2")) /\
   (is_Some (py_int (chars "4")) <-> short (chars "4"))).
Proof.
  apply (gate_line_round_trip (chars "9") (chars "2") (chars "4") true
           [chars "0"; chars "1"; chars "1"; chars "0"] [chars "3"]
           (Some (chars " ", chars " xor")) 0).
  - split; [done | by repeat constructor].
  - split; [done | by repeat constructor].
  - done.
  - repeat (constructor; [first [by left | by right]|]). constructor.
  - repeat constructor; done.
  - split; [done | by repeat constructor].
  - split; [by repeat constructor | repeat constructor; discriminate].
Defined.

(** * A numeral of 4301 digits *)

Lemma long_numeral (n : nat) :
  (4300 < n)%nat ->
  numeral (replicate n "1"%char) /\ py_int (replicate n "1"%char) = None.
Proof.
  intros Hn. split.
  - split; [destruct n; [lia | done] | by apply Forall_replicate].
  - apply py_int_long. unfold short, int_max_str_digits.
    rewrite length_replicate. lia.
Qed.

(** An input line and a variable line with a wire of 4301 digits, one more
    than [int] converts: both readers raise ValueError. *)
Lemma long_wire_raises :
  Gate.from_line (input_line (replicate 4301 "1"%char) None) 0
    = ([], Raise ValueError) /\
  Var.from_line
    (var_line (chars "Bob") (chars "input") (chars "integer")
       (var_line_rest (chars "x") [] [replicate 4301 "1"%char] [])) 0
    = ([], Raise ValueError).
Proof.
  destruct (long_numeral 4301 ltac:(lia)) as [N E]. split.
  - rewrite input_line_read by done. by rewrite E.
  - rewrite var_line_read; [|by right|by left|done|by repeat constructor
                            |done|done|by constructor].
    cbn [ints]. by rewrite E.
Qed.
